(** * Vite dev-server core: module graph, HMR propagation, transform requests

    A shallow embedding of
    - [server/moduleGraph.ts]   (class [ModuleNode], class [ModuleGraph]),
    - [server/hmr.ts]           ([updateModules], [propagateUpdate],
                                 [invalidate], [lexAcceptedHmrDeps]),
    - [server/transformRequest.ts] ([transformRequest], [doTransform]).

    JavaScript objects have identity and are mutated in place.  A
    [ModuleNode] object is therefore a cell of an arena ([list ModuleNode]);
    a reference to it is its index.  A JS [Set] iterates in insertion order,
    so a [Set<ModuleNode>] is a duplicate-free list of references kept in
    insertion order.  A JS [Map] that is only read by key is a [gmap]; the
    one that is iterated ([idToModuleMap]) keeps its insertion order. *)

From Stdlib Require Import ZArith NArith String Ascii Bool.
From stdpp Require Import base option list strings gmap.

Open Scope string_scope.
Open Scope list_scope.
Open Scope nat_scope.

(** ** JavaScript [Set] and [Map], insertion ordered *)

Module JsSet.
Section Ops.
Context {A : Type} `{EqDecision A}.

Definition has (s : list A) (x : A) : bool := bool_decide (x ∈ s).

    (** [s.add(x)]: appended at the end unless already present. *)
Definition add (s : list A) (x : A) : list A :=
      if has s x then s else s ++ [x].

    (** [s.delete(x)] *)
Definition delete (s : list A) (x : A) : list A :=
      filter (λ y, y ≠ x) s.

Lemma has_true s x : has s x = true ↔ x ∈ s.
Proof. unfold has. by rewrite bool_decide_eq_true. Qed.

Lemma has_false s x : has s x = false ↔ x ∉ s.
Proof. unfold has. by rewrite bool_decide_eq_false. Qed.

Lemma elem_of_add s x y : y ∈ add s x ↔ y ∈ s ∨ y = x.
Proof.
      unfold add. destruct (has s x) eqn:E.
      - apply has_true in E. split; [by left|]. by intros [?| ->].
      - rewrite elem_of_app, list_elem_of_singleton. done.
Qed.

Lemma elem_of_delete s x y : y ∈ delete s x ↔ y ∈ s ∧ y ≠ x.
Proof. unfold delete. rewrite list_elem_of_filter. tauto. Qed.

Lemma add_present s x : x ∈ s → add s x = s.
Proof. intros H. unfold add. apply has_true in H. by rewrite H. Qed.

Lemma NoDup_add s x : NoDup s → NoDup (add s x).
Proof.
      intros H. unfold add. destruct (has s x) eqn:E; [done|].
      apply has_false in E. apply NoDup_app. split_and!; [done| |apply NoDup_singleton].
      intros y Hy ->%list_elem_of_singleton. done.
Qed.

Lemma NoDup_delete s x : NoDup s → NoDup (delete s x).
Proof. apply NoDup_filter. Qed.
End Ops.
End JsSet.

Module JsMap.
Section Ops.
Context {K V : Type} `{EqDecision K}.

Fixpoint get (m : list (K * V)) (k : K) : option V :=
      match m with
      | [] => None
      | (k', v) :: m' => if decide (k' = k) then Some v else get m' k
      end.

    (** [m.set(k, v)]: an existing key keeps its position. *)
Fixpoint set (m : list (K * V)) (k : K) (v : V) : list (K * V) :=
      match m with
      | [] => [(k, v)]
      | (k', v') :: m' =>
          if decide (k' = k) then (k', v) :: m' else (k', v') :: set m' k v
      end.

    (** the values in [forEach] order *)
Definition values (m : list (K * V)) : list V := m.*2.

Lemma get_set_eq m k v : get (set m k v) k = Some v.
Proof.
      induction m as [|[k' v'] m IH]; simpl.
      - by rewrite decide_True.
      - destruct (decide (k' = k)) as [->|Hne]; simpl.
        + by rewrite decide_True.
        + by rewrite decide_False.
Qed.

Lemma get_set_ne m k k' v : k ≠ k' → get (set m k v) k' = get m k'.
Proof.
      intros Hne. induction m as [|[k0 v0] m IH]; simpl.
      - by rewrite decide_False.
      - destruct (decide (k0 = k)) as [->|Hne0]; simpl.
        + by rewrite !decide_False.
        + destruct (decide (k0 = k')); done.
Qed.

Lemma elem_of_values_set m k v x :
      x ∈ values (set m k v) → x = v ∨ x ∈ values m.
Proof.
      unfold values. induction m as [|[k0 v0] m IH]; simpl.
      - intros ->%list_elem_of_singleton. by left.
      - destruct (decide (k0 = k)) as [->|Hne]; simpl.
        + rewrite !elem_of_cons. tauto.
        + rewrite !elem_of_cons. intros [->|H]; [tauto|].
          destruct (IH H); tauto.
Qed.
End Ops.
End JsMap.

(** ** String helpers of the JS standard library *)

(** [s.endsWith(suffix)] *)
Definition endsWith (s suffix : string) : bool :=
  (String.length suffix <=? String.length s)%nat &&
  String.eqb
    (substring (String.length s - String.length suffix) (String.length suffix) s)
    suffix.

(** JS truthiness of a string: the empty string is falsy. *)
Definition truthy (s : string) : bool := negb (String.eqb s "").

(** [s || d] on a string that may be null/undefined. *)
Definition or_else (s : option string) (d : string) : string :=
  match s with
  | Some s' => if truthy s' then s' else d
  | None => d
  end.

(** ** Imported helpers

    [../utils], [../constants], [../plugins/css] and Node's [path] and [url]
    are outside the modelled files; the graph and the HMR code only call
    them, so they are an interface. *)

Record UrlWithStringQuery := {
  pathname : string;
  search : option string;
  hash : option string
}.

Class Utils := {
  removeTimestampQuery : string → string;
  removeImportQuery : string → string;
  cleanUrl : string → string;
  normalizePath : string → string;
  extname : string → string;
  parseUrl : string → UrlWithStringQuery;
  isDirectCSSRequest : string → bool;
  isCSSRequest : string → bool;
  FS_PREFIX : string
}.

(** ** moduleGraph.ts: data *)

(** A reference to a [ModuleNode] object: its index in the arena. *)
Definition ref := nat.

Inductive ModuleType := js | css.

Module TransformResult.
Record t (Ext : Type) := mk {
    code : string;
    map : option Ext;
    etag : option string;
    deps : option (list string);
    dynamicDeps : option (list string)
  }.
Arguments mk {Ext}.
Arguments code {Ext}.
Arguments map {Ext}.
Arguments etag {Ext}.
Arguments deps {Ext}.
Arguments dynamicDeps {Ext}.
End TransformResult.

(** [Ext] stands for the values of external libraries that the code stores
    but never inspects: rollup's [ModuleInfo], [meta] records, source maps,
    evaluated SSR modules. *)
Module ModuleNode.
Record t (Ext : Type) := mk {
    url : string;
    id : option string;
    file : option string;
    type : ModuleType;
    info : option Ext;
    meta : option Ext;
    importers : list ref;
    importedModules : list ref;
    acceptedHmrDeps : list ref;
    isSelfAccepting : bool;
    transformResult : option (TransformResult.t Ext);
    ssrTransformResult : option (TransformResult.t Ext);
    ssrModule : option Ext;
    lastHMRTimestamp : Z
  }.
Arguments mk {Ext}.
Arguments url {Ext}.
Arguments id {Ext}.
Arguments file {Ext}.
Arguments type {Ext}.
Arguments info {Ext}.
Arguments meta {Ext}.
Arguments importers {Ext}.
Arguments importedModules {Ext}.
Arguments acceptedHmrDeps {Ext}.
Arguments isSelfAccepting {Ext}.
Arguments transformResult {Ext}.
Arguments ssrTransformResult {Ext}.
Arguments ssrModule {Ext}.
Arguments lastHMRTimestamp {Ext}.

Section Fields.
Context {Ext : Type}.
Implicit Type n : t Ext.

    (** [new ModuleNode(url)] *)
Definition new `{Utils} (u : string) : t Ext :=
      mk u None None (if isDirectCSSRequest u then css else js)
         None None [] [] [] false None None None 0%Z.

    (** Field assignments [n.f = v]. *)
Definition set_id (v : option string) n : t Ext :=
      mk (url n) v (file n) (type n) (info n) (meta n) (importers n)
         (importedModules n) (acceptedHmrDeps n) (isSelfAccepting n)
         (transformResult n) (ssrTransformResult n) (ssrModule n)
         (lastHMRTimestamp n).
Definition set_file (v : option string) n : t Ext :=
      mk (url n) (id n) v (type n) (info n) (meta n) (importers n)
         (importedModules n) (acceptedHmrDeps n) (isSelfAccepting n)
         (transformResult n) (ssrTransformResult n) (ssrModule n)
         (lastHMRTimestamp n).
Definition set_info (v : option Ext) n : t Ext :=
      mk (url n) (id n) (file n) (type n) v (meta n) (importers n)
         (importedModules n) (acceptedHmrDeps n) (isSelfAccepting n)
         (transformResult n) (ssrTransformResult n) (ssrModule n)
         (lastHMRTimestamp n).
Definition set_meta (v : option Ext) n : t Ext :=
      mk (url n) (id n) (file n) (type n) (info n) v (importers n)
         (importedModules n) (acceptedHmrDeps n) (isSelfAccepting n)
         (transformResult n) (ssrTransformResult n) (ssrModule n)
         (lastHMRTimestamp n).
Definition set_importers (v : list ref) n : t Ext :=
      mk (url n) (id n) (file n) (type n) (info n) (meta n) v
         (importedModules n) (acceptedHmrDeps n) (isSelfAccepting n)
         (transformResult n) (ssrTransformResult n) (ssrModule n)
         (lastHMRTimestamp n).
Definition set_importedModules (v : list ref) n : t Ext :=
      mk (url n) (id n) (file n) (type n) (info n) (meta n) (importers n)
         v (acceptedHmrDeps n) (isSelfAccepting n)
         (transformResult n) (ssrTransformResult n) (ssrModule n)
         (lastHMRTimestamp n).
Definition set_acceptedHmrDeps (v : list ref) n : t Ext :=
      mk (url n) (id n) (file n) (type n) (info n) (meta n) (importers n)
         (importedModules n) v (isSelfAccepting n)
         (transformResult n) (ssrTransformResult n) (ssrModule n)
         (lastHMRTimestamp n).
Definition set_isSelfAccepting (v : bool) n : t Ext :=
      mk (url n) (id n) (file n) (type n) (info n) (meta n) (importers n)
         (importedModules n) (acceptedHmrDeps n) v
         (transformResult n) (ssrTransformResult n) (ssrModule n)
         (lastHMRTimestamp n).
Definition set_transformResult (v : option (TransformResult.t Ext)) n : t Ext :=
      mk (url n) (id n) (file n) (type n) (info n) (meta n) (importers n)
         (importedModules n) (acceptedHmrDeps n) (isSelfAccepting n)
         v (ssrTransformResult n) (ssrModule n) (lastHMRTimestamp n).
Definition set_ssrTransformResult (v : option (TransformResult.t Ext)) n : t Ext :=
      mk (url n) (id n) (file n) (type n) (info n) (meta n) (importers n)
         (importedModules n) (acceptedHmrDeps n) (isSelfAccepting n)
         (transformResult n) v (ssrModule n) (lastHMRTimestamp n).
Definition set_ssrModule (v : option Ext) n : t Ext :=
      mk (url n) (id n) (file n) (type n) (info n) (meta n) (importers n)
         (importedModules n) (acceptedHmrDeps n) (isSelfAccepting n)
         (transformResult n) (ssrTransformResult n) v (lastHMRTimestamp n).
Definition set_lastHMRTimestamp (v : Z) n : t Ext :=
      mk (url n) (id n) (file n) (type n) (info n) (meta n) (importers n)
         (importedModules n) (acceptedHmrDeps n) (isSelfAccepting n)
         (transformResult n) (ssrTransformResult n) (ssrModule n) v.
End Fields.
End ModuleNode.

(** The heap of [ModuleNode] objects. *)
Abbreviation Arena Ext := (list (ModuleNode.t Ext)).

(** rollup's [PartialResolvedId], as far as the graph reads it. *)
Record PartialResolvedId (Ext : Type) := {
  resolved_id : string;
  resolved_meta : option Ext
}.
Arguments resolved_id {Ext}.
Arguments resolved_meta {Ext}.

Record ModuleGraph (Ext : Type) := mkGraph {
  arena : Arena Ext;
  urlToModuleMap : gmap string ref;
  idToModuleMap : list (string * ref);
  fileToModulesMap : gmap string (list ref);
  safeModulesPath : list string;
  resolveId : string → bool → option (PartialResolvedId Ext)
}.
Arguments mkGraph {Ext}.
Arguments arena {Ext}.
Arguments urlToModuleMap {Ext}.
Arguments idToModuleMap {Ext}.
Arguments fileToModulesMap {Ext}.
Arguments safeModulesPath {Ext}.
Arguments resolveId {Ext}.

(** [ResolvedUrl = [url, resolvedId, meta]] *)
Definition ResolvedUrl (Ext : Type) : Type := string * string * option Ext.

(** ** moduleGraph.ts: operations *)

Section ModuleGraphOps.
Context {Ext : Type} `{Utils}.
Implicit Type g : ModuleGraph Ext.
Implicit Type a : Arena Ext.

#[global] Instance ModuleNode_inhabited : Inhabited (ModuleNode.t Ext) :=
  populate (ModuleNode.mk "" None None js None None [] [] [] false
                          None None None 0%Z).

(** Reading the object behind a reference. *)
Definition node a (r : ref) : ModuleNode.t Ext := a !!! r.

(** Replacing the arena of a graph (an in-place mutation of some node). *)
Definition with_arena g a : ModuleGraph Ext :=
  mkGraph a (urlToModuleMap g) (idToModuleMap g) (fileToModulesMap g)
          (safeModulesPath g) (resolveId g).

(** [resolveUrl(url, ssr)], when the awaited [resolveId] is fulfilled;
    [resolveId g] is what it is fulfilled with.  The runs in which it
    rejects are those of [Rejecting] below. *)
Definition resolveUrl g (url : string) (ssr : bool) : ResolvedUrl Ext :=
  let url := removeImportQuery (removeTimestampQuery url) in
  let resolved := resolveId g url ssr in
  let resolvedId := or_else (resolved_id <$> resolved) url in
  let ext := extname (cleanUrl resolvedId) in
  let p := parseUrl url in
  let url :=
    if truthy ext && negb (endsWith (pathname p) ext)
    then pathname p +:+ ext +:+ or_else (search p) "" +:+ or_else (hash p) ""
    else url in
  (url, resolvedId, resolved ≫= resolved_meta).

(** [getModuleByUrl(rawUrl, ssr)] *)
Definition getModuleByUrl g (rawUrl : string) (ssr : bool) : option ref :=
  let '(url, _, _) := resolveUrl g rawUrl ssr in
  urlToModuleMap g !! url.

(** [getModuleById(id)] *)
Definition getModuleById g (id : string) : option ref :=
  JsMap.get (idToModuleMap g) (removeTimestampQuery id).

(** [getModulesByFile(file)] *)
Definition getModulesByFile g (file : string) : option (list ref) :=
  fileToModulesMap g !! file.

(** [ensureEntryFromUrl(rawUrl, ssr)]: the node already indexed under the
    resolved url, or a fresh node entered into the three indices. *)
Definition ensureEntryFromUrl g (rawUrl : string) (ssr : bool)
  : ref * ModuleGraph Ext :=
  let '(url, resolvedId, meta) := resolveUrl g rawUrl ssr in
  match urlToModuleMap g !! url with
  | Some mod_ => (mod_, g)
  | None =>
      let mod_ := length (arena g) in
      let n := ModuleNode.new url in
      let n := if meta is Some _ then ModuleNode.set_meta meta n else n in
      let n := ModuleNode.set_id (Some resolvedId) n in
      let file := cleanUrl resolvedId in
      let n := ModuleNode.set_file (Some file) n in
      let fileMappedModules := default [] (fileToModulesMap g !! file) in
      (mod_,
       mkGraph (arena g ++ [n])
               (<[url := mod_]> (urlToModuleMap g))
               (JsMap.set (idToModuleMap g) resolvedId mod_)
               (<[file := JsSet.add fileMappedModules mod_]> (fileToModulesMap g))
               (safeModulesPath g) (resolveId g))
  end.

(** [createFileOnlyEntry(file)] *)
Definition createFileOnlyEntry g (file : string) : ref * ModuleGraph Ext :=
  let file := normalizePath file in
  let fileMappedModules := default [] (fileToModulesMap g !! file) in
  let files :=
    if fileToModulesMap g !! file is Some _ then fileToModulesMap g
    else <[file := []]> (fileToModulesMap g) in
  let url := FS_PREFIX +:+ file in
  match
    List.find (λ m, bool_decide (ModuleNode.url (node (arena g) m) = url)
                    || bool_decide (ModuleNode.id (node (arena g) m) = Some file))
              fileMappedModules
  with
  | Some m =>
      (m, mkGraph (arena g) (urlToModuleMap g) (idToModuleMap g) files
                  (safeModulesPath g) (resolveId g))
  | None =>
      let mod_ := length (arena g) in
      let n := ModuleNode.set_file (Some file) (ModuleNode.new url) in
      (mod_,
       mkGraph (arena g ++ [n]) (urlToModuleMap g) (idToModuleMap g)
               (<[file := JsSet.add fileMappedModules mod_]> files)
               (safeModulesPath g) (resolveId g))
  end.

(** An early [return] out of a loop or a chain of calls is an [option]. *)
Fixpoint foldM {S X : Type} (f : S → X → option S) (s : S) (xs : list X)
  : option S :=
  match xs with
  | [] => Some s
  | x :: xs' => match f s x with Some s' => foldM f s' xs' | None => None end
  end.

(** [invalidateSSRModule(mod, seen)].  The recursion ends because [seen]
    grows; [fuel] bounds its depth and [None] means the bound was too
    small (see [invalidateSSRModule_total]). *)
Fixpoint invalidateSSRModule_fuel (fuel : nat) a (mod_ : ref) (seen : list ref)
  : option (Arena Ext * list ref) :=
  match fuel with
  | O => None
  | S fuel' =>
      if JsSet.has seen mod_ then Some (a, seen)
      else
        let seen := JsSet.add seen mod_ in
        let a := alter (ModuleNode.set_ssrModule None) mod_ a in
        foldM (λ '(a, seen) importer,
                 invalidateSSRModule_fuel fuel' a importer seen)
              (a, seen) (ModuleNode.importers (node a mod_))
  end.

Definition invalidateSSRModule a (mod_ : ref) (seen : list ref)
  : option (Arena Ext * list ref) :=
  invalidateSSRModule_fuel (S (length a)) a mod_ seen.

(** [invalidateModule(mod, seen)] *)
Definition invalidateModule a (mod_ : ref) (seen : list ref)
  : option (Arena Ext * list ref) :=
  let a := alter (ModuleNode.set_info None) mod_ a in
  let a := alter (ModuleNode.set_transformResult None) mod_ a in
  let a := alter (ModuleNode.set_ssrTransformResult None) mod_ a in
  invalidateSSRModule a mod_ seen.

(** [onFileChange(file)] *)
Definition onFileChange g (file : string) : option (ModuleGraph Ext) :=
  match getModulesByFile g file with
  | Some mods =>
      '(a, _) ← foldM (λ '(a, seen) mod_, invalidateModule a mod_ seen)
                       (arena g, []) mods;
      Some (with_arena g a)
  | None => Some g
  end.

(** [invalidateAll()] *)
Definition invalidateAll g : option (ModuleGraph Ext) :=
  '(a, _) ← foldM (λ '(a, seen) mod_, invalidateModule a mod_ seen)
                   (arena g, []) (JsMap.values (idToModuleMap g));
  Some (with_arena g a).

(** One round of the first loop of [updateModuleInfo]: resolve the entry,
    [dep.importers.add(mod)], [nextImports.add(dep)]. *)
Definition entry_node g (x : string + ref) (ssr : bool) : ref * ModuleGraph Ext :=
  match x with
  | inl url => ensureEntryFromUrl g url ssr
  | inr dep => (dep, g)
  end.

Definition add_import (mod_ : ref) (ssr : bool) g (imported : string + ref)
  : ModuleGraph Ext :=
  let '(dep, g) := entry_node g imported ssr in
  let a :=
    alter (λ n, ModuleNode.set_importers (JsSet.add (ModuleNode.importers n) mod_) n)
          dep (arena g) in
  let a :=
    alter (λ n, ModuleNode.set_importedModules
                  (JsSet.add (ModuleNode.importedModules n) dep) n)
          mod_ a in
  with_arena g a.

(** One round of [prevImports.forEach]: drop the back-edge of an import
    that is gone and collect the dep when nobody imports it any more. *)
Definition drop_import (mod_ : ref) (st : Arena Ext * option (list ref)) (dep : ref)
  : Arena Ext * option (list ref) :=
  let '(a, noLongerImported) := st in
  if negb (JsSet.has (ModuleNode.importedModules (node a mod_)) dep) then
    let a :=
      alter (λ n, ModuleNode.set_importers
                    (JsSet.delete (ModuleNode.importers n) mod_) n)
            dep a in
    if bool_decide (length (ModuleNode.importers (node a dep)) = 0)
    then (a, Some (JsSet.add (default [] noLongerImported) dep))
    else (a, noLongerImported)
  else (a, noLongerImported).

(** One round of the last loop: [deps.add(dep)]. *)
Definition add_accepted (mod_ : ref) (ssr : bool) g (accepted : string + ref)
  : ModuleGraph Ext :=
  let '(dep, g) := entry_node g accepted ssr in
  with_arena g
    (alter (λ n, ModuleNode.set_acceptedHmrDeps
                   (JsSet.add (ModuleNode.acceptedHmrDeps n) dep) n)
           mod_ (arena g)).

(** [updateModuleInfo(mod, importedModules, acceptedModules,
    isSelfAccepting, ssr)] when it completes, every awaited resolve being
    fulfilled.  The two argument sets are read in their iteration order;
    the result is [noLongerImported], [None] for [undefined]. *)
Definition updateModuleInfo g (mod_ : ref)
    (importedModules acceptedModules : list (string + ref))
    (isSelfAccepting : bool) (ssr : bool)
  : option (list ref) * ModuleGraph Ext :=
  let a := alter (ModuleNode.set_isSelfAccepting isSelfAccepting) mod_ (arena g) in
  let prevImports := ModuleNode.importedModules (node a mod_) in
  let a := alter (ModuleNode.set_importedModules []) mod_ a in
  let g := foldl (add_import mod_ ssr) (with_arena g a) importedModules in
  let '(a, noLongerImported) :=
    foldl (drop_import mod_) (arena g, None) prevImports in
  let a := alter (ModuleNode.set_acceptedHmrDeps []) mod_ a in
  let g := foldl (add_accepted mod_ ssr) (with_arena g a) acceptedModules in
  (noLongerImported, g).

End ModuleGraphOps.

(** ** moduleGraph.ts: a resolve that rejects

    [resolveId] is awaited, and the promise may reject.  The operations
    above are the runs in which every awaited resolve is fulfilled; here are
    the others.  A rejection leaves the function at the [await], with what
    was assigned before still assigned. *)

Module Rejecting.

(** How an [async] function ends: with a value, or by throwing what the
    rejected promise carried. *)
Inductive Completion (A : Type) :=
| Returned (v : A)
| Threw.
Arguments Returned {A}.
Arguments Threw {A}.

Section Ops.
Context {Ext : Type} `{Utils}.
Implicit Type g : ModuleGraph Ext.

(** Only an entry that is a url is resolved. *)
Definition awaits_resolve (x : string + ref) : bool :=
  match x with inl _ => true | inr _ => false end.

(** [ensureEntryFromUrl(rawUrl, ssr)]: [resolveUrl] is awaited before
    anything is looked up or assigned. *)
Definition ensureEntryFromUrl (rejects : bool) g (rawUrl : string) (ssr : bool)
  : Completion ref * ModuleGraph Ext :=
  if rejects then (Threw, g)
  else let '(mod_, g) := ensureEntryFromUrl g rawUrl ssr in (Returned mod_, g).

(** A [for (const x of xs)] loop whose body [step] starts with
    [await this.ensureEntryFromUrl(x, ssr)] when [x] is a url.  [rejects i]
    tells whether the resolve awaited for the entry in place [i] rejects;
    the flag returned tells whether the loop ran to its end. *)
Fixpoint loop (step : ModuleGraph Ext → string + ref → ModuleGraph Ext)
    (rejects : nat → bool) (i : nat) g (xs : list (string + ref))
  : bool * ModuleGraph Ext :=
  match xs with
  | [] => (true, g)
  | x :: xs' =>
      if awaits_resolve x && rejects i then (false, g)
      else loop step rejects (S i) (step g x) xs'
  end.

(** [updateModuleInfo(mod, importedModules, acceptedModules,
    isSelfAccepting, ssr)].  The entries are numbered in the order in which
    they are read, those of [importedModules] first. *)
Definition updateModuleInfo (rejects : nat → bool) g (mod_ : ref)
    (importedModules acceptedModules : list (string + ref))
    (isSelfAccepting : bool) (ssr : bool)
  : Completion (option (list ref)) * ModuleGraph Ext :=
  let a := alter (ModuleNode.set_isSelfAccepting isSelfAccepting) mod_ (arena g) in
  let prevImports := ModuleNode.importedModules (node a mod_) in
  let a := alter (ModuleNode.set_importedModules []) mod_ a in
  let '(finished, g) :=
    loop (add_import mod_ ssr) rejects 0 (with_arena g a) importedModules in
  if negb finished then (Threw, g)
  else
    let '(a, noLongerImported) :=
      foldl (drop_import mod_) (arena g, None) prevImports in
    let a := alter (ModuleNode.set_acceptedHmrDeps []) mod_ a in
    let '(finished, g) :=
      loop (add_accepted mod_ ssr) rejects (length importedModules)
           (with_arena g a) acceptedModules in
    if negb finished then (Threw, g)
    else (Returned noLongerImported, g).

End Ops.
End Rejecting.

(** ** Facts about the arena *)

Section ArenaFacts.
Context {Ext : Type}.
Implicit Type a : Arena Ext.

Lemma node_alter_eq a (f : ModuleNode.t Ext → ModuleNode.t Ext) (r : ref) :
  r < length a → node (alter f r a) r = f (node a r).
Proof.
  intros Hr. unfold node.
  destruct (lookup_lt_is_Some_2 a r Hr) as [n Hn].
  rewrite (list_lookup_total_correct _ _ _ Hn).
  apply list_lookup_total_correct.
  by rewrite list_lookup_alter_eq, Hn.
Qed.

Lemma node_alter_ne a (f : ModuleNode.t Ext → ModuleNode.t Ext) (r r' : ref) :
  r ≠ r' → node (alter f r a) r' = node a r'.
Proof.
  intros Hne. unfold node.
  rewrite !list_lookup_total_alt. by rewrite list_lookup_alter_ne.
Qed.

Lemma node_alter_field {X} (proj : ModuleNode.t Ext → X) a f (r r' : ref) :
  (∀ n, proj (f n) = proj n) →
  proj (node (alter f r a) r') = proj (node a r').
Proof.
  intros Hf. destruct (decide (r = r')) as [<-|Hne].
  - destruct (decide (r < length a)) as [Hlt|Hge].
    + by rewrite node_alter_eq, Hf.
    + unfold node. rewrite !list_lookup_total_alt.
      rewrite list_lookup_alter_eq.
      by rewrite (lookup_ge_None_2 a r) by lia.
  - by rewrite node_alter_ne.
Qed.

Lemma node_app_l a (n : ModuleNode.t Ext) (r : ref) :
  r < length a → node (a ++ [n]) r = node a r.
Proof.
  intros Hr. unfold node. rewrite !list_lookup_total_alt.
  by rewrite lookup_app_l.
Qed.

Lemma node_app_new a (n : ModuleNode.t Ext) : node (a ++ [n]) (length a) = n.
Proof.
  unfold node. apply list_lookup_total_correct.
  rewrite lookup_app_r by lia. by rewrite Nat.sub_diag.
Qed.

Lemma length_alter_arena a (f : ModuleNode.t Ext → ModuleNode.t Ext) (r : ref) :
  length (alter f r a) = length a.
Proof. apply length_alter. Qed.

End ArenaFacts.

(** ** [ensureEntryFromUrl] *)

Section EnsureEntry.
Context {Ext : Type} `{Utils}.
Implicit Type g : ModuleGraph Ext.

Lemma resolveUrl_with_resolveId g g' rawUrl ssr :
  resolveId g' = resolveId g → resolveUrl g' rawUrl ssr = resolveUrl g rawUrl ssr.
Proof. intros E. unfold resolveUrl. by rewrite E. Qed.

(** What a call changes: nothing, or one node appended and entered into
    the indices; the url index never loses or changes an entry. *)
Lemma ensureEntryFromUrl_frame g rawUrl ssr :
  let r := (ensureEntryFromUrl g rawUrl ssr).1 in
  let g' := (ensureEntryFromUrl g rawUrl ssr).2 in
  (arena g' = arena g ∨
   ∃ n, arena g' = arena g ++ [n] ∧ r = length (arena g) ∧
        ModuleNode.importers n = [] ∧ ModuleNode.importedModules n = [] ∧
        ModuleNode.acceptedHmrDeps n = []) ∧
  resolveId g' = resolveId g ∧
  (∀ u m, urlToModuleMap g !! u = Some m → urlToModuleMap g' !! u = Some m) ∧
  urlToModuleMap g' !! (resolveUrl g rawUrl ssr).1.1 = Some r.
Proof.
  unfold ensureEntryFromUrl.
  destruct (resolveUrl g rawUrl ssr) as [[url resolvedId] meta]; simpl.
  destruct (urlToModuleMap g !! url) as [m|] eqn:E; simpl.
  - split_and!; auto.
  - split_and!; auto.
    + right. eexists. split; [done|]. by destruct meta.
    + intros u m Hu. rewrite lookup_insert_ne; [done|]. congruence.
    + by rewrite lookup_insert_eq.
Qed.

(** C9.  [ensureEntryFromUrl] is idempotent.  Calling it again with the
    same url (the resolver answering the same) returns the same node and
    leaves the whole graph, in particular the three indices, as the first
    call left it.  The node it returns is indexed under the resolved url;
    when the url was not indexed before, the node is a new object and the
    call has entered it under its url, its resolved id and its file. *)
Theorem ensureEntryFromUrl_idempotent g rawUrl ssr :
  let '(url, resolvedId, _) := resolveUrl g rawUrl ssr in
  let '(mod1, g1) := ensureEntryFromUrl g rawUrl ssr in
  ensureEntryFromUrl g1 rawUrl ssr = (mod1, g1) ∧
  urlToModuleMap g1 !! url = Some mod1 ∧
  match urlToModuleMap g !! url with
  | Some m => mod1 = m ∧ g1 = g
  | None =>
      mod1 = length (arena g) ∧
      ModuleNode.url (node (arena g1) mod1) = url ∧
      JsMap.get (idToModuleMap g1) resolvedId = Some mod1 ∧
      ∃ mods, fileToModulesMap g1 !! cleanUrl resolvedId = Some mods ∧
              mod1 ∈ mods
  end.
Proof.
  unfold ensureEntryFromUrl.
  destruct (resolveUrl g rawUrl ssr) as [[url resolvedId] meta] eqn:ER.
  destruct (urlToModuleMap g !! url) as [m|] eqn:E.
  - rewrite ER, E. done.
  - rewrite (resolveUrl_with_resolveId g) by done.
    rewrite ER. simpl. rewrite lookup_insert_eq. split_and!; try done.
    + rewrite node_app_new. by destruct meta.
    + apply JsMap.get_set_eq.
    + eexists. rewrite lookup_insert_eq. split; [done|].
      apply JsSet.elem_of_add. by right.
Qed.

End EnsureEntry.

(** ** [updateModuleInfo] *)

Section UpdateModuleInfo.
Context {Ext : Type} `{Utils}.
Implicit Type g : ModuleGraph Ext.
Implicit Type a : Arena Ext.

(** The node that an entry of an argument set stands for: the node itself,
    or the node indexed under the resolved url. *)
Definition denotes g (ssr : bool) (x : string + ref) (r : ref) : Prop :=
  match x with
  | inl u => urlToModuleMap g !! (resolveUrl g u ssr).1.1 = Some r
  | inr d => r = d
  end.

(** [g'] is [g] after more nodes were created: no object disappears and no
    url changes its node. *)
Record extends g g' : Prop := {
  ext_length : length (arena g) ≤ length (arena g');
  ext_resolveId : resolveId g' = resolveId g;
  ext_url : ∀ u m, urlToModuleMap g !! u = Some m → urlToModuleMap g' !! u = Some m
}.

(** The objects of [g] still have the same value of a field in [g']. *)
Definition keeps {X} (proj : ModuleNode.t Ext → X) g g' : Prop :=
  extends g g' ∧
  ∀ d, d < length (arena g) → proj (node (arena g') d) = proj (node (arena g) d).

Lemma extends_refl g : extends g g.
Proof. by split. Qed.

Lemma extends_trans g1 g2 g3 : extends g1 g2 → extends g2 g3 → extends g1 g3.
Proof.
  intros [L1 R1 U1] [L2 R2 U2]. split; [lia|congruence|auto].
Qed.

Lemma keeps_refl {X} (proj : ModuleNode.t Ext → X) g : keeps proj g g.
Proof. split; [apply extends_refl|done]. Qed.

Lemma keeps_trans {X} (proj : ModuleNode.t Ext → X) g1 g2 g3 :
  keeps proj g1 g2 → keeps proj g2 g3 → keeps proj g1 g3.
Proof.
  intros [E1 K1] [E2 K2]. split; [by eapply extends_trans|].
  intros d Hd. rewrite K2, K1; [done..|].
  destruct E1. lia.
Qed.

Lemma keeps_foldl {X Y} (proj : ModuleNode.t Ext → X)
    (step : ModuleGraph Ext → Y → ModuleGraph Ext) (mod_ : ref) :
  (∀ g y, mod_ < length (arena g) → keeps proj g (step g y)) →
  ∀ ys g, mod_ < length (arena g) → keeps proj g (foldl step g ys).
Proof.
  intros Hstep ys. induction ys as [|y ys IH]; intros g Hm; simpl.
  - apply keeps_refl.
  - pose proof (Hstep g y Hm) as K.
    eapply keeps_trans; [exact K|]. apply IH.
    destruct K as [[L _ _] _]. lia.
Qed.

Lemma denotes_extends g g' ssr x r :
  extends g g' → denotes g ssr x r → denotes g' ssr x r.
Proof.
  intros [_ R U]. destruct x as [u|d]; unfold denotes; [|done].
  rewrite (resolveUrl_with_resolveId g g' u ssr R). apply U.
Qed.

Lemma denotes_functional g ssr x r r' :
  denotes g ssr x r → denotes g ssr x r' → r = r'.
Proof. destruct x; simpl; congruence. Qed.

Lemma with_arena_extends g a :
  length (arena g) ≤ length a → extends g (with_arena g a).
Proof. intros L. by split. Qed.

(** Resolving one entry of an argument set. *)
Lemma entry_node_spec g x ssr :
  let dep := (entry_node g x ssr).1 in
  let g' := (entry_node g x ssr).2 in
  extends g g' ∧ denotes g' ssr x dep ∧
  (∀ d, d < length (arena g) → node (arena g') d = node (arena g) d).
Proof.
  destruct x as [u|d]; unfold entry_node, denotes; cbv zeta.
  - pose proof (ensureEntryFromUrl_frame g u ssr) as (Ha & Hr & Hu & Hl).
    cbv zeta in *. split_and!.
    + split; [|done..]. destruct Ha as [->|(n & -> & _)]; [done|].
      rewrite length_app. lia.
    + by rewrite (resolveUrl_with_resolveId g _ u ssr Hr).
    + intros d Hd. destruct Ha as [->|(n & -> & _)]; [done|].
      by apply node_app_l.
  - split_and!; [apply extends_refl|done..].
Qed.

(** A loop that resolves the entries [xs] one by one and adds each node to
    the set [F] of [mod_]. *)
Lemma collect_foldl (F : ModuleNode.t Ext → list ref)
    (step : ModuleGraph Ext → string + ref → ModuleGraph Ext)
    (mod_ : ref) (ssr : bool) :
  (∀ g x, mod_ < length (arena g) →
     ∃ dep, extends g (step g x) ∧ denotes (step g x) ssr x dep ∧
       ∀ r, r ∈ F (node (arena (step g x)) mod_) ↔
            r ∈ F (node (arena g) mod_) ∨ r = dep) →
  ∀ xs g, mod_ < length (arena g) →
    let g' := foldl step g xs in
    extends g g' ∧
    (∀ r, r ∈ F (node (arena g') mod_) ↔
          r ∈ F (node (arena g) mod_) ∨ ∃ x, x ∈ xs ∧ denotes g' ssr x r) ∧
    (∀ x, x ∈ xs → ∃ r, denotes g' ssr x r).
Proof.
  intros Hstep xs. induction xs as [|x xs IH]; intros g Hm; cbn [foldl]; cbv zeta.
  - split_and!; [apply extends_refl| |].
    + intros r. split; [by left|].
      intros [?|(x & Hx & _)]; [done|]. by apply elem_of_nil in Hx.
    + intros x Hx. by apply elem_of_nil in Hx.
  - destruct (Hstep g x Hm) as (dep & E & D & Hin).
    assert (mod_ < length (arena (step g x))) as Hm' by (destruct E; lia).
    destruct (IH _ Hm') as (E' & Hin' & Hall).
    split_and!; [by eapply extends_trans| |].
    + intros r. rewrite Hin', Hin. split.
      * intros [[?| ->]|(x' & Hx' & D')]; [by left| |].
        -- right. exists x. split; [left|]. by eapply denotes_extends.
        -- right. exists x'. split; [by right|done].
      * intros [?|(x' & [->|Hx']%elem_of_cons & D')]; [by left;left| |].
        -- left. right. eapply denotes_functional; [exact D'|].
           by eapply denotes_extends.
        -- right. by exists x'.
    + intros x' [->|Hx']%elem_of_cons; [|by apply Hall].
      exists dep. by eapply denotes_extends.
Qed.

Lemma node_alter_total a (f : ModuleNode.t Ext → ModuleNode.t Ext) (r : ref) :
  node (alter f r a) r = if decide (r < length a) then f (node a r) else node a r.
Proof.
  case_decide as Hr; [by apply node_alter_eq|].
  unfold node. rewrite !list_lookup_total_alt, list_lookup_alter_eq.
  by rewrite (lookup_ge_None_2 a r) by lia.
Qed.

Lemma add_import_step (mod_ : ref) ssr g x :
  mod_ < length (arena g) →
  ∃ dep, extends g (add_import mod_ ssr g x) ∧
    denotes (add_import mod_ ssr g x) ssr x dep ∧
    ∀ r, r ∈ ModuleNode.importedModules (node (arena (add_import mod_ ssr g x)) mod_) ↔
         r ∈ ModuleNode.importedModules (node (arena g) mod_) ∨ r = dep.
Proof.
  intros Hm. unfold add_import.
  pose proof (entry_node_spec g x ssr) as (E & D & Fr). cbv zeta in *.
  destruct (entry_node g x ssr) as [dep g1]. simpl in *.
  exists dep. destruct E as [L R U]. split_and!.
  - split; simpl; [|done..]. rewrite !length_alter. lia.
  - destruct x as [u|?]; [|done]. unfold denotes in *.
    by rewrite (resolveUrl_with_resolveId g1 _ u ssr).
  - intros r. rewrite node_alter_eq by (rewrite length_alter; lia). simpl.
    rewrite JsSet.elem_of_add.
    rewrite (node_alter_field ModuleNode.importedModules) by done.
    by rewrite Fr.
Qed.

Lemma add_import_keeps (mod_ : ref) ssr g x :
  keeps ModuleNode.isSelfAccepting g (add_import mod_ ssr g x).
Proof.
  unfold add_import.
  pose proof (entry_node_spec g x ssr) as (E & D & Fr). cbv zeta in *.
  destruct (entry_node g x ssr) as [dep g1]. simpl in *.
  destruct E as [L R U]. split.
  - split; simpl; [|done..]. rewrite !length_alter. lia.
  - intros d Hd. simpl.
    rewrite !(node_alter_field ModuleNode.isSelfAccepting) by done.
    by rewrite Fr.
Qed.

(** The fields that the last loop leaves alone. *)
Definition links (n : ModuleNode.t Ext) : list ref * list ref * bool :=
  (ModuleNode.importers n, ModuleNode.importedModules n,
   ModuleNode.isSelfAccepting n).

Lemma add_accepted_step (mod_ : ref) ssr g x :
  mod_ < length (arena g) →
  ∃ dep, extends g (add_accepted mod_ ssr g x) ∧
    denotes (add_accepted mod_ ssr g x) ssr x dep ∧
    ∀ r, r ∈ ModuleNode.acceptedHmrDeps (node (arena (add_accepted mod_ ssr g x)) mod_) ↔
         r ∈ ModuleNode.acceptedHmrDeps (node (arena g) mod_) ∨ r = dep.
Proof.
  intros Hm. unfold add_accepted.
  pose proof (entry_node_spec g x ssr) as (E & D & Fr). cbv zeta in *.
  destruct (entry_node g x ssr) as [dep g1]. simpl in *.
  exists dep. destruct E as [L R U]. split_and!.
  - split; simpl; [|done..]. rewrite !length_alter. lia.
  - destruct x as [u|?]; [|done]. unfold denotes in *.
    by rewrite (resolveUrl_with_resolveId g1 _ u ssr).
  - intros r. rewrite node_alter_eq by lia. simpl.
    rewrite JsSet.elem_of_add. by rewrite Fr.
Qed.

Lemma add_accepted_keeps (mod_ : ref) ssr g x :
  keeps links g (add_accepted mod_ ssr g x).
Proof.
  unfold add_accepted.
  pose proof (entry_node_spec g x ssr) as (E & D & Fr). cbv zeta in *.
  destruct (entry_node g x ssr) as [dep g1]. simpl in *.
  destruct E as [L R U]. split.
  - split; simpl; [|done..]. rewrite !length_alter. lia.
  - intros d Hd. simpl.
    rewrite !(node_alter_field links) by done.
    by rewrite Fr.
Qed.

(** The second loop.  [gone_importers mod_ a d] is what [d.importers] is
    once [mod_] has been deleted from it. *)
Definition gone_importers (mod_ : ref) a (d : ref) : list ref :=
  JsSet.delete (ModuleNode.importers (node a d)) mod_.

Definition ok_result (o : option (list ref)) : Prop :=
  match o with Some l => l ≠ [] | None => True end.

Lemma delete_delete (s : list ref) (x : ref) :
  JsSet.delete (JsSet.delete s x) x = JsSet.delete s x.
Proof.
  unfold JsSet.delete. induction s as [|y s IH]; [done|].
  rewrite filter_cons. case_decide; [|done].
  rewrite filter_cons. rewrite decide_True by done. by rewrite IH.
Qed.

Lemma importers_dangling a (d : ref) :
  ¬ d < length a → ModuleNode.importers (node a d) = [].
Proof.
  intros Hd. unfold node. rewrite list_lookup_total_alt.
  by rewrite (lookup_ge_None_2 a d) by lia.
Qed.

Lemma add_nonempty (s : list ref) (x : ref) : JsSet.add s x ≠ [].
Proof.
  unfold JsSet.add. destruct (JsSet.has s x) eqn:E.
  - apply JsSet.has_true in E. intros ->. by apply elem_of_nil in E.
  - by destruct s.
Qed.

Lemma drop_import_spec (mod_ : ref) a nli (dep : ref) :
  let next := ModuleNode.importedModules (node a mod_) in
  let a1 := (drop_import mod_ (a, nli) dep).1 in
  let nli1 := (drop_import mod_ (a, nli) dep).2 in
  length a1 = length a ∧
  (∀ X (proj : ModuleNode.t Ext → X),
     (∀ v n, proj (ModuleNode.set_importers v n) = proj n) →
     ∀ d, proj (node a1 d) = proj (node a d)) ∧
  (∀ d, ModuleNode.importers (node a1 d) =
        if decide (d = dep ∧ dep ∉ next) then gone_importers mod_ a d
        else ModuleNode.importers (node a d)) ∧
  nli1 = (if decide ((dep ∉ next) ∧ gone_importers mod_ a dep = [])
          then Some (JsSet.add (default [] nli) dep) else nli).
Proof.
  cbv zeta. unfold drop_import.
  destruct (JsSet.has _ dep) eqn:E; simpl.
  - apply JsSet.has_true in E. split_and!; [done..| |].
    + intros d. rewrite decide_False; [done|]. tauto.
    + rewrite decide_False; [done|]. tauto.
  - apply JsSet.has_false in E.
    set (F := λ n : ModuleNode.t Ext, ModuleNode.set_importers _ n).
    assert (ModuleNode.importers (node (alter F dep a) dep)
            = gone_importers mod_ a dep) as Himp.
    { rewrite node_alter_total. case_decide as Hd; [done|].
      unfold gone_importers. by rewrite importers_dangling. }
    rewrite Himp.
    replace (bool_decide (length (gone_importers mod_ a dep) = 0))
      with (bool_decide (gone_importers mod_ a dep = [])).
    2:{ apply bool_decide_ext. by rewrite length_zero_iff_nil. }
    case_bool_decide as Hg; simpl.
    + split_and!.
      * apply length_alter.
      * intros X proj Hp d. apply node_alter_field. intros n. apply Hp.
      * intros d. case_decide as Hc.
        -- destruct Hc as [-> _]. done.
        -- rewrite node_alter_ne; [done|]. intros ->. tauto.
      * by rewrite decide_True.
    + split_and!.
      * apply length_alter.
      * intros X proj Hp d. apply node_alter_field. intros n. apply Hp.
      * intros d. case_decide as Hc.
        -- destruct Hc as [-> _]. done.
        -- rewrite node_alter_ne; [done|]. intros ->. tauto.
      * rewrite decide_False; [done|]. tauto.
Qed.

Lemma drop_import_foldl (mod_ : ref) prev : ∀ a nli,
  let next := ModuleNode.importedModules (node a mod_) in
  let a' := (foldl (drop_import mod_) (a, nli) prev).1 in
  let nli' := (foldl (drop_import mod_) (a, nli) prev).2 in
  length a' = length a ∧
  (∀ X (proj : ModuleNode.t Ext → X),
     (∀ v n, proj (ModuleNode.set_importers v n) = proj n) →
     ∀ d, proj (node a' d) = proj (node a d)) ∧
  (∀ d, ModuleNode.importers (node a' d) =
        if decide (d ∈ prev ∧ d ∉ next) then gone_importers mod_ a d
        else ModuleNode.importers (node a d)) ∧
  (ok_result nli → ok_result nli') ∧
  (∀ d, d ∈ default [] nli' ↔
        d ∈ default [] nli ∨
        (d ∈ prev ∧ (d ∉ next) ∧ gone_importers mod_ a d = [])).
Proof.
  induction prev as [|dep prev IH]; intros a nli; cbv zeta; cbn [foldl].
  - simpl. split_and!; try done.
    intros d. split; [by left|]. intros [?|[[]%elem_of_nil _]]. done.
  - pose proof (drop_import_spec mod_ a nli dep) as (L1 & P1 & I1 & N1).
    cbv zeta in *.
    destruct (drop_import mod_ (a, nli) dep) as [a1 nli1]. simpl in *.
    specialize (IH a1 nli1). cbv zeta in IH.
    destruct IH as (L2 & P2 & I2 & O2 & N2).
    assert (ModuleNode.importedModules (node a1 mod_)
            = ModuleNode.importedModules (node a mod_)) as Hnext
      by (apply (P1 _ ModuleNode.importedModules); intros; reflexivity).
    rewrite Hnext in *.
    assert (∀ d, gone_importers mod_ a1 d = gone_importers mod_ a d) as HG.
    { intros d. unfold gone_importers at 1. rewrite I1.
      destruct (decide (d = dep ∧ dep ∉ ModuleNode.importedModules (node a mod_)));
        [apply delete_delete|reflexivity]. }
    split_and!.
    + lia.
    + intros X proj Hp d. rewrite P2, P1; done.
    + intros d. rewrite I2, HG, I1.
      set (next := ModuleNode.importedModules (node a mod_)) in *.
      destruct (decide (d ∈ prev ∧ d ∉ next)) as [C1|C1],
               (decide (d = dep ∧ dep ∉ next)) as [C2|C2],
               (decide (d ∈ dep :: prev ∧ d ∉ next)) as [C3|C3];
        try done; exfalso; rewrite elem_of_cons in C3;
        clear -C1 C2 C3; intuition (subst; tauto).
    + intros Ho. apply O2. subst nli1. case_decide; [|done].
      simpl. apply add_nonempty.
    + intros d. rewrite N2, HG. subst nli1. case_decide as Hc.
      * simpl. rewrite JsSet.elem_of_add. rewrite elem_of_cons. split.
        -- intros [[?| ->]|(?&?&?)]; [tauto| |tauto].
           right. tauto.
        -- intros [?|([->|?]&?&?)]; tauto.
      * rewrite elem_of_cons. split; [tauto|].
        intros [?|([->|?]&?&?)]; tauto.
Qed.

(** The two sets of a node that the invariant on accepted deps reads. *)
Definition sets_of (n : ModuleNode.t Ext) : list ref * list ref :=
  (ModuleNode.importedModules n, ModuleNode.acceptedHmrDeps n).

(** Every object but [mod_] has kept its two sets.  An index that is not
    yet an object reads as a node without edges, so that the objects
    created on the way are covered. *)
Definition same_sets_except (mod_ : ref) g g' : Prop :=
  ∀ m, m ≠ mod_ → sets_of (node (arena g') m) = sets_of (node (arena g) m).

Lemma same_sets_except_trans (mod_ : ref) g1 g2 g3 :
  same_sets_except mod_ g1 g2 → same_sets_except mod_ g2 g3 →
  same_sets_except mod_ g1 g3.
Proof. intros S1 S2 m Hm. by rewrite S2, S1. Qed.

Lemma same_sets_except_foldl {Y} (step : ModuleGraph Ext → Y → ModuleGraph Ext)
    (mod_ : ref) :
  (∀ g y, same_sets_except mod_ g (step g y)) →
  ∀ ys g, same_sets_except mod_ g (foldl step g ys).
Proof.
  intros Hstep ys. induction ys as [|y ys IH]; intros g; cbn [foldl].
  - by intros m Hm.
  - eapply same_sets_except_trans; [apply Hstep|apply IH].
Qed.

Lemma sets_of_dangling a (m : ref) :
  ¬ m < length a → sets_of (node a m) = ([], []).
Proof.
  intros Hm. unfold node. rewrite list_lookup_total_alt.
  by rewrite (lookup_ge_None_2 a m) by lia.
Qed.

Lemma sets_of_app_new a (n : ModuleNode.t Ext) (m : ref) :
  sets_of n = ([], []) → sets_of (node (a ++ [n]) m) = sets_of (node a m).
Proof.
  intros Hn. destruct (decide (m < length a)) as [Hlt|Hge].
  - by rewrite node_app_l.
  - rewrite (sets_of_dangling a m Hge).
    destruct (decide (m = length a)) as [->|Hne].
    + by rewrite node_app_new.
    + apply sets_of_dangling. rewrite length_app. simpl. lia.
Qed.

Lemma ensureEntryFromUrl_sets g rawUrl ssr (m : ref) :
  sets_of (node (arena (ensureEntryFromUrl g rawUrl ssr).2) m)
  = sets_of (node (arena g) m).
Proof.
  pose proof (ensureEntryFromUrl_frame g rawUrl ssr) as (Ha & _).
  cbv zeta in Ha. destruct Ha as [->|(n & -> & _ & _ & Hi & Hc)]; [done|].
  apply sets_of_app_new. unfold sets_of. by rewrite Hi, Hc.
Qed.

Lemma entry_node_sets g x ssr (m : ref) :
  sets_of (node (arena (entry_node g x ssr).2) m) = sets_of (node (arena g) m).
Proof. destruct x; [apply ensureEntryFromUrl_sets|done]. Qed.

Lemma add_import_sets (mod_ : ref) ssr g x :
  same_sets_except mod_ g (add_import mod_ ssr g x).
Proof.
  intros m Hm. unfold add_import.
  pose proof (entry_node_sets g x ssr m) as Hs.
  destruct (entry_node g x ssr) as [dep g1]. simpl in *.
  rewrite node_alter_ne by done.
  by rewrite (node_alter_field sets_of).
Qed.

Lemma add_accepted_sets (mod_ : ref) ssr g x :
  same_sets_except mod_ g (add_accepted mod_ ssr g x).
Proof.
  intros m Hm. unfold add_accepted.
  pose proof (entry_node_sets g x ssr m) as Hs.
  destruct (entry_node g x ssr) as [dep g1]. simpl in *.
  by rewrite node_alter_ne.
Qed.

(** Everything that [updateModuleInfo] establishes, for a live [mod_]. *)
Lemma updateModuleInfo_post g (mod_ : ref)
    (I A : list (string + ref)) (s ssr : bool) :
  mod_ < length (arena g) →
  let prev := ModuleNode.importedModules (node (arena g) mod_) in
  let ret := (updateModuleInfo g mod_ I A s ssr).1 in
  let g' := (updateModuleInfo g mod_ I A s ssr).2 in
  let m' := node (arena g') mod_ in
  (∀ r, r ∈ ModuleNode.importedModules m' ↔ ∃ x, x ∈ I ∧ denotes g' ssr x r) ∧
  (∀ r, r ∈ ModuleNode.acceptedHmrDeps m' ↔ ∃ x, x ∈ A ∧ denotes g' ssr x r) ∧
  ModuleNode.isSelfAccepting m' = s ∧
  same_sets_except mod_ g g' ∧
  ((∀ d, d ∈ prev → d < length (arena g)) →
   (∀ d, d ∈ prev → d ∉ ModuleNode.importedModules m' →
         mod_ ∉ ModuleNode.importers (node (arena g') d)) ∧
   match ret with
   | None =>
       ∀ d, d ∈ prev → d ∉ ModuleNode.importedModules m' →
            ModuleNode.importers (node (arena g') d) ≠ []
   | Some l =>
       l ≠ [] ∧
       ∀ d, d ∈ l ↔
            d ∈ prev ∧ (d ∉ ModuleNode.importedModules m') ∧
            ModuleNode.importers (node (arena g') d) = []
   end).
Proof.
  intros Hm. cbv zeta. unfold updateModuleInfo.
  set (a0 := alter (ModuleNode.set_isSelfAccepting s) mod_ (arena g)).
  assert (ModuleNode.importedModules (node a0 mod_)
          = ModuleNode.importedModules (node (arena g) mod_)) as ->
    by (by apply node_alter_field).
  set (prev := ModuleNode.importedModules (node (arena g) mod_)) in *.
  set (G0 := with_arena g (alter (ModuleNode.set_importedModules []) mod_ a0)).
  assert (length (arena G0) = length (arena g)) as L0
    by (subst G0 a0; simpl; by rewrite !length_alter).
  assert (mod_ < length (arena G0)) as Hm0 by lia.
  assert (same_sets_except mod_ g G0) as S0.
  { intros m Hne. subst G0 a0. simpl. by rewrite !node_alter_ne. }
  (* first loop *)
  pose proof (collect_foldl ModuleNode.importedModules (add_import mod_ ssr)
                mod_ ssr (add_import_step mod_ ssr) I G0 Hm0) as (E1 & In1 & All1).
  pose proof (keeps_foldl ModuleNode.isSelfAccepting (add_import mod_ ssr) mod_
                (λ g x _, add_import_keeps mod_ ssr g x) I G0 Hm0) as [_ K1].
  pose proof (same_sets_except_foldl (add_import mod_ ssr) mod_
                (add_import_sets mod_ ssr) I G0) as S1.
  cbv zeta in *.
  set (g1 := foldl (add_import mod_ ssr) G0 I) in *.
  assert (ModuleNode.importedModules (node (arena G0) mod_) = []) as Himp0.
  { subst G0. simpl. rewrite node_alter_eq; [done|].
    subst a0. by rewrite length_alter. }
  assert (ModuleNode.isSelfAccepting (node (arena G0) mod_) = s) as Hself0.
  { subst G0. simpl.
    rewrite (node_alter_field ModuleNode.isSelfAccepting) by done.
    subst a0. by rewrite node_alter_eq. }
  (* second loop *)
  pose proof (drop_import_foldl mod_ prev (arena g1) None)
    as (L2 & P2 & I2 & O2 & N2).
  cbv zeta in *.
  destruct (foldl (drop_import mod_) (arena g1, None) prev) as [a2 nli].
  simpl in L2, P2, I2, O2, N2.
  (* third loop *)
  set (G2 := with_arena g1 (alter (ModuleNode.set_acceptedHmrDeps []) mod_ a2)).
  assert (length (arena G2) = length (arena g1)) as LG2
    by (subst G2; simpl; by rewrite length_alter).
  assert (length (arena g) ≤ length (arena g1)) as L01
    by (destruct E1; lia).
  assert (mod_ < length (arena G2)) as Hm2 by lia.
  assert (same_sets_except mod_ g1 G2) as S2.
  { intros m Hne. subst G2. simpl. rewrite node_alter_ne by done.
    apply (P2 _ sets_of). intros; reflexivity. }
  pose proof (collect_foldl ModuleNode.acceptedHmrDeps (add_accepted mod_ ssr)
                mod_ ssr (add_accepted_step mod_ ssr) A G2 Hm2) as (E3 & In3 & _).
  pose proof (keeps_foldl links (add_accepted mod_ ssr) mod_
                (λ g x _, add_accepted_keeps mod_ ssr g x) A G2 Hm2) as [_ K3].
  pose proof (same_sets_except_foldl (add_accepted mod_ ssr) mod_
                (add_accepted_sets mod_ ssr) A G2) as S3.
  cbv zeta in *.
  set (gF := foldl (add_accepted mod_ ssr) G2 A) in *.
  simpl.
  assert (extends g1 gF) as E13.
  { eapply extends_trans; [|exact E3]. subst G2. apply with_arena_extends.
    rewrite length_alter. lia. }
  (* the old objects after the last two loops *)
  assert (∀ d, d < length (arena g1) →
            ModuleNode.importers (node (arena gF) d)
            = ModuleNode.importers (node a2 d)) as HimpF.
  { intros d Hd. specialize (K3 d). rewrite LG2 in K3. specialize (K3 Hd).
    injection K3 as K3 _ _. rewrite K3. subst G2. simpl.
    by apply node_alter_field. }
  assert (ModuleNode.importedModules (node (arena gF) mod_)
          = ModuleNode.importedModules (node (arena g1) mod_)) as HnextF.
  { specialize (K3 mod_ Hm2). injection K3 as _ K3 _. rewrite K3.
    subst G2. simpl.
    rewrite (node_alter_field ModuleNode.importedModules) by done.
    apply (P2 _ ModuleNode.importedModules). intros; reflexivity. }
  rewrite HnextF.
  split_and!.
  - intros r. rewrite In1, Himp0. split.
    + intros [[]%elem_of_nil|(x & Hx & D)]. exists x. split; [done|].
      by eapply denotes_extends.
    + intros (x & Hx & D). right. exists x. split; [done|].
      destruct (All1 x Hx) as [r0 D0].
      assert (r = r0) as ->; [|done].
      eapply denotes_functional; [exact D|]. by eapply denotes_extends.
  - intros r. rewrite In3.
    assert (ModuleNode.acceptedHmrDeps (node (arena G2) mod_) = []) as ->.
    { subst G2. simpl. rewrite node_alter_eq; [done|]. lia. }
    split; [intros [[]%elem_of_nil|?]; done|by right].
  - specialize (K3 mod_ Hm2). injection K3 as _ _ K3. rewrite K3.
    subst G2. simpl.
    rewrite (node_alter_field ModuleNode.isSelfAccepting) by done.
    rewrite (P2 _ ModuleNode.isSelfAccepting) by (intros; reflexivity).
    rewrite K1 by done. done.
  - repeat (eapply same_sets_except_trans; [eassumption|]). done.
  - intros Hprev.
    assert (∀ d, d ∈ prev →
              d ∉ ModuleNode.importedModules (node (arena g1) mod_) →
              ModuleNode.importers (node (arena gF) d)
              = gone_importers mod_ (arena g1) d) as Hgone.
    { intros d Hd Hn. rewrite HimpF by (specialize (Hprev d Hd); lia).
      rewrite I2. by rewrite decide_True. }
    split.
    + intros d Hd Hn. rewrite Hgone by done.
      unfold gone_importers. rewrite JsSet.elem_of_delete. tauto.
    + destruct nli as [l|]; simpl in N2.
      * split; [by apply O2|]. intros d. rewrite N2. split.
        -- intros [[]%elem_of_nil|(?&?&?)]. split_and!; [done..|].
           by rewrite Hgone.
        -- intros (?&?&Hi). right. split_and!; [done..|]. by rewrite <- Hgone.
      * intros d Hd Hn Hi. apply (elem_of_nil d). apply N2. right.
        split_and!; [done..|]. by rewrite <- Hgone.
Qed.

(** The sets that the two loops of [updateModuleInfo] build, with every
    entry read in [g]. *)
Definition nodes_of g (ssr : bool) (xs : list (string + ref)) (s : list ref)
  : list ref :=
  foldl (λ s x, JsSet.add s (entry_node g x ssr).1) s xs.

Lemma entry_node_known g ssr x (r : ref) :
  denotes g ssr x r → entry_node g x ssr = (r, g).
Proof.
  destruct x as [u|d]; cbn [entry_node denotes]; [|by intros ->].
  unfold ensureEntryFromUrl.
  destruct (resolveUrl g u ssr) as [[url rid] meta]. cbn [fst].
  by intros ->.
Qed.

Lemma denotes_with_arena g a ssr x (r : ref) :
  denotes g ssr x r → denotes (with_arena g a) ssr x r.
Proof.
  destruct x as [u|d]; cbn [denotes]; [|done].
  by rewrite (resolveUrl_with_resolveId g (with_arena g a) u ssr).
Qed.

(** A loop that adds the node of each entry to the set [F] of [mod_]
    builds that set in the order of the entries. *)
Lemma collect_foldl_exact (F : ModuleNode.t Ext → list ref)
    (step : ModuleGraph Ext → string + ref → ModuleGraph Ext)
    (mod_ : ref) (ssr : bool) :
  (∀ g x, mod_ < length (arena g) →
     ∃ dep, extends g (step g x) ∧ denotes (step g x) ssr x dep ∧
       F (node (arena (step g x)) mod_) = JsSet.add (F (node (arena g) mod_)) dep) →
  ∀ xs g gf, mod_ < length (arena g) → extends (foldl step g xs) gf →
    F (node (arena (foldl step g xs)) mod_)
    = nodes_of gf ssr xs (F (node (arena g) mod_)) ∧
    (∀ x, x ∈ xs → ∃ r, denotes gf ssr x r).
Proof.
  intros Hstep xs. induction xs as [|x xs IH]; intros g gf Hm E; cbn [foldl] in *.
  - split; [done|]. intros x Hx. by apply elem_of_nil in Hx.
  - destruct (Hstep g x Hm) as (dep & E1 & D & HF).
    assert (mod_ < length (arena (step g x))) as Hm' by (destruct E1; lia).
    destruct (IH _ gf Hm' E) as (-> & Hall).
    assert (extends (step g x) (foldl step (step g x) xs)) as E2.
    { clear -Hstep Hm'. revert Hm'. generalize (step g x) as g0.
      induction xs as [|y ys IH]; intros g0 Hm0; cbn [foldl];
        [apply extends_refl|].
      destruct (Hstep g0 y Hm0) as (? & E0 & _).
      eapply extends_trans; [exact E0|]. apply IH. destruct E0. lia. }
    assert (denotes gf ssr x dep) as Df.
    { eapply denotes_extends; [exact E|]. by eapply denotes_extends. }
    split.
    + unfold nodes_of. cbn [foldl]. by rewrite (entry_node_known gf ssr x dep Df), HF.
    + intros x' [->|Hx']%elem_of_cons; [by exists dep|by apply Hall].
Qed.

Lemma add_import_exact (mod_ : ref) ssr g x :
  mod_ < length (arena g) →
  ∃ dep, extends g (add_import mod_ ssr g x) ∧
    denotes (add_import mod_ ssr g x) ssr x dep ∧
    ModuleNode.importedModules (node (arena (add_import mod_ ssr g x)) mod_)
    = JsSet.add (ModuleNode.importedModules (node (arena g) mod_)) dep.
Proof.
  intros Hm. unfold add_import.
  pose proof (entry_node_spec g x ssr) as (E & D & Fr). cbv zeta in *.
  destruct (entry_node g x ssr) as [dep g1]. cbn [fst snd] in *.
  exists dep. destruct E as [L R U]. split_and!.
  - split; cbn [arena with_arena]; [|done..]. rewrite !length_alter. lia.
  - by apply denotes_with_arena.
  - cbn [arena with_arena].
    rewrite node_alter_eq by (rewrite length_alter; lia).
    cbn [ModuleNode.importedModules ModuleNode.set_importedModules].
    rewrite (node_alter_field ModuleNode.importedModules) by done.
    by rewrite Fr.
Qed.

Lemma add_accepted_exact (mod_ : ref) ssr g x :
  mod_ < length (arena g) →
  ∃ dep, extends g (add_accepted mod_ ssr g x) ∧
    denotes (add_accepted mod_ ssr g x) ssr x dep ∧
    ModuleNode.acceptedHmrDeps (node (arena (add_accepted mod_ ssr g x)) mod_)
    = JsSet.add (ModuleNode.acceptedHmrDeps (node (arena g) mod_)) dep.
Proof.
  intros Hm. unfold add_accepted.
  pose proof (entry_node_spec g x ssr) as (E & D & Fr). cbv zeta in *.
  destruct (entry_node g x ssr) as [dep g1]. cbn [fst snd] in *.
  exists dep. destruct E as [L R U]. split_and!.
  - split; cbn [arena with_arena]; [|done..]. rewrite !length_alter. lia.
  - by apply denotes_with_arena.
  - cbn [arena with_arena]. rewrite node_alter_eq by lia.
    cbn [ModuleNode.acceptedHmrDeps ModuleNode.set_acceptedHmrDeps].
    by rewrite Fr.
Qed.

Lemma elem_of_nodes_of g ssr xs : ∀ (s : list ref) (r : ref),
  r ∈ nodes_of g ssr xs s ↔ r ∈ s ∨ ∃ x, x ∈ xs ∧ (entry_node g x ssr).1 = r.
Proof.
  unfold nodes_of. induction xs as [|x xs IH]; intros s r; cbn [foldl].
  - split; [by left|]. intros [?|(x & Hx & _)]; [done|].
    by apply elem_of_nil in Hx.
  - rewrite IH, JsSet.elem_of_add. split.
    + intros [[?| ->]|(x' & Hx' & E)]; [by left| |].
      * right. exists x. split; [left|done].
      * right. exists x'. split; [by right|done].
    + intros [?|(x' & [->|Hx']%elem_of_cons & E)]; [by left; left| |].
      * left. by right.
      * right. by exists x'.
Qed.

(** What the call establishes, with the order of the two sets. *)
Lemma updateModuleInfo_exact g (mod_ : ref) (I A : list (string + ref)) (s ssr : bool) :
  mod_ < length (arena g) →
  let g' := (updateModuleInfo g mod_ I A s ssr).2 in
  ModuleNode.importedModules (node (arena g') mod_) = nodes_of g' ssr I [] ∧
  ModuleNode.acceptedHmrDeps (node (arena g') mod_) = nodes_of g' ssr A [] ∧
  (∀ x, x ∈ I ++ A → ∃ r, denotes g' ssr x r) ∧
  extends g g'.
Proof.
  intros Hm. cbv zeta. unfold updateModuleInfo.
  set (a0 := alter (ModuleNode.set_isSelfAccepting s) mod_ (arena g)).
  set (prev := ModuleNode.importedModules (node a0 mod_)).
  set (G0 := with_arena g (alter (ModuleNode.set_importedModules []) mod_ a0)).
  assert (length (arena G0) = length (arena g)) as L0
    by (subst G0 a0; cbn [arena with_arena]; by rewrite !length_alter).
  assert (mod_ < length (arena G0)) as Hm0 by lia.
  pose proof (keeps_foldl ModuleNode.isSelfAccepting (add_import mod_ ssr) mod_
                (λ g x _, add_import_keeps mod_ ssr g x) I G0 Hm0) as [E1 _].
  set (g1 := foldl (add_import mod_ ssr) G0 I) in *.
  assert (ModuleNode.importedModules (node (arena G0) mod_) = []) as Himp0.
  { subst G0. cbn [arena with_arena]. rewrite node_alter_eq; [done|].
    subst a0. by rewrite length_alter. }
  pose proof (drop_import_foldl mod_ prev (arena g1) None) as (L2 & P2 & _).
  cbv zeta in *.
  destruct (foldl (drop_import mod_) (arena g1, None) prev) as [a2 nli].
  cbn [fst snd] in L2, P2.
  set (G2 := with_arena g1 (alter (ModuleNode.set_acceptedHmrDeps []) mod_ a2)).
  assert (length (arena G2) = length (arena g1)) as LG2
    by (subst G2; cbn [arena with_arena]; by rewrite length_alter).
  assert (length (arena g) ≤ length (arena g1)) as L01 by (destruct E1; lia).
  assert (mod_ < length (arena G2)) as Hm2 by lia.
  assert (extends g1 G2) as E12
    by (apply with_arena_extends; rewrite length_alter; lia).
  pose proof (keeps_foldl links (add_accepted mod_ ssr) mod_
                (λ g x _, add_accepted_keeps mod_ ssr g x) A G2 Hm2) as [E23 K3].
  set (g3 := foldl (add_accepted mod_ ssr) G2 A) in *.
  cbn [snd].
  destruct (collect_foldl_exact ModuleNode.importedModules (add_import mod_ ssr)
              mod_ ssr (add_import_exact mod_ ssr) I G0 g3 Hm0
              (extends_trans _ _ _ E12 E23)) as (X1 & All1).
  fold g1 in X1. rewrite Himp0 in X1.
  destruct (collect_foldl_exact ModuleNode.acceptedHmrDeps (add_accepted mod_ ssr)
              mod_ ssr (add_accepted_exact mod_ ssr) A G2 g3 Hm2
              (extends_refl _)) as (X3 & All3).
  fold g3 in X3.
  split_and!.
  - rewrite <- X1. specialize (K3 mod_ Hm2). unfold links in K3.
    assert (ModuleNode.importedModules (node (arena g3) mod_)
            = ModuleNode.importedModules (node (arena G2) mod_)) as ->
      by congruence.
    subst G2. cbn [arena with_arena].
    rewrite (node_alter_field ModuleNode.importedModules) by done.
    by apply P2.
  - rewrite X3. f_equal. subst G2. cbn [arena with_arena].
    by rewrite node_alter_eq by lia.
  - intros x [Hx|Hx]%elem_of_app; [by apply All1|by apply All3].
  - eapply extends_trans; [|eapply extends_trans; [exact E1|]].
    + subst G0. apply with_arena_extends. subst a0. by rewrite !length_alter.
    + by eapply extends_trans.
Qed.

(** *** When a resolve rejects *)

(** No resolve awaited for [xs], read from place [i] on, rejects. *)
Definition resolves (rejects : nat → bool) (i : nat) (xs : list (string + ref))
  : Prop :=
  ∀ j u, xs !! j = Some (inl u) → rejects (i + j) = false.

Lemma resolves_cons rejects i x xs :
  resolves rejects i (x :: xs) →
  Rejecting.awaits_resolve x && rejects i = false ∧ resolves rejects (S i) xs.
Proof.
  intros Hr. split.
  - destruct x as [u|d]; [|done]. cbn.
    specialize (Hr 0 u eq_refl). by rewrite Nat.add_0_r in Hr.
  - intros j u Hj. specialize (Hr (S j) u Hj).
    by replace (i + S j) with (S i + j) in Hr by lia.
Qed.

Lemma resolves_app rejects i xs ys :
  resolves rejects i (xs ++ ys) →
  resolves rejects i xs ∧ resolves rejects (i + length xs) ys.
Proof.
  intros Hr. split.
  - intros j u Hj. apply (Hr j u). by apply lookup_app_l_Some.
  - intros j u Hj. rewrite <- Nat.add_assoc. apply (Hr (length xs + j) u).
    by rewrite lookup_app_r, Nat.add_comm, Nat.add_sub by lia.
Qed.

(** A loop in which nothing rejects is the loop of the operation above. *)
Lemma loop_resolves (step : ModuleGraph Ext → string + ref → ModuleGraph Ext)
    rejects xs : ∀ i g,
  resolves rejects i xs →
  Rejecting.loop step rejects i g xs = (true, foldl step g xs).
Proof.
  induction xs as [|x xs IH]; intros i g Hr; cbn [Rejecting.loop foldl]; [done|].
  apply resolves_cons in Hr as [-> Hr]. by apply IH.
Qed.

(** Otherwise it has run over the entries before the first one whose
    resolve rejects. *)
Lemma loop_prefix (step : ModuleGraph Ext → string + ref → ModuleGraph Ext)
    rejects xs : ∀ i g,
  ∃ k, k ≤ length xs ∧
    Rejecting.loop step rejects i g xs
    = (bool_decide (k = length xs), foldl step g (take k xs)) ∧
    resolves rejects i (take k xs) ∧
    (k < length xs → ∃ u, xs !! k = Some (inl u) ∧ rejects (i + k) = true).
Proof.
  induction xs as [|x xs IH]; intros i g; cbn [Rejecting.loop].
  - exists 0. split_and!; [done|done| |cbn; lia].
    intros j u Hj. cbn in Hj. by rewrite lookup_nil in Hj.
  - destruct (Rejecting.awaits_resolve x && rejects i) eqn:E.
    + exists 0. split_and!; [cbn; lia|done| |].
      * intros j u Hj. cbn in Hj. by rewrite lookup_nil in Hj.
      * intros _. apply andb_true_iff in E as [Ex Er].
        destruct x as [u|d]; [|done]. exists u.
        by rewrite Nat.add_0_r.
    + destruct (IH (S i) (step g x)) as (k & Hk & -> & Hres & Hrej).
      exists (S k). split_and!; [cbn; lia| | |].
      * cbn [take foldl length]. f_equal.
        destruct (decide (k = length xs)) as [->|Hne].
        -- by rewrite !bool_decide_eq_true_2.
        -- rewrite !bool_decide_eq_false_2; [done|lia|done].
      * intros [|j] u Hj; cbn in Hj.
        -- injection Hj as ->. cbn in E. by rewrite Nat.add_0_r.
        -- replace (i + S j) with (S i + j) by lia. by apply (Hres j u).
      * cbn [length]. intros Hlt. destruct Hrej as (u & Hu & Hr); [lia|].
        exists u. split; [done|]. by replace (i + S k) with (S i + k) by lia.
Qed.

(** A call in which no resolve rejects is the call of the operation
    above. *)
Lemma updateModuleInfo_settled rejects g (mod_ : ref)
    (I A : list (string + ref)) (s ssr : bool) :
  resolves rejects 0 (I ++ A) →
  Rejecting.updateModuleInfo rejects g mod_ I A s ssr
  = (Rejecting.Returned (updateModuleInfo g mod_ I A s ssr).1,
     (updateModuleInfo g mod_ I A s ssr).2).
Proof.
  intros [Hi Ha]%resolves_app.
  unfold Rejecting.updateModuleInfo, updateModuleInfo.
  rewrite loop_resolves by done. cbn [negb].
  destruct (foldl (drop_import mod_) _ _) as [a2 nli].
  by rewrite loop_resolves by done.
Qed.

(** The three ways in which a call ends: rejected in the first loop, with
    [importedModules] holding the entries read so far and everything else
    as it was; rejected in the last loop, as a completed call with the
    accepted entries read so far; or completed. *)
Lemma updateModuleInfo_cases rejects g (mod_ : ref)
    (I A : list (string + ref)) (s ssr : bool) :
  let R := Rejecting.updateModuleInfo rejects g mod_ I A s ssr in
  let G0 :=
    with_arena g
      (alter (ModuleNode.set_importedModules []) mod_
         (alter (ModuleNode.set_isSelfAccepting s) mod_ (arena g))) in
  (∃ k, k < length I ∧ (¬ resolves rejects 0 I) ∧
        R = (Rejecting.Threw, foldl (add_import mod_ ssr) G0 (take k I))) ∨
  (∃ k, k < length A ∧ resolves rejects 0 I ∧
        R = (Rejecting.Threw, (updateModuleInfo g mod_ I (take k A) s ssr).2)) ∨
  (resolves rejects 0 (I ++ A) ∧
   R = (Rejecting.Returned (updateModuleInfo g mod_ I A s ssr).1,
        (updateModuleInfo g mod_ I A s ssr).2)).
Proof.
  cbv zeta. unfold Rejecting.updateModuleInfo, updateModuleInfo.
  destruct (loop_prefix (add_import mod_ ssr) rejects I 0
              (with_arena g
                 (alter (ModuleNode.set_importedModules []) mod_
                    (alter (ModuleNode.set_isSelfAccepting s) mod_ (arena g)))))
    as (k & Hk & -> & Hres & Hrej).
  destruct (decide (k = length I)) as [->|Hne].
  2:{ left. exists k. rewrite bool_decide_eq_false_2 by done.
      split_and!; [lia| |done].
      destruct Hrej as (u & Hu & Hr); [lia|].
      intros Hall. specialize (Hall k u Hu). congruence. }
  rewrite bool_decide_eq_true_2 by done. rewrite firstn_all in *. cbn [negb].
  destruct (foldl (drop_import mod_) _ _) as [a2 nli].
  match goal with
  | |- context [Rejecting.loop ?st rejects (length I) ?G A] =>
      destruct (loop_prefix st rejects A (length I) G)
        as (j & Hj & -> & Hres' & _)
  end.
  destruct (decide (j = length A)) as [->|Hne].
  - right; right. rewrite bool_decide_eq_true_2 by done.
    rewrite firstn_all in *. cbn [negb]. split; [|done].
    intros i u [Hi|[Hlen Hi]]%lookup_app_Some.
    + by apply (Hres i u).
    + specialize (Hres' (i - length I) u Hi).
      by replace (length I + (i - length I)) with i in Hres' by lia.
  - right; left. exists j. rewrite bool_decide_eq_false_2 by done.
    cbn [negb]. split_and!; [lia|done|done].
Qed.

Lemma NoDup_nodes_of g ssr xs : ∀ (s : list ref),
  NoDup s → NoDup (nodes_of g ssr xs s).
Proof.
  unfold nodes_of. induction xs as [|x xs IH]; intros s Hs; cbn [foldl]; [done|].
  apply IH. by apply JsSet.NoDup_add.
Qed.

(** C3.  After [updateModuleInfo(m, I, A, s)]: every entry of [I] and of
    [A] stands for a node of the graph, a url for the node indexed under
    its resolved url; [m.importedModules] is the set of the nodes of [I],
    [m.acceptedHmrDeps] the set of the nodes of [A], each node once;
    [m.isSelfAccepting] is [s]; every module that [m] imported before and
    that is not in the new import set no longer has [m] among its
    importers; and the result is the set of exactly those dropped modules
    whose importers set is now empty, [undefined] ([None]) when there is
    none.  [m] and its previous imports are live objects. *)
Theorem updateModuleInfo_spec g (mod_ : ref)
    (I A : list (string + ref)) (s ssr : bool) :
  mod_ < length (arena g) →
  (∀ d, d ∈ ModuleNode.importedModules (node (arena g) mod_) →
        d < length (arena g)) →
  let prev := ModuleNode.importedModules (node (arena g) mod_) in
  let ret := (updateModuleInfo g mod_ I A s ssr).1 in
  let g' := (updateModuleInfo g mod_ I A s ssr).2 in
  let m' := node (arena g') mod_ in
  (∀ x, x ∈ I ++ A → ∃ r, denotes g' ssr x r) ∧
  (∀ r, r ∈ ModuleNode.importedModules m' ↔ ∃ x, x ∈ I ∧ denotes g' ssr x r) ∧
  (∀ r, r ∈ ModuleNode.acceptedHmrDeps m' ↔ ∃ x, x ∈ A ∧ denotes g' ssr x r) ∧
  NoDup (ModuleNode.importedModules m') ∧
  NoDup (ModuleNode.acceptedHmrDeps m') ∧
  ModuleNode.isSelfAccepting m' = s ∧
  (∀ d, d ∈ prev → d ∉ ModuleNode.importedModules m' →
        mod_ ∉ ModuleNode.importers (node (arena g') d)) ∧
  match ret with
  | None =>
      ∀ d, d ∈ prev → d ∉ ModuleNode.importedModules m' →
           ModuleNode.importers (node (arena g') d) ≠ []
  | Some l =>
      l ≠ [] ∧
      ∀ d, d ∈ l ↔
           d ∈ prev ∧ (d ∉ ModuleNode.importedModules m') ∧
           ModuleNode.importers (node (arena g') d) = []
  end.
Proof.
  intros Hm Hprev.
  pose proof (updateModuleInfo_post g mod_ I A s ssr Hm) as (Hi & Ha & Hs & _ & Hd).
  pose proof (updateModuleInfo_exact g mod_ I A s ssr Hm) as (Xi & Xa & Hall & _).
  cbv zeta in *. destruct (Hd Hprev) as [Hd1 Hd2].
  split_and!; [done..| | |done|done|done].
  - rewrite Xi. apply NoDup_nodes_of, NoDup_nil_2.
  - rewrite Xa. apply NoDup_nodes_of, NoDup_nil_2.
Qed.

End UpdateModuleInfo.

(** ** The SSR invalidation walk returns *)

Section InvalidateTotal.
Context {Ext : Type} `{Utils}.
Implicit Type a : Arena Ext.

(** The live objects that a walk has not visited yet. *)
Definition unseen (len : nat) (seen : list ref) : list ref :=
  filter (λ r, r ∉ seen) (seq 0 len).

Lemma unseen_add len (seen : list ref) (r : ref) :
  r ∉ seen →
  unseen len (JsSet.add seen r) = filter (λ x, x ≠ r) (unseen len seen).
Proof.
  intros Hr. unfold unseen. rewrite list_filter_filter.
  apply list_filter_iff. intros x. rewrite JsSet.elem_of_add. tauto.
Qed.

Lemma unseen_add_le len (seen : list ref) (r : ref) :
  r ∉ seen → length (unseen len (JsSet.add seen r)) ≤ length (unseen len seen).
Proof. intros Hr. rewrite unseen_add by done. apply length_filter. Qed.

Lemma unseen_add_lt len (seen : list ref) (r : ref) :
  r ∉ seen → r < len →
  length (unseen len (JsSet.add seen r)) < length (unseen len seen).
Proof.
  intros Hr Hlen. rewrite unseen_add by done.
  apply (length_filter_lt _ _ r); [|by intros ?].
  unfold unseen. apply list_elem_of_filter. split; [done|].
  apply elem_of_seq. lia.
Qed.

Lemma unseen_le_len len (seen : list ref) : length (unseen len seen) ≤ len.
Proof.
  unfold unseen. etrans; [apply length_filter|]. by rewrite length_seq.
Qed.

(** What an SSR invalidation leaves alone: every field but [ssrModule]. *)
Definition ssr_frame a a' : Prop :=
  length a' = length a ∧
  ∀ X (proj : ModuleNode.t Ext → X),
    (∀ v n, proj (ModuleNode.set_ssrModule v n) = proj n) →
    ∀ d, proj (node a' d) = proj (node a d).

Lemma ssr_frame_refl a : ssr_frame a a.
Proof. by split. Qed.

Lemma ssr_frame_trans a1 a2 a3 :
  ssr_frame a1 a2 → ssr_frame a2 a3 → ssr_frame a1 a3.
Proof.
  intros [L1 P1] [L2 P2]. split; [congruence|].
  intros X proj Hp d. by rewrite P2, P1.
Qed.

Lemma invalidateSSRModule_fuel_total (fuel : nat) : ∀ a (mod_ : ref) seen,
  length (unseen (length a) seen) < fuel →
  ∃ a' seen',
    invalidateSSRModule_fuel fuel a mod_ seen = Some (a', seen') ∧
    ssr_frame a a' ∧
    length (unseen (length a) seen') ≤ length (unseen (length a) seen).
Proof.
  induction fuel as [|fuel IH]; intros a mod_ seen Hfuel; [lia|].
  cbn [invalidateSSRModule_fuel].
  destruct (JsSet.has seen mod_) eqn:Hseen.
  { exists a, seen. split_and!; [done|apply ssr_frame_refl|done]. }
  apply JsSet.has_false in Hseen.
  set (a1 := alter (ModuleNode.set_ssrModule None) mod_ a).
  assert (ssr_frame a a1) as F1.
  { split; [apply length_alter|]. intros X proj Hp d.
    apply node_alter_field. intros n. apply Hp. }
  destruct (decide (mod_ < length a)) as [Hlive|Hdead].
  - pose proof (unseen_add_lt (length a) seen mod_ Hseen Hlive) as Hlt.
    generalize (ModuleNode.importers (node a1 mod_)). intros imps.
    assert (length (unseen (length a) (JsSet.add seen mod_)) < fuel) as Hf by lia.
    assert (length (unseen (length a) (JsSet.add seen mod_))
            ≤ length (unseen (length a) seen)) as Hle by lia.
    clear Hlt. revert Hf Hle F1.
    generalize (JsSet.add seen mod_) as seen1. generalize a1 as a2. clear a1.
    induction imps as [|i imps IHi]; intros a2 seen1 Hf Hle F1; simpl.
    + by exists a2, seen1.
    + destruct F1 as [L1 P1].
      destruct (IH a2 i seen1) as (a3 & seen3 & -> & F3 & Hle3);
        [rewrite L1; lia|].
      destruct F3 as [L3 P3]. rewrite L1 in Hle3.
      apply IHi; [lia..|].
      eapply ssr_frame_trans; by split.
  - assert (ModuleNode.importers (node a1 mod_) = []) as ->.
    { unfold a1. rewrite (node_alter_field ModuleNode.importers) by done.
      by apply importers_dangling. }
    simpl. exists a1, (JsSet.add seen mod_). split_and!; [done..|].
    by apply unseen_add_le.
Qed.

Lemma invalidateModule_total a (mod_ : ref) seen :
  let a0 :=
    alter (ModuleNode.set_ssrTransformResult None) mod_
      (alter (ModuleNode.set_transformResult None) mod_
         (alter (ModuleNode.set_info None) mod_ a)) in
  ∃ a' seen', invalidateModule a mod_ seen = Some (a', seen') ∧ ssr_frame a0 a'.
Proof.
  cbv zeta. unfold invalidateModule, invalidateSSRModule.
  edestruct invalidateSSRModule_fuel_total as (a' & seen' & -> & F & _);
    [|by exists a', seen'].
  pose proof (unseen_le_len (length
    (alter (ModuleNode.set_ssrTransformResult None) mod_
      (alter (ModuleNode.set_transformResult None) mod_
         (alter (ModuleNode.set_info None) mod_ a)))) seen). lia.
Qed.

End InvalidateTotal.

(** ** The operations of the graph as a trace *)

Section GraphTraces.
Context {Ext : Type} `{Utils}.
Implicit Type g : ModuleGraph Ext.
Implicit Type a : Arena Ext.

Inductive GraphOp :=
| OpEnsureEntryFromUrl (rawUrl : string) (ssr : bool)
| OpUpdateModuleInfo (mod_ : ref) (importedModules acceptedModules : list (string + ref))
                     (isSelfAccepting ssr : bool)
| OpOnFileChange (file : string)
| OpInvalidateAll
| OpCreateFileOnlyEntry (file : string).

Definition run_op g (o : GraphOp) : option (ModuleGraph Ext) :=
  match o with
  | OpEnsureEntryFromUrl rawUrl ssr => Some (ensureEntryFromUrl g rawUrl ssr).2
  | OpUpdateModuleInfo mod_ imported accepted isSelfAccepting ssr =>
      Some (updateModuleInfo g mod_ imported accepted isSelfAccepting ssr).2
  | OpOnFileChange file => onFileChange g file
  | OpInvalidateAll => invalidateAll g
  | OpCreateFileOnlyEntry file => Some (createFileOnlyEntry g file).2
  end.

Definition run_ops g (ops : list GraphOp) : option (ModuleGraph Ext) :=
  foldM run_op g ops.

(** A call of a trace together with the resolves that reject in it:
    [call_rejects c i] for the entry in place [i] of an
    [updateModuleInfo], [call_rejects c 0] for the url of an
    [ensureEntryFromUrl]. *)
Record Call := mkCall {
  call_op : GraphOp;
  call_rejects : nat → bool
}.

Definition run_call g (c : Call) : option (ModuleGraph Ext) :=
  match call_op c with
  | OpEnsureEntryFromUrl rawUrl ssr =>
      Some (Rejecting.ensureEntryFromUrl (call_rejects c 0) g rawUrl ssr).2
  | OpUpdateModuleInfo mod_ imported accepted isSelfAccepting ssr =>
      Some (Rejecting.updateModuleInfo (call_rejects c) g mod_ imported accepted
              isSelfAccepting ssr).2
  | o => run_op g o
  end.

Definition run_calls g (cs : list Call) : option (ModuleGraph Ext) :=
  foldM run_call g cs.

(** [new ModuleGraph(resolveId)] *)
Definition new_graph (resolve : string → bool → option (PartialResolvedId Ext))
  : ModuleGraph Ext :=
  mkGraph [] ∅ [] ∅ [] resolve.

(** Invariant 3 of the data model:
    [m.acceptedHmrDeps ⊆ m.importedModules ∪ {m}] for every node. *)
Definition accepted_within_imports g : Prop :=
  ∀ m d, d ∈ ModuleNode.acceptedHmrDeps (node (arena g) m) →
         d ∈ ModuleNode.importedModules (node (arena g) m) ∨ d = m.

(** The module handed to [updateModuleInfo] is an object of the graph. *)
Definition op_live g (o : GraphOp) : Prop :=
  match o with
  | OpUpdateModuleInfo mod_ _ _ _ _ => mod_ < length (arena g)
  | _ => True
  end.

(** The caller's side of the invariant: what a module accepts, it also
    lists among its imports, unless it is the module itself.  The entries
    are compared as modules: an entry stands for its node in the graph
    that the call leaves, where every url has one, so a module may be
    named by its node in one set and by a url in the other. *)
Definition accepts_imported g (o : GraphOp) : Prop :=
  match o with
  | OpUpdateModuleInfo mod_ imported accepted isSelfAccepting ssr =>
      let g' := (updateModuleInfo g mod_ imported accepted isSelfAccepting ssr).2 in
      ∀ x r, x ∈ accepted → denotes g' ssr x r →
             r = mod_ ∨ ∃ y, y ∈ imported ∧ denotes g' ssr y r
  | _ => True
  end.

(** Every resolve that an [updateModuleInfo] awaits is fulfilled. *)
Definition update_completes (c : Call) : Prop :=
  match call_op c with
  | OpUpdateModuleInfo _ imported accepted _ _ =>
      resolves (call_rejects c) 0 (imported ++ accepted)
  | _ => True
  end.

Fixpoint calls_ok (P : ModuleGraph Ext → Call → Prop) g (cs : list Call) : Prop :=
  match cs with
  | [] => True
  | c :: cs' => P g c ∧ ∀ g', run_call g c = Some g' → calls_ok P g' cs'
  end.

(** What C7 asks of a call. *)
Definition accepting_call g (c : Call) : Prop :=
  op_live g (call_op c) ∧ update_completes c ∧ accepts_imported g (call_op c).

(** Entries that are literally among the imports, or the module itself,
    are so as modules. *)
Lemma accepts_imported_listed g (mod_ : ref) (I A : list (string + ref))
    (s ssr : bool) :
  (∀ x, x ∈ A → x ∈ I ∨ x = inr mod_) →
  accepts_imported g (OpUpdateModuleInfo mod_ I A s ssr).
Proof.
  intros Hl x r Hx D. destruct (Hl x Hx) as [Hi| ->].
  - right. by exists x.
  - left. exact D.
Qed.

(** So are entries that the graph before the call already takes for the
    same module: two urls that resolve to the same url, or a node and a
    url under which it is indexed. *)
Definition same_module g (ssr : bool) (x y : string + ref) : Prop :=
  (∃ d, denotes g ssr x d ∧ denotes g ssr y d) ∨
  (∃ u v, x = inl u ∧ y = inl v ∧
          (resolveUrl g u ssr).1.1 = (resolveUrl g v ssr).1.1).

Lemma accepts_imported_same g (mod_ : ref) (I A : list (string + ref))
    (s ssr : bool) :
  mod_ < length (arena g) →
  (∀ x, x ∈ A → ∃ y, (y ∈ I ∨ y = inr mod_) ∧ same_module g ssr x y) →
  accepts_imported g (OpUpdateModuleInfo mod_ I A s ssr).
Proof.
  intros Hm Hsame x r Hx D.
  pose proof (updateModuleInfo_exact g mod_ I A s ssr Hm) as (_ & _ & _ & E).
  cbv zeta in E.
  set (g' := (updateModuleInfo g mod_ I A s ssr).2) in *.
  destruct (Hsame x Hx) as (y & Hy & Hxy).
  assert (denotes g' ssr y r) as Dy.
  { destruct Hxy as [(d & Dx & Dy)|(u & v & -> & -> & Huv)].
    - apply (denotes_extends g g' ssr) in Dx; [|done].
      apply (denotes_extends g g' ssr) in Dy; [|done].
      by rewrite (denotes_functional g' ssr x r d D Dx).
    - cbn [denotes] in *. destruct E as [_ R _].
      rewrite (resolveUrl_with_resolveId g g' v ssr R).
      rewrite (resolveUrl_with_resolveId g g' u ssr R) in D. by rewrite <- Huv. }
  destruct Hy as [Hy| ->]; [right; by exists y|left; exact Dy].
Qed.

Lemma accepted_within_imports_sets g g' :
  (∀ m, sets_of (node (arena g') m) = sets_of (node (arena g) m)) →
  accepted_within_imports g → accepted_within_imports g'.
Proof.
  intros Hs Hinv m d. specialize (Hs m). injection Hs as -> ->. apply Hinv.
Qed.

Lemma invalidateModule_foldM (mods : list ref) : ∀ a seen,
  ∃ a' seen',
    foldM (λ '(a, seen) mod_, invalidateModule a mod_ seen) (a, seen) mods
    = Some (a', seen') ∧
    ∀ m, sets_of (node a' m) = sets_of (node a m).
Proof.
  induction mods as [|mod_ mods IH]; intros a seen; simpl.
  - by exists a, seen.
  - destruct (invalidateModule_total a mod_ seen) as (a1 & seen1 & -> & [_ F]).
    destruct (IH a1 seen1) as (a' & seen' & -> & Hs).
    exists a', seen'. split; [done|]. intros m.
    rewrite Hs, (F _ sets_of) by (intros; reflexivity).
    by rewrite !(node_alter_field sets_of).
Qed.

Lemma createFileOnlyEntry_sets g file (m : ref) :
  sets_of (node (arena (createFileOnlyEntry g file).2) m)
  = sets_of (node (arena g) m).
Proof.
  unfold createFileOnlyEntry.
  destruct (List.find _ _); simpl; [done|].
  by apply sets_of_app_new.
Qed.

Lemma run_call_accepted_within_imports g (c : Call) :
  accepting_call g c → accepted_within_imports g →
  ∃ g', run_call g c = Some g' ∧ accepted_within_imports g'.
Proof.
  intros (Hlive & Hdone & Hacc) Hinv. unfold run_call, update_completes in *.
  destruct (call_op c) as [u ssr|mod_ I A s ssr|file| |file];
    cbn [run_op op_live accepts_imported] in *.
  - eexists. split; [done|]. unfold Rejecting.ensureEntryFromUrl.
    destruct (call_rejects c 0); [done|].
    eapply accepted_within_imports_sets; [|done].
    intros m. rewrite <- (ensureEntryFromUrl_sets g u ssr m).
    by destruct (ensureEntryFromUrl g u ssr).
  - eexists. split; [done|].
    rewrite (updateModuleInfo_settled _ g mod_ I A s ssr Hdone). cbn [snd].
    pose proof (updateModuleInfo_post g mod_ I A s ssr Hlive)
      as (Hi & Ha & _ & Hs & _). cbv zeta in *.
    intros m d Hd. destruct (decide (m = mod_)) as [->|Hne].
    + apply Ha in Hd as (x & Hx & D).
      destruct (Hacc x d Hx D) as [->|(y & Hy & Dy)]; [by right|].
      left. apply Hi. by exists y.
    + specialize (Hs m Hne). injection Hs as Hs1 Hs2.
      rewrite Hs1. rewrite Hs2 in Hd. by apply Hinv.
  - unfold onFileChange. destruct (getModulesByFile g file) as [mods|].
    + destruct (invalidateModule_foldM mods (arena g) []) as (a' & seen' & -> & Hs).
      simpl. eexists. split; [done|].
      by eapply accepted_within_imports_sets.
    + by exists g.
  - unfold invalidateAll.
    destruct (invalidateModule_foldM (JsMap.values (idToModuleMap g)) (arena g) [])
      as (a' & seen' & -> & Hs).
    simpl. eexists. split; [done|].
    by eapply accepted_within_imports_sets.
  - eexists. split; [done|].
    eapply accepted_within_imports_sets; [|done].
    apply createFileOnlyEntry_sets.
Qed.

(** C7, as the code has it.  The graph does not check the accepted deps
    against the imports: the inclusion [m.acceptedHmrDeps ⊆
    m.importedModules ∪ {m}] holds after a sequence of graph operations
    provided every [updateModuleInfo] in it completes and is handed
    accepted modules each of which is, as a module, among the imported
    modules it is handed, or the module itself.  The sequence returns; an
    [ensureEntryFromUrl] in it may be rejected. *)
Theorem accepted_within_imports_preserved (cs : list Call) : ∀ g,
  accepted_within_imports g →
  calls_ok accepting_call g cs →
  ∃ g', run_calls g cs = Some g' ∧ accepted_within_imports g'.
Proof.
  unfold run_calls. induction cs as [|c cs IH]; intros g Hinv Hok; simpl.
  - by exists g.
  - destruct Hok as (Hc & Hrest).
    destruct (run_call_accepted_within_imports g c Hc Hinv) as (g1 & E & Hinv1).
    rewrite E. apply IH; [done|]. by apply Hrest.
Qed.

End GraphTraces.

(** ** A concrete instance

    The helpers on plain paths: a url without query string or hash is left
    alone by the query strippers and parses to itself; a path is a CSS
    request when it ends in [.css]; no plugin resolves anything, so an id
    is its url. *)

Module Demo.

(** [path.extname] on a path whose last segment has no leading dot. *)
Fixpoint extname_from (s : string) (ext : option string) : string :=
  match s with
  | EmptyString => default "" ext
  | String c s' =>
      if Ascii.eqb c "."%char then extname_from s' (Some s)
      else if Ascii.eqb c "/"%char then extname_from s' None
      else extname_from s' ext
  end.

#[global] Instance utils : Utils := {|
  removeTimestampQuery := λ u, u;
  removeImportQuery := λ u, u;
  cleanUrl := λ u, u;
  normalizePath := λ p, p;
  extname := λ p, extname_from p None;
  parseUrl := λ u, {| pathname := u; search := None; hash := None |};
  isDirectCSSRequest := λ u, endsWith u ".css";
  isCSSRequest := λ u, endsWith u ".css";
  FS_PREFIX := "/@fs/"
|}.

Definition no_plugin : string → bool → option (PartialResolvedId unit) :=
  λ _ _, None.

Definition empty_graph : ModuleGraph unit := new_graph no_plugin.

(** [/a] is requested, then its transform reports that it accepts [/b]
    while importing nothing. *)
Definition accept_without_import : list GraphOp :=
  [ OpEnsureEntryFromUrl "/a" false;
    OpUpdateModuleInfo 0 [] [inl "/b"] false false ].

End Demo.

(** C7, counterexample.  From the empty graph, creating [/a] and then
    recording that it accepts [/b] without importing it, leaves [/a] with an
    accepted dep that is neither among its imports nor itself. *)
Lemma accepted_within_imports_violated :
  ∃ g', run_ops Demo.empty_graph Demo.accept_without_import = Some g' ∧
        ¬ accepted_within_imports g'.
Proof.
  set (g1 := (ensureEntryFromUrl Demo.empty_graph "/a" false).2).
  set (g2 := (updateModuleInfo g1 0 [] [inl "/b"] false false).2).
  exists g2. split; [reflexivity|].
  intros Hinv. specialize (Hinv 0 1).
  assert (ModuleNode.acceptedHmrDeps (node (arena g2) 0) = [1]) as Hacc
    by (vm_compute; reflexivity).
  assert (ModuleNode.importedModules (node (arena g2) 0) = []) as Himp
    by (vm_compute; reflexivity).
  rewrite Hacc, Himp in Hinv.
  destruct Hinv as [Hin|Heq]; [by apply list_elem_of_singleton| |discriminate].
  by apply elem_of_nil in Hin.
Qed.

Module DemoGraphs.

(** [/a] imports [/b]; [/c] is known but not imported by anyone. *)
Definition a_imports_b : ModuleGraph unit :=
  let g := (ensureEntryFromUrl Demo.empty_graph "/a" false).2 in
  let g := (ensureEntryFromUrl g "/c" false).2 in
  (updateModuleInfo g 0 [inl "/b"] [] false false).2.

Definition fulfilled : nat → bool := λ _, false.
Definition rejected : nat → bool := λ _, true.

(** [/a] and [/b] are requested, the resolve of a third request is
    rejected; then a transform of [/a] reports that it imports the node of
    [/b] and accepts the url [/b] and itself. *)
Definition accept_imported : list Call :=
  [ mkCall (OpEnsureEntryFromUrl "/a" false) fulfilled;
    mkCall (OpEnsureEntryFromUrl "/b" false) fulfilled;
    mkCall (OpEnsureEntryFromUrl "/gone" false) rejected;
    mkCall (OpUpdateModuleInfo 0 [inr 1] [inl "/b"; inr 0] false false) fulfilled;
    mkCall OpInvalidateAll fulfilled ].

(** [/a] imports and accepts [/b]; its next transform imports [/c] and
    [/d] and accepts [/c], but the resolve of [/d] is rejected. *)
Definition rejected_import : list Call :=
  [ mkCall (OpEnsureEntryFromUrl "/a" false) fulfilled;
    mkCall (OpUpdateModuleInfo 0 [inl "/b"] [inl "/b"] false false) fulfilled;
    mkCall (OpUpdateModuleInfo 0 [inl "/c"; inl "/d"] [inl "/c"] false false)
           (λ i, bool_decide (i = 1)) ].

End DemoGraphs.

Example a_imports_b_nodes :
  (λ n : ModuleNode.t unit,
     (ModuleNode.url n, ModuleNode.importers n, ModuleNode.importedModules n))
    <$> arena DemoGraphs.a_imports_b
  = [("/a", [], [2]); ("/c", [], []); ("/b", [0], [])].
Proof. vm_compute. reflexivity. Qed.

(** [/a] is re-transformed and now imports [/c] instead of [/b], accepting
    itself: [/b] loses its only importer and is returned. *)
Lemma updateModuleInfo_spec_witness :
  let g := DemoGraphs.a_imports_b in
  let prev := ModuleNode.importedModules (node (arena g) 0) in
  let ret := (updateModuleInfo g 0 [inl "/c"] [] true false).1 in
  let g' := (updateModuleInfo g 0 [inl "/c"] [] true false).2 in
  let m' := node (arena g') 0 in
  (∀ x, x ∈ [inl "/c"] ++ [] → ∃ r, denotes g' false x r) ∧
  (∀ r, r ∈ ModuleNode.importedModules m' ↔
        ∃ x, x ∈ [inl "/c"] ∧ denotes g' false x r) ∧
  (∀ r, r ∈ ModuleNode.acceptedHmrDeps m' ↔
        ∃ x : string + ref, x ∈ [] ∧ denotes g' false x r) ∧
  NoDup (ModuleNode.importedModules m') ∧
  NoDup (ModuleNode.acceptedHmrDeps m') ∧
  ModuleNode.isSelfAccepting m' = true ∧
  (∀ d, d ∈ prev → d ∉ ModuleNode.importedModules m' →
        0 ∉ ModuleNode.importers (node (arena g') d)) ∧
  match ret with
  | None =>
      ∀ d, d ∈ prev → d ∉ ModuleNode.importedModules m' →
           ModuleNode.importers (node (arena g') d) ≠ []
  | Some l =>
      l ≠ [] ∧
      ∀ d, d ∈ l ↔
           d ∈ prev ∧ (d ∉ ModuleNode.importedModules m') ∧
           ModuleNode.importers (node (arena g') d) = []
  end.
Proof.
  apply (updateModuleInfo_spec DemoGraphs.a_imports_b 0 [inl "/c"] [] true false).
  - vm_compute. lia.
  - intros d Hd.
    replace (ModuleNode.importedModules (node (arena DemoGraphs.a_imports_b) 0))
      with [2] in Hd by (vm_compute; reflexivity).
    apply list_elem_of_singleton in Hd as ->. vm_compute. lia.
Defined.

(** What the call of the witness leaves and returns. *)
Example a_drops_b_nodes :
  let r := updateModuleInfo DemoGraphs.a_imports_b 0 [inl "/c"] [] true false in
  r.1 = Some [2] ∧
  (λ n : ModuleNode.t unit,
     (ModuleNode.url n, ModuleNode.importers n, ModuleNode.importedModules n))
    <$> arena r.2
  = [("/a", [], [1]); ("/c", [0], []); ("/b", [], [])].
Proof. vm_compute. done. Qed.

Lemma accepted_within_imports_preserved_witness :
  ∃ g', run_calls Demo.empty_graph DemoGraphs.accept_imported = Some g' ∧
        accepted_within_imports g'.
Proof.
  apply (accepted_within_imports_preserved DemoGraphs.accept_imported
           Demo.empty_graph).
  - intros m d Hd. replace (node (arena Demo.empty_graph) m) with
      (inhabitant : ModuleNode.t unit) in Hd by (by destruct m).
    by apply elem_of_nil in Hd.
  - cbn [calls_ok DemoGraphs.accept_imported]. split; [done|].
    intros g1 [= <-]. split; [done|].
    intros g2 [= <-]. split; [done|].
    intros g3 [= <-]. split.
    + split_and!.
      * vm_compute. lia.
      * intros j u Hj. reflexivity.
      * intros x r Hx D. cbn [call_op accepts_imported] in *.
        apply elem_of_cons in Hx as [->|Hx].
        -- right. exists (inr 1). split; [left|].
           cbn [denotes] in *. vm_compute in D. by injection D as <-.
        -- apply list_elem_of_singleton in Hx as ->. left. exact D.
    + intros g4 [= <-]. split; [done|]. done.
Defined.

(** The trace of the witness ends with [/a] importing and accepting [/b],
    and accepting itself. *)
Example accept_imported_nodes :
  (λ g : ModuleGraph unit,
     (λ n, (ModuleNode.url n, ModuleNode.importedModules n,
            ModuleNode.acceptedHmrDeps n)) <$> arena g)
    <$> run_calls Demo.empty_graph DemoGraphs.accept_imported
  = Some [("/a", [1], [1; 0]); ("/b", [], [])].
Proof. vm_compute. reflexivity. Qed.

(** A call that is rejected while it reads its imports has replaced
    [importedModules] and not yet [acceptedHmrDeps]: [/a] is left importing
    [/c] only and still accepting [/b], and [/b] still lists [/a] among its
    importers. *)
Example rejected_import_nodes :
  (λ g : ModuleGraph unit,
     (λ n, (ModuleNode.url n, ModuleNode.importers n, ModuleNode.importedModules n,
            ModuleNode.acceptedHmrDeps n)) <$> arena g)
    <$> run_calls Demo.empty_graph DemoGraphs.rejected_import
  = Some [("/a", [], [2], [1]); ("/b", [0], [], []); ("/c", [0], [], [])].
Proof. vm_compute. reflexivity. Qed.

(** With [acceptedHmrDeps] of the earlier transform and [importedModules]
    of the rejected one, [/a] accepts a module that it does not import. *)
Example rejected_import_breaks_inclusion :
  ∃ g', run_calls Demo.empty_graph DemoGraphs.rejected_import = Some g' ∧
        ¬ accepted_within_imports g'.
Proof.
  destruct (run_calls Demo.empty_graph DemoGraphs.rejected_import) as [g'|] eqn:E;
    [|by vm_compute in E].
  exists g'. split; [done|].
  assert (ModuleNode.acceptedHmrDeps (node (arena g') 0) = [1]) as Hacc.
  { assert (Some (ModuleNode.acceptedHmrDeps (node (arena g') 0)) = Some [1]) as Hs.
    { change (Some ((λ g, ModuleNode.acceptedHmrDeps (node (arena g) 0)) g')
              = Some [1]).
      rewrite <- (fmap_Some_2 (λ g, ModuleNode.acceptedHmrDeps (node (arena g) 0))
                    _ _ E) at 1.
      vm_compute. reflexivity. }
    by injection Hs. }
  assert (ModuleNode.importedModules (node (arena g') 0) = [2]) as Himp.
  { assert (Some (ModuleNode.importedModules (node (arena g') 0)) = Some [2]) as Hs.
    { change (Some ((λ g, ModuleNode.importedModules (node (arena g) 0)) g')
              = Some [2]).
      rewrite <- (fmap_Some_2 (λ g, ModuleNode.importedModules (node (arena g) 0))
                    _ _ E) at 1.
      vm_compute. reflexivity. }
    by injection Hs. }
  intros Hinv. specialize (Hinv 0 1). rewrite Hacc, Himp in Hinv.
  destruct Hinv as [Hin|Heq]; [by apply list_elem_of_singleton| |discriminate].
  by apply list_elem_of_singleton in Hin.
Qed.

(** ** hmr.ts: invalidation and boundary walks *)

Module Hmr.

(** An element of the [boundaries] set.  Every [boundaries.add({...})]
    adds a fresh object, so the set is the list of the additions. *)
Record Boundary := mkBoundary {
  boundary : ref;
  acceptedVia : ref
}.

#[global] Instance Boundary_eq_dec : EqDecision Boundary.
Proof. solve_decision. Defined.

(** [Update] of [types/hmrPayload] *)
Record Update := mkUpdate {
  type : string;
  timestamp : Z;
  path : string;
  acceptedPath : string
}.

(** What [updateModules] hands to [ws.send]. *)
Inductive HMRPayload :=
| FullReloadPayload
| UpdatePayload (updates : list Update).

Section Walks.
Context {Ext : Type} `{Utils}.
Implicit Type a : Arena Ext.

(** [invalidate(mod, timestamp, seen)]; [fuel] bounds the depth of the
    recursion, which ends because [seen] grows. *)
Fixpoint invalidate_fuel (fuel : nat) a (mod_ : ref) (timestamp : Z)
    (seen : list ref) : option (Arena Ext * list ref) :=
  match fuel with
  | O => None
  | S fuel' =>
      if JsSet.has seen mod_ then Some (a, seen)
      else
        let seen := JsSet.add seen mod_ in
        let a := alter (ModuleNode.set_lastHMRTimestamp timestamp) mod_ a in
        let a := alter (ModuleNode.set_transformResult None) mod_ a in
        let a := alter (ModuleNode.set_ssrModule None) mod_ a in
        let a := alter (ModuleNode.set_ssrTransformResult None) mod_ a in
        foldM (λ '(a, seen) importer,
                 if negb (JsSet.has (ModuleNode.acceptedHmrDeps (node a importer)) mod_)
                 then invalidate_fuel fuel' a importer timestamp seen
                 else Some (a, seen))
              (a, seen) (ModuleNode.importers (node a mod_))
  end.

Definition invalidate a (mod_ : ref) (timestamp : Z) (seen : list ref)
  : option (Arena Ext * list ref) :=
  invalidate_fuel (S (length a)) a mod_ timestamp seen.

(** The two [for (const importer of node.importers)] loops of
    [propagateUpdate], with the recursive call as [rec].  In the loop of a
    self-accepting node the result of the call is dropped. *)
Definition propagate_css (rec : ref → list Boundary → list ref → option (bool * list Boundary))
    a (currentChain : list ref) (importers : list ref) (boundaries : list Boundary)
  : option (list Boundary) :=
  foldM (λ boundaries importer,
           if isCSSRequest (ModuleNode.url (node a importer))
              && negb (bool_decide (importer ∈ currentChain))
           then snd <$> rec importer boundaries (currentChain ++ [importer])
           else Some boundaries)
        boundaries importers.

Fixpoint propagate_importers
    (rec : ref → list Boundary → list ref → option (bool * list Boundary))
    a (node_ : ref) (currentChain : list ref)
    (importers : list ref) (boundaries : list Boundary)
  : option (bool * list Boundary) :=
  match importers with
  | [] => Some (false, boundaries)
  | importer :: rest =>
      if JsSet.has (ModuleNode.acceptedHmrDeps (node a importer)) node_
      then propagate_importers rec a node_ currentChain rest
             (boundaries ++ [mkBoundary importer node_])
      else if bool_decide (importer ∈ currentChain)
      then Some (true, boundaries)
      else
        match rec importer boundaries (currentChain ++ [importer]) with
        | None => None
        | Some (true, boundaries) => Some (true, boundaries)
        | Some (false, boundaries) =>
            propagate_importers rec a node_ currentChain rest boundaries
        end
  end.

(** [propagateUpdate(node, boundaries, currentChain)]: the dead-end flag
    and the boundaries set after the call.  [fuel] bounds the depth of the
    recursion, which ends because the chain grows. *)
Fixpoint propagateUpdate_fuel (fuel : nat) a (node_ : ref)
    (boundaries : list Boundary) (currentChain : list ref)
  : option (bool * list Boundary) :=
  match fuel with
  | O => None
  | S fuel' =>
      let n := node a node_ in
      if ModuleNode.isSelfAccepting n then
        let boundaries := boundaries ++ [mkBoundary node_ node_] in
        boundaries ←
          propagate_css (propagateUpdate_fuel fuel' a)
                        a currentChain (ModuleNode.importers n) boundaries;
        Some (false, boundaries)
      else if bool_decide (length (ModuleNode.importers n) = 0) then
        Some (true, boundaries)
      else if negb (isCSSRequest (ModuleNode.url n))
              && forallb (λ i, isCSSRequest (ModuleNode.url (node a i)))
                         (ModuleNode.importers n)
      then Some (true, boundaries)
      else
        propagate_importers (propagateUpdate_fuel fuel' a)
          a node_ currentChain (ModuleNode.importers n) boundaries
  end.

(** The call [propagateUpdate(mod, boundaries)] of [updateModules], with
    the default [currentChain = [node]]. *)
Definition propagateUpdate a (node_ : ref) (boundaries : list Boundary)
  : option (bool * list Boundary) :=
  propagateUpdate_fuel (S (S (length a))) a node_ boundaries [node_].

Definition type_name (t : ModuleType) : string :=
  match t with js => "js" | css => "css" end.

(** One round of the loop of [updateModules]. *)
Definition update_module (timestamp : Z)
    (st : Arena Ext * list ref * bool * list Update) (mod_ : ref)
  : option (Arena Ext * list ref * bool * list Update) :=
  let '(a, invalidatedModules, needFullReload, updates) := st in
  match invalidate a mod_ timestamp invalidatedModules with
  | None => None
  | Some (a, invalidatedModules) =>
      if needFullReload then Some (a, invalidatedModules, needFullReload, updates)
      else
        match propagateUpdate a mod_ [] with
        | None => None
        | Some (hasDeadEnd, boundaries) =>
            if hasDeadEnd then Some (a, invalidatedModules, true, updates)
            else
              Some (a, invalidatedModules, needFullReload,
                    updates ++
                    ((λ b, mkUpdate
                             (type_name (ModuleNode.type (node a (boundary b)))
                              +:+ "-update")
                             timestamp
                             (ModuleNode.url (node a (boundary b)))
                             (ModuleNode.url (node a (acceptedVia b))))
                       <$> boundaries))
        end
  end.

(** [updateModules(file, modules, timestamp, server)]: the payload sent on
    the socket and the arena after the invalidations.  The log lines, the
    only use of [file], are left out. *)
Definition updateModules a (modules : list ref) (timestamp : Z)
  : option (HMRPayload * Arena Ext) :=
  match foldM (update_module timestamp) (a, [], false, []) modules with
  | None => None
  | Some (a, _, needFullReload, updates) =>
      if needFullReload then Some (FullReloadPayload, a)
      else Some (UpdatePayload updates, a)
  end.

(** *** The two-module scenarios *)

(** What [invalidate] does to the node it visits. *)
Definition invalidated (timestamp : Z) (n : ModuleNode.t Ext) : ModuleNode.t Ext :=
  ModuleNode.set_ssrTransformResult None
    (ModuleNode.set_ssrModule None
       (ModuleNode.set_transformResult None
          (ModuleNode.set_lastHMRTimestamp timestamp n))).

Lemma invalidate_fuel_unfold (fuel : nat) a (mod_ : ref) (timestamp : Z) seen :
  mod_ ∉ seen →
  invalidate_fuel (S fuel) a mod_ timestamp seen =
  foldM (λ '(a, seen) importer,
           if negb (JsSet.has (ModuleNode.acceptedHmrDeps (node a importer)) mod_)
           then invalidate_fuel fuel a importer timestamp seen
           else Some (a, seen))
        (alter (invalidated timestamp) mod_ a, seen ++ [mod_])
        (ModuleNode.importers (node a mod_)).
Proof.
  intros Hseen. cbn [invalidate_fuel].
  apply JsSet.has_false in Hseen. rewrite Hseen.
  unfold JsSet.add. rewrite Hseen.
  rewrite !list_alter_alter_eq.
  rewrite (node_alter_field ModuleNode.importers) by done.
  done.
Qed.

Lemma node_invalidated_ne a (r r' : ref) (timestamp : Z) :
  r ≠ r' → node (alter (invalidated timestamp) r a) r' = node a r'.
Proof. apply node_alter_ne. Qed.

Lemma node_invalidated_eq a (r : ref) (timestamp : Z) :
  r < length a →
  node (alter (invalidated timestamp) r a) r = invalidated timestamp (node a r).
Proof. apply node_alter_eq. Qed.

(** C1, as the code has it.  Graph: [A] imports [B] and nothing imports
    [A]; [B] accepts itself, [A] does not accept [B]; both are JS modules.
    A change of [B]'s file ([modules = [B]]) sends one [update] payload
    with the single entry [{type: "js-update", path: B.url,
    acceptedPath: B.url}].  The invalidation walk clears the cached
    [transformResult] of [B] and, because [A] does not accept [B], of [A]
    as well. *)
Theorem self_accepting_leaf a (A B : ref) (timestamp : Z) :
  A ≠ B → A < length a → B < length a →
  ModuleNode.importers (node a B) = [A] →
  ModuleNode.importers (node a A) = [] →
  ModuleNode.isSelfAccepting (node a B) = true →
  B ∉ ModuleNode.acceptedHmrDeps (node a A) →
  isCSSRequest (ModuleNode.url (node a A)) = false →
  ModuleNode.type (node a B) = js →
  ∃ a',
    updateModules a [B] timestamp =
      Some (UpdatePayload
              [mkUpdate "js-update" timestamp
                        (ModuleNode.url (node a B)) (ModuleNode.url (node a B))],
            a') ∧
    ModuleNode.transformResult (node a' B) = None ∧
    ModuleNode.transformResult (node a' A) = None.
Proof.
  intros Hne HA HB HimpB HimpA Hself Hacc Hcss Hty.
  set (a1 := alter (invalidated timestamp) B a).
  set (a2 := alter (invalidated timestamp) A a1).
  assert (length a1 = length a) as L1 by apply length_alter.
  assert (length a2 = length a) as L2 by (unfold a2; by rewrite length_alter).
  assert (node a2 A = invalidated timestamp (node a A)) as NA.
  { unfold a2. rewrite node_invalidated_eq by lia.
    unfold a1. by rewrite node_invalidated_ne. }
  assert (node a2 B = invalidated timestamp (node a B)) as NB.
  { unfold a2. rewrite node_invalidated_ne by done.
    unfold a1. by rewrite node_invalidated_eq. }
  assert (invalidate a B timestamp [] = Some (a2, [B; A])) as Hinv.
  { unfold invalidate.
    destruct (length a) as [|[|k]] eqn:Hlen; [lia|lia|].
    rewrite invalidate_fuel_unfold by apply not_elem_of_nil.
    rewrite HimpB. cbn [foldM]. fold a1.
    assert (node a1 A = node a A) as -> by (unfold a1; by rewrite node_invalidated_ne).
    apply JsSet.has_false in Hacc. rewrite Hacc. cbn [negb].
    rewrite invalidate_fuel_unfold
      by (intros ->%list_elem_of_singleton; done).
    assert (node a1 A = node a A) as -> by (unfold a1; by rewrite node_invalidated_ne).
    rewrite HimpA. reflexivity. }
  assert (propagateUpdate a2 B [] = Some (false, [mkBoundary B B])) as Hprop.
  { unfold propagateUpdate. cbn [propagateUpdate_fuel].
    rewrite NB. cbn [invalidated ModuleNode.isSelfAccepting ModuleNode.importers
                     ModuleNode.set_ssrTransformResult ModuleNode.set_ssrModule
                     ModuleNode.set_transformResult ModuleNode.set_lastHMRTimestamp].
    rewrite Hself, HimpB. cbn [propagate_css foldM]. rewrite NA.
    cbn [invalidated ModuleNode.url
         ModuleNode.set_ssrTransformResult ModuleNode.set_ssrModule
         ModuleNode.set_transformResult ModuleNode.set_lastHMRTimestamp].
    rewrite Hcss. reflexivity. }
  exists a2. split_and!.
  - unfold updateModules. cbn [foldM update_module].
    rewrite Hinv, Hprop. cbn [fmap list_fmap app boundary acceptedVia].
    rewrite NB. cbn [invalidated ModuleNode.url ModuleNode.type
         ModuleNode.set_ssrTransformResult ModuleNode.set_ssrModule
         ModuleNode.set_transformResult ModuleNode.set_lastHMRTimestamp].
    rewrite Hty. reflexivity.
  - by rewrite NB.
  - by rewrite NA.
Qed.

(** C2, as the code has it.  Graph: [A] imports [B] and accepts it, [B]
    does not accept itself, [A] is not a CSS request.  A change of [B]'s
    file sends one [update] payload whose single entry has [path = A.url]
    and [acceptedPath = B.url].  The invalidation walk clears the cached
    [transformResult] of [B] and stops at [A], which accepts [B]: the node
    [A], its cached [transformResult] included, is left as it was. *)
Theorem dep_accepting_parent a (A B : ref) (timestamp : Z) :
  A ≠ B → A < length a → B < length a →
  ModuleNode.importers (node a B) = [A] →
  ModuleNode.isSelfAccepting (node a B) = false →
  B ∈ ModuleNode.acceptedHmrDeps (node a A) →
  isCSSRequest (ModuleNode.url (node a A)) = false →
  ∃ a',
    updateModules a [B] timestamp =
      Some (UpdatePayload
              [mkUpdate (type_name (ModuleNode.type (node a A)) +:+ "-update")
                        timestamp
                        (ModuleNode.url (node a A)) (ModuleNode.url (node a B))],
            a') ∧
    ModuleNode.transformResult (node a' B) = None ∧
    node a' A = node a A.
Proof.
  intros Hne HA HB HimpB Hself Hacc Hcss.
  set (a1 := alter (invalidated timestamp) B a).
  assert (length a1 = length a) as L1 by apply length_alter.
  assert (node a1 A = node a A) as NA
    by (unfold a1; by rewrite node_invalidated_ne).
  assert (node a1 B = invalidated timestamp (node a B)) as NB
    by (unfold a1; by rewrite node_invalidated_eq).
  pose proof Hacc as Hacc'. apply JsSet.has_true in Hacc'.
  assert (invalidate a B timestamp [] = Some (a1, [B])) as Hinv.
  { unfold invalidate.
    rewrite invalidate_fuel_unfold by apply not_elem_of_nil.
    rewrite HimpB. cbn [foldM]. fold a1. rewrite NA, Hacc'. reflexivity. }
  assert (propagateUpdate a1 B [] = Some (false, [mkBoundary A B])) as Hprop.
  { unfold propagateUpdate. cbn [propagateUpdate_fuel].
    rewrite NB. cbn [invalidated ModuleNode.isSelfAccepting ModuleNode.importers
                     ModuleNode.url
                     ModuleNode.set_ssrTransformResult ModuleNode.set_ssrModule
                     ModuleNode.set_transformResult ModuleNode.set_lastHMRTimestamp].
    rewrite Hself, HimpB. cbn [length bool_decide decide_rel forallb].
    rewrite bool_decide_eq_false_2 by done.
    cbn [propagate_importers].
    rewrite NA, Hcss, andb_false_r, Hacc'. reflexivity. }
  exists a1. split_and!.
  - unfold updateModules. cbn [foldM update_module].
    rewrite Hinv, Hprop. cbn [fmap list_fmap app boundary acceptedVia].
    rewrite NB, NA. reflexivity.
  - by rewrite NB.
  - done.
Qed.

(** *** The boundary walk: when it reports a dead end *)

(** The three ways in which a node that does not accept itself ends the
    walk, [chain] being the [currentChain] it was reached with. *)
Definition no_importers a (n : ref) : Prop :=
  ModuleNode.importers (node a n) = [].

Definition only_css_importers a (n : ref) : Prop :=
  isCSSRequest (ModuleNode.url (node a n)) = false ∧
  ∀ i, i ∈ ModuleNode.importers (node a n) →
       isCSSRequest (ModuleNode.url (node a i)) = true.

Definition circular_importer a (n : ref) (chain : list ref) : Prop :=
  ∃ i, i ∈ ModuleNode.importers (node a n) ∧
       (n ∉ ModuleNode.acceptedHmrDeps (node a i)) ∧ i ∈ chain.

Definition dead_end a (n : ref) (chain : list ref) : Prop :=
  ModuleNode.isSelfAccepting (node a n) = false ∧
  (no_importers a n ∨ only_css_importers a n ∨ circular_importer a n chain).

(** [bubbles a n chain n' chain']: from [n], reached with [chain], the
    update bubbles up to [n'] through importers that do not accept the
    node below them and are not on the chain yet, every node on the way
    being not self-accepting. *)
Inductive bubbles a : ref → list ref → ref → list ref → Prop :=
| bubbles_here n chain : bubbles a n chain n chain
| bubbles_up n chain i n' chain' :
    ModuleNode.isSelfAccepting (node a n) = false →
    i ∈ ModuleNode.importers (node a n) →
    n ∉ ModuleNode.acceptedHmrDeps (node a i) →
    i ∉ chain →
    bubbles a i (chain ++ [i]) n' chain' →
    bubbles a n chain n' chain'.

(** [called a n chain n' chain']: [propagateUpdate] is called on [n'] in
    the course of the call on [n]: as [bubbles], and also through the CSS
    importers of a self-accepting node. *)
Inductive called a : ref → list ref → ref → list ref → Prop :=
| called_here n chain : called a n chain n chain
| called_up n chain i n' chain' :
    ModuleNode.isSelfAccepting (node a n) = false →
    i ∈ ModuleNode.importers (node a n) →
    n ∉ ModuleNode.acceptedHmrDeps (node a i) →
    i ∉ chain →
    called a i (chain ++ [i]) n' chain' →
    called a n chain n' chain'
| called_css n chain i n' chain' :
    ModuleNode.isSelfAccepting (node a n) = true →
    i ∈ ModuleNode.importers (node a n) →
    isCSSRequest (ModuleNode.url (node a i)) = true →
    i ∉ chain →
    called a i (chain ++ [i]) n' chain' →
    called a n chain n' chain'.

(** The boundaries that the importers above [n] contribute. *)
Definition boundaries_above a (n : ref) (chain : list ref)
    (bs : list Boundary) : Prop :=
  ∀ n' chain' i,
    bubbles a n chain n' chain' →
    ModuleNode.isSelfAccepting (node a n') = false →
    i ∈ ModuleNode.importers (node a n') →
    n' ∈ ModuleNode.acceptedHmrDeps (node a i) →
    mkBoundary i n' ∈ bs.

(** What a call of [propagateUpdate] on [(n, chain)] returns. *)
Definition walk_ok a (n : ref) (bs : list Boundary) (chain : list ref)
    (res : bool * list Boundary) : Prop :=
  (res.1 = true ↔ ∃ n' chain', bubbles a n chain n' chain' ∧ dead_end a n' chain') ∧
  (res.1 = false → boundaries_above a n chain res.2) ∧
  (∀ x, x ∈ bs → x ∈ res.2).

Lemma boundaries_above_mono a n chain (bs bs' : list Boundary) :
  (∀ x, x ∈ bs → x ∈ bs') →
  boundaries_above a n chain bs → boundaries_above a n chain bs'.
Proof. intros Hsub Hb n' chain' i ????. apply Hsub. by eapply Hb. Qed.

Section Loops.
Variable a : Arena Ext.
Variable rec : ref → list Boundary → list ref → option (bool * list Boundary).
Variables (n : ref) (chain : list ref).

(** The recursive call is made on importers outside the chain only. *)
Hypothesis rec_ok : ∀ i bs, i ∉ chain →
  ∃ res, rec i bs (chain ++ [i]) = Some res ∧ walk_ok a i bs (chain ++ [i]) res.

Lemma propagate_css_spec (imps : list ref) : ∀ bs,
  ∃ bs', propagate_css rec a chain imps bs = Some bs' ∧ ∀ x, x ∈ bs → x ∈ bs'.
Proof.
  unfold propagate_css.
  induction imps as [|i imps IH]; intros bs; cbn [foldM].
  - by exists bs.
  - destruct (isCSSRequest _); cbn [andb]; [|apply IH].
    case_bool_decide as Hc; cbn [negb]; [apply IH|].
    destruct (rec_ok i bs Hc) as ([b bs1] & -> & _ & _ & Hm). cbn.
    destruct (IH bs1) as (bs' & -> & Hm'). exists bs'. split; [done|].
    intros x Hx. apply Hm'. by apply Hm.
Qed.

(** An importer through which the walk from [n] meets a dead end. *)
Definition dead_via (i : ref) : Prop :=
  (n ∉ ModuleNode.acceptedHmrDeps (node a i)) ∧
  (i ∈ chain ∨
   ∃ n' chain', bubbles a i (chain ++ [i]) n' chain' ∧ dead_end a n' chain').

Lemma propagate_importers_spec (imps : list ref) : ∀ bs,
  ∃ b bs',
    propagate_importers rec a n chain imps bs = Some (b, bs') ∧
    (b = true ↔ ∃ i, i ∈ imps ∧ dead_via i) ∧
    (b = false →
       ∀ i, i ∈ imps →
         (n ∈ ModuleNode.acceptedHmrDeps (node a i) → mkBoundary i n ∈ bs') ∧
         (n ∉ ModuleNode.acceptedHmrDeps (node a i) →
            (i ∉ chain) ∧ boundaries_above a i (chain ++ [i]) bs')) ∧
    (∀ x, x ∈ bs → x ∈ bs').
Proof.
  induction imps as [|i imps IH]; intros bs; cbn [propagate_importers].
  - exists false, bs. split_and!; [done| |by intros _ i ?%elem_of_nil|done].
    split; [done|]. by intros (i & ?%elem_of_nil & _).
  - destruct (JsSet.has _ n) eqn:Hacc.
    + apply JsSet.has_true in Hacc.
      destruct (IH (bs ++ [mkBoundary i n])) as (b & bs' & -> & Hb & Hf & Hm).
      exists b, bs'. split_and!; [done| | |].
      * rewrite Hb. split.
        -- intros (j & Hj & D). exists j. split; [by right|done].
        -- intros (j & [->|Hj]%elem_of_cons & D); [by destruct D|by exists j].
      * intros Hfalse j [->|Hj]%elem_of_cons; [|by apply Hf].
        split; [|done]. intros _. apply Hm.
        apply elem_of_app. right. by apply list_elem_of_singleton.
      * intros x Hx. apply Hm. apply elem_of_app. by left.
    + apply JsSet.has_false in Hacc.
      case_bool_decide as Hc.
      * exists true, bs. split_and!; [done| |done|done].
        split; [|done]. intros _. exists i. split; [by left|]. split; [done|by left].
      * destruct (rec_ok i bs Hc) as ([b1 bs1] & -> & Hb1 & Hf1 & Hm1).
        cbn in Hb1, Hf1, Hm1. destruct b1.
        -- exists true, bs1. split_and!; [done| |done|done].
           split; [|done]. intros _. exists i. split; [by left|].
           split; [done|]. right. by apply Hb1.
        -- destruct (IH bs1) as (b & bs' & -> & Hb & Hf & Hm).
           exists b, bs'. split_and!; [done| | |].
           ++ rewrite Hb. split.
              ** intros (j & Hj & D). exists j. split; [by right|done].
              ** intros (j & [->|Hj]%elem_of_cons & D); [|by exists j].
                 exfalso. destruct D as [_ [?|D]]; [done|].
                 apply Hb1 in D. done.
           ++ intros Hfalse j [->|Hj]%elem_of_cons; [|by apply Hf].
              split; [done|]. intros _. split; [done|].
              eapply boundaries_above_mono; [exact Hm|]. by apply Hf1.
           ++ intros x Hx. apply Hm. by apply Hm1.
Qed.

End Loops.

Lemma add_absent (chain : list ref) (i : ref) :
  i ∉ chain → JsSet.add chain i = chain ++ [i].
Proof. intros Hi. unfold JsSet.add. apply JsSet.has_false in Hi. by rewrite Hi. Qed.

Lemma self_accepting_dangling a (n : ref) :
  ¬ n < length a → ModuleNode.isSelfAccepting (node a n) = false.
Proof.
  intros Hn. unfold node. rewrite list_lookup_total_alt.
  by rewrite (lookup_ge_None_2 a n) by lia.
Qed.

(** A node without importers that does not accept itself. *)
Lemma walk_ok_root a (n : ref) bs chain :
  ModuleNode.isSelfAccepting (node a n) = false →
  ModuleNode.importers (node a n) = [] →
  walk_ok a n bs chain (true, bs).
Proof.
  intros Hself Himp. split_and!; [|done..].
  split; [|done]. intros _. exists n, chain. split; [constructor|].
  split; [done|]. by left.
Qed.

Lemma propagateUpdate_fuel_root (fuel : nat) a (n : ref) bs chain :
  ModuleNode.isSelfAccepting (node a n) = false →
  ModuleNode.importers (node a n) = [] →
  ∃ res, propagateUpdate_fuel (S fuel) a n bs chain = Some res ∧
         walk_ok a n bs chain res.
Proof.
  intros Hself Himp. exists (true, bs). cbn [propagateUpdate_fuel].
  rewrite Hself, Himp. split; [done|]. by apply walk_ok_root.
Qed.

Lemma propagateUpdate_fuel_spec (fuel : nat) a : ∀ (n : ref) bs chain,
  length (unseen (length a) chain) + 1 < fuel →
  ∃ res, propagateUpdate_fuel fuel a n bs chain = Some res ∧
         walk_ok a n bs chain res.
Proof.
  induction fuel as [|fuel IH]; intros n bs chain Hfuel; [lia|].
  assert (∀ i bs, i ∉ chain →
            ∃ res, propagateUpdate_fuel fuel a i bs (chain ++ [i]) = Some res ∧
                   walk_ok a i bs (chain ++ [i]) res) as Hrec.
  { intros i bs0 Hi. destruct (decide (i < length a)) as [Hlive|Hdead].
    - apply IH. rewrite <- add_absent by done.
      pose proof (unseen_add_lt (length a) chain i Hi Hlive). lia.
    - destruct fuel as [|fuel']; [lia|].
      apply propagateUpdate_fuel_root;
        [by apply self_accepting_dangling|by apply importers_dangling]. }
  cbn [propagateUpdate_fuel]. cbv zeta.
  destruct (ModuleNode.isSelfAccepting (node a n)) eqn:Hself.
  { (* self-accepting: its own boundary, never a dead end *)
    destruct (propagate_css_spec a _ chain Hrec (ModuleNode.importers (node a n))
                (bs ++ [mkBoundary n n])) as (bs' & -> & Hm).
    exists (false, bs'). split; [done|]. split_and!; cbn.
    - split; [done|]. intros (n' & chain' & Hb & Hd & _).
      inversion Hb; subst; congruence.
    - intros _ n' chain' i Hb Hs. inversion Hb; subst; congruence.
    - intros x Hx. apply Hm. apply elem_of_app. by left. }
  case_bool_decide as Hnone.
  { apply length_zero_iff_nil in Hnone.
    exists (true, bs). split; [done|]. by apply walk_ok_root. }
  destruct (negb _ && forallb _ _) eqn:Hcss.
  { exists (true, bs). split; [done|]. split_and!; [|done..].
    split; [|done]. intros _. exists n, chain. split; [constructor|].
    split; [done|]. right; left.
    apply andb_true_iff in Hcss as [Hn%negb_true_iff Hall].
    split; [done|]. intros i Hi%list_elem_of_In.
    rewrite forallb_forall in Hall. by apply Hall. }
  destruct (propagate_importers_spec a _ n chain Hrec
              (ModuleNode.importers (node a n)) bs) as (b & bs' & -> & Hb & Hf & Hm).
  exists (b, bs'). split; [done|]. split_and!; cbn.
  - rewrite Hb. split.
    + intros (i & Hi & Hacc & [Hc|(n' & chain' & Hbub & Hd)]).
      * exists n, chain. split; [constructor|]. split; [done|].
        right; right. by exists i.
      * destruct (decide (i ∈ chain)) as [Hc|Hc].
        -- exists n, chain. split; [constructor|]. split; [done|].
           right; right. by exists i.
        -- exists n', chain'. split; [|done]. by eapply bubbles_up.
    + intros (n' & chain' & Hbub & Hd). inversion Hbub; subst.
      * destruct Hd as [_ [Hd|[Hd|Hd]]].
        -- exfalso. apply Hnone. unfold no_importers in Hd. by rewrite Hd.
        -- exfalso. destruct Hd as [Hn Hall].
           apply andb_false_iff in Hcss as [Hc|Hc].
           ++ apply negb_false_iff in Hc. congruence.
           ++ apply not_true_iff_false in Hc. apply Hc.
              apply forallb_forall. intros i Hi%list_elem_of_In. by apply Hall.
        -- destruct Hd as (i & Hi & Hacc & Hc). exists i.
           split; [done|]. split; [done|by left].
      * exists i. split; [done|]. split; [done|]. right. by exists n', chain'.
  - intros -> n' chain' i Hbub Hs Hi Hacc.
    specialize (Hf eq_refl). inversion Hbub; subst.
    + by apply (Hf i Hi).
    + destruct (Hf i0) as [_ Hup]; [done|].
      destruct (Hup ltac:(done)) as [_ Habove]. by eapply Habove.
  - done.
Qed.

(** *** The boundary walk: where a branch stops *)

(** What the call on [n] adds for [n] itself: [n] with itself when it
    accepts itself, otherwise an importer that accepts it, with [n] as
    [acceptedVia]. *)
Definition added_at a (n : ref) (b : Boundary) : Prop :=
  acceptedVia b = n ∧
  if ModuleNode.isSelfAccepting (node a n) then boundary b = n
  else boundary b ∈ ModuleNode.importers (node a n) ∧
       n ∈ ModuleNode.acceptedHmrDeps (node a (boundary b)).

(** Every boundary added by the call on [(n, chain)] is added at a node on
    which the walk is called.  The walk is not called on an importer that
    accepts the node below it. *)
Definition boundaries_within a (n : ref) (chain : list ref)
    (bs bs' : list Boundary) : Prop :=
  ∀ b, b ∈ bs' →
    b ∈ bs ∨ ∃ n' chain', called a n chain n' chain' ∧ added_at a n' b.

Section Within.
Variable a : Arena Ext.
Variable rec : ref → list Boundary → list ref → option (bool * list Boundary).
Variables (n : ref) (chain : list ref).

Hypothesis rec_within : ∀ i bs res, i ∉ chain →
  rec i bs (chain ++ [i]) = Some res →
  boundaries_within a i (chain ++ [i]) bs res.2.

Lemma propagate_css_within (imps : list ref) : ∀ bs bs',
  propagate_css rec a chain imps bs = Some bs' →
  ∀ b, b ∈ bs' →
    b ∈ bs ∨
    ∃ i n' chain', i ∈ imps ∧
      isCSSRequest (ModuleNode.url (node a i)) = true ∧ (i ∉ chain) ∧
      called a i (chain ++ [i]) n' chain' ∧ added_at a n' b.
Proof.
  unfold propagate_css.
  induction imps as [|i imps IH]; intros bs bs'; cbn [foldM].
  - intros [= <-] b Hb. by left.
  - destruct (isCSSRequest (ModuleNode.url (node a i))) eqn:Hcss; cbn [andb].
    2:{ intros E b Hb.
        destruct (IH _ _ E b Hb) as [?|(j & n' & chain' & Hj & ?)]; [by left|].
        right. exists j, n', chain'. split; [by right|done]. }
    case_bool_decide as Hc; cbn [negb].
    { intros E b Hb.
      destruct (IH _ _ E b Hb) as [?|(j & n' & chain' & Hj & ?)]; [by left|].
      right. exists j, n', chain'. split; [by right|done]. }
    destruct (rec i bs (chain ++ [i])) as [res|] eqn:Ei; [|done].
    cbn. intros E b Hb.
    destruct (IH _ _ E b Hb) as [Hb1|(j & n' & chain' & Hj & ?)].
    + destruct (rec_within i bs res Hc Ei b Hb1) as [?|(n' & chain' & ? & ?)];
        [by left|].
      right. exists i, n', chain'. split; [by left|done].
    + right. exists j, n', chain'. split; [by right|done].
Qed.

Lemma propagate_importers_within (imps : list ref) : ∀ bs res,
  propagate_importers rec a n chain imps bs = Some res →
  ∀ b, b ∈ res.2 →
    b ∈ bs ∨
    (∃ i, i ∈ imps ∧ b = mkBoundary i n ∧
          n ∈ ModuleNode.acceptedHmrDeps (node a i)) ∨
    ∃ i n' chain', i ∈ imps ∧
      (n ∉ ModuleNode.acceptedHmrDeps (node a i)) ∧ (i ∉ chain) ∧
      called a i (chain ++ [i]) n' chain' ∧ added_at a n' b.
Proof.
  induction imps as [|i imps IH]; intros bs res; cbn [propagate_importers].
  - intros [= <-] b Hb. by left.
  - destruct (JsSet.has _ n) eqn:Hacc.
    + apply JsSet.has_true in Hacc. intros E b Hb.
      destruct (IH _ _ E b Hb)
        as [Hb1|[(j & Hj & ? & ?)|(j & n' & chain' & Hj & ?)]].
      * apply elem_of_app in Hb1 as [?| ->%list_elem_of_singleton]; [by left|].
        right; left. exists i. split; [by left|done].
      * right; left. exists j. split; [by right|done].
      * right; right. exists j, n', chain'. split; [by right|done].
    + apply JsSet.has_false in Hacc. case_bool_decide as Hc.
      * intros [= <-] b Hb. by left.
      * destruct (rec i bs (chain ++ [i])) as [[[] bs1]|] eqn:Ei; [| |done].
        -- intros [= <-] b Hb.
           destruct (rec_within i bs _ Hc Ei b Hb) as [?|(n' & chain' & ? & ?)];
             [by left|].
           right; right. exists i, n', chain'. split; [by left|done].
        -- intros E b Hb.
           destruct (IH _ _ E b Hb)
             as [Hb1|[(j & Hj & ? & ?)|(j & n' & chain' & Hj & ?)]].
           ++ destruct (rec_within i bs _ Hc Ei b Hb1)
                as [?|(n' & chain' & ? & ?)]; [by left|].
              right; right. exists i, n', chain'. split; [by left|done].
           ++ right; left. exists j. split; [by right|done].
           ++ right; right. exists j, n', chain'. split; [by right|done].
Qed.

End Within.

Lemma propagateUpdate_fuel_within (fuel : nat) a : ∀ (n : ref) bs chain res,
  propagateUpdate_fuel fuel a n bs chain = Some res →
  boundaries_within a n chain bs res.2.
Proof.
  induction fuel as [|fuel IH]; intros n bs chain res; [done|].
  cbn [propagateUpdate_fuel]. cbv zeta.
  assert (∀ i bs0 res0, i ∉ chain →
            propagateUpdate_fuel fuel a i bs0 (chain ++ [i]) = Some res0 →
            boundaries_within a i (chain ++ [i]) bs0 res0.2) as Hrec
    by (intros; by apply IH).
  destruct (ModuleNode.isSelfAccepting (node a n)) eqn:Hself.
  { destruct (propagate_css _ _ _ _ _) as [bs1|] eqn:E; [|done].
    cbn. intros [= <-] b Hb. cbn [snd] in Hb.
    destruct (propagate_css_within a _ chain Hrec _ _ _ E b Hb)
      as [Hb1|(i & n' & chain' & Hi & Hcss & Hc & Hcall & Hadd)].
    - apply elem_of_app in Hb1 as [?| ->%list_elem_of_singleton]; [by left|].
      right. exists n, chain. split; [constructor|].
      split; [done|]. by rewrite Hself.
    - right. exists n', chain'. split; [|done]. by eapply called_css. }
  case_bool_decide; [by intros [= <-] b Hb; left|].
  destruct (negb _ && forallb _ _); [by intros [= <-] b Hb; left|].
  intros E b Hb.
  destruct (propagate_importers_within a _ n chain Hrec _ _ _ E b Hb)
    as [?|[(i & Hi & -> & Hacc)|(i & n' & chain' & Hi & Hacc & Hc & Hcall & Hadd)]];
    [by left| |].
  - right. exists n, chain. split; [constructor|].
    split; [done|]. by rewrite Hself.
  - right. exists n', chain'. split; [|done]. by eapply called_up.
Qed.

(** C6, as the code has it.  [propagateUpdate] returns, and it reports a
    dead end exactly when the update bubbles, through importers that do
    not accept the node below them, to a node that does not accept itself
    and that has no importers, or is not a CSS request while all its
    importers are, or has an importer on the current chain that does not
    accept it.  Otherwise every importer that declares a node on the way
    in its [acceptedHmrDeps] has been added as a boundary with that node
    as [acceptedVia].  The branch stops there: whatever the result, a
    boundary is only ever added at a node on which the walk is called, and
    the walk goes up from a node only to the importers that do not accept
    it, or, from a node that accepts itself, to its CSS importers; so
    nothing above an accepting importer is added on its account.  The walk
    through the CSS importers of a self-accepting node only adds
    boundaries: a dead end met there is not reported. *)
Theorem propagateUpdate_dead_end a (node_ : ref) :
  ∃ hasDeadEnd boundaries,
    propagateUpdate a node_ [] = Some (hasDeadEnd, boundaries) ∧
    (hasDeadEnd = true ↔
       ∃ n chain, bubbles a node_ [node_] n chain ∧ dead_end a n chain) ∧
    (hasDeadEnd = false → boundaries_above a node_ [node_] boundaries) ∧
    (∀ b, b ∈ boundaries →
       ∃ n chain, called a node_ [node_] n chain ∧ added_at a n b).
Proof.
  unfold propagateUpdate.
  destruct (propagateUpdate_fuel_spec (S (S (length a))) a node_ [] [node_])
    as ([b bs] & E & Hb & Hf & _).
  - pose proof (unseen_le_len (length a) [node_]). lia.
  - exists b, bs. split_and!; [done..|].
    intros x Hx.
    destruct (propagateUpdate_fuel_within _ a _ _ _ _ E x Hx)
      as [[]%elem_of_nil|?].
    done.
Qed.

(** *** The invalidation walk returns *)

Lemma invalidate_fuel_total (fuel : nat) : ∀ a (mod_ : ref) (timestamp : Z) seen,
  length (unseen (length a) seen) < fuel →
  ∃ a' seen',
    invalidate_fuel fuel a mod_ timestamp seen = Some (a', seen') ∧
    length a' = length a ∧
    length (unseen (length a) seen') ≤ length (unseen (length a) seen).
Proof.
  induction fuel as [|fuel IH]; intros a mod_ timestamp seen Hfuel; [lia|].
  destruct (decide (mod_ ∈ seen)) as [Hseen|Hseen].
  { cbn [invalidate_fuel]. apply JsSet.has_true in Hseen. rewrite Hseen.
    by exists a, seen. }
  rewrite invalidate_fuel_unfold by done. rewrite <- add_absent by done.
  set (a1 := alter (invalidated timestamp) mod_ a).
  assert (length a1 = length a) as L1 by apply length_alter.
  destruct (decide (mod_ < length a)) as [Hlive|Hdead].
  - pose proof (unseen_add_lt (length a) seen mod_ Hseen Hlive) as Hlt.
    generalize (ModuleNode.importers (node a mod_)). intros imps.
    assert (length (unseen (length a) (JsSet.add seen mod_)) < fuel) as Hf by lia.
    assert (length (unseen (length a) (JsSet.add seen mod_))
            ≤ length (unseen (length a) seen)) as Hle by lia.
    clear Hlt. revert Hf Hle L1.
    generalize (JsSet.add seen mod_) as seen1. generalize a1 as a2. clear a1.
    induction imps as [|i imps IHi]; intros a2 seen1 Hf Hle L1; cbn [foldM].
    + by exists a2, seen1.
    + destruct (negb _).
      * destruct (IH a2 i timestamp seen1) as (a3 & seen3 & -> & L3 & Hle3);
          [rewrite L1; lia|].
        rewrite L1 in Hle3. apply IHi; [lia..|congruence].
      * by apply IHi.
  - rewrite (importers_dangling a mod_ Hdead). cbn [foldM].
    exists a1, (JsSet.add seen mod_). split_and!; [done..|].
    by apply unseen_add_le.
Qed.

(** [updateModules] always sends a payload. *)
Lemma updateModules_total a (modules : list ref) (timestamp : Z) :
  ∃ payload a', updateModules a modules timestamp = Some (payload, a').
Proof.
  unfold updateModules.
  assert (∀ st, ∃ st', foldM (update_module timestamp) st modules = Some st')
    as Hfold.
  { induction modules as [|mod_ modules IH]; intros st; cbn [foldM].
    - by exists st.
    - destruct st as [[[a0 seen] full] updates]. unfold update_module.
      destruct (invalidate_fuel_total (S (length a0)) a0 mod_ timestamp seen)
        as (a1 & seen1 & E & _).
      { pose proof (unseen_le_len (length a0) seen). lia. }
      unfold invalidate. rewrite E.
      destruct full; [apply IH|].
      unfold propagateUpdate.
      destruct (propagateUpdate_fuel_spec (S (S (length a1))) a1 mod_ [] [mod_])
        as ([b bs] & -> & _).
      { pose proof (unseen_le_len (length a1) [mod_]). lia. }
      destruct b; apply IH. }
  destruct (Hfold (a, [], false, [])) as ([[[a' seen] full] updates] & ->).
  destruct full; eauto.
Qed.

End Walks.
End Hmr.

(** ** The end-to-end scenarios on concrete graphs *)

Module Scenarios.

Definition cached (code : string) : TransformResult.t unit :=
  TransformResult.mk code None (Some ("W/" +:+ code)) None None.

(** Scenario 1: [/A] (object 0) imports [/B] (object 1); [/B] accepts
    itself.  Both have a cached transform result. *)
Definition self_accepting : Arena unit :=
  [ ModuleNode.mk "/A" (Some "/A") (Some "/A") js None None
                  [] [1] [] false (Some (cached "import '/B'")) None None 0%Z;
    ModuleNode.mk "/B" (Some "/B") (Some "/B") js None None
                  [0] [] [] true (Some (cached "hot.accept(cb)")) None None 0%Z ].

(** Scenario 2: [/A] imports [/B] and accepts it; [/B] has no accept. *)
Definition dep_accepting : Arena unit :=
  [ ModuleNode.mk "/A" (Some "/A") (Some "/A") js None None
                  [] [1] [1] false (Some (cached "hot.accept('/B', cb)")) None None 0%Z;
    ModuleNode.mk "/B" (Some "/B") (Some "/B") js None None
                  [0] [] [] false (Some (cached "export default 1")) None None 0%Z ].

End Scenarios.

(** C1, counterexample.  In scenario 1 the change of [/B] sends the
    expected payload, and the transform result that [/A] had cached is
    gone afterwards. *)
Lemma self_accepting_leaf_clears_importer :
  ∃ a',
    Hmr.updateModules Scenarios.self_accepting [1] 1000%Z =
      Some (Hmr.UpdatePayload [Hmr.mkUpdate "js-update" 1000%Z "/B" "/B"], a') ∧
    ModuleNode.transformResult (node Scenarios.self_accepting 0)
      = Some (Scenarios.cached "import '/B'") ∧
    ModuleNode.transformResult (node a' 0) = None.
Proof. eexists. split_and!; reflexivity. Qed.

Lemma self_accepting_leaf_witness :
  ∃ a',
    Hmr.updateModules Scenarios.self_accepting [1] 1000%Z =
      Some (Hmr.UpdatePayload [Hmr.mkUpdate "js-update" 1000%Z "/B" "/B"], a') ∧
    ModuleNode.transformResult (node a' 1) = None ∧
    ModuleNode.transformResult (node a' 0) = None.
Proof.
  apply (Hmr.self_accepting_leaf Scenarios.self_accepting 0 1 1000%Z);
    try reflexivity; try (simpl; lia).
  intros Hin. by apply elem_of_nil in Hin.
Defined.

(** C2, counterexample.  In scenario 2 the change of [/B] sends the
    expected payload, and [/A] still has its cached transform result
    afterwards: it has not been set to null. *)
Lemma dep_accepting_parent_keeps_importer :
  ∃ a',
    Hmr.updateModules Scenarios.dep_accepting [1] 1000%Z =
      Some (Hmr.UpdatePayload [Hmr.mkUpdate "js-update" 1000%Z "/A" "/B"], a') ∧
    ModuleNode.transformResult (node a' 1) = None ∧
    ModuleNode.transformResult (node a' 0)
      = Some (Scenarios.cached "hot.accept('/B', cb)").
Proof. eexists. split_and!; reflexivity. Qed.

Lemma dep_accepting_parent_witness :
  ∃ a',
    Hmr.updateModules Scenarios.dep_accepting [1] 1000%Z =
      Some (Hmr.UpdatePayload [Hmr.mkUpdate "js-update" 1000%Z "/A" "/B"], a') ∧
    ModuleNode.transformResult (node a' 1) = None ∧
    node a' 0 = node Scenarios.dep_accepting 0.
Proof.
  apply (Hmr.dep_accepting_parent Scenarios.dep_accepting 0 1 1000%Z);
    try reflexivity; try (simpl; lia).
  apply list_elem_of_singleton. reflexivity.
Defined.

(** C6, counterexample.  [/B] (object 0) accepts itself and is imported by
    the stylesheet [/main.css] (object 1), which does not accept itself and
    has no importers.  The walk from [/B] calls [propagateUpdate] on
    [/main.css], a node without importers that is not self-accepting, yet
    no dead end is reported. *)
Module CssImporter.

Definition arena : Arena unit :=
  [ ModuleNode.mk "/B" (Some "/B") (Some "/B") js None None
                  [1] [] [] true None None None 0%Z;
    ModuleNode.mk "/main.css" (Some "/main.css") (Some "/main.css") css None None
                  [] [0] [] false None None None 0%Z ].

End CssImporter.

Lemma dead_end_under_css_importer_not_reported :
  Hmr.propagateUpdate CssImporter.arena 0 []
    = Some (false, [Hmr.mkBoundary 0 0]) ∧
  ∃ n chain, Hmr.called CssImporter.arena 0 [0] n chain ∧
             Hmr.dead_end CssImporter.arena n chain.
Proof.
  split; [reflexivity|]. exists 1, [0; 1]. split.
  - apply (Hmr.called_css CssImporter.arena 0 [0] 1);
      [reflexivity| |reflexivity| |apply Hmr.called_here].
    + apply list_elem_of_singleton. reflexivity.
    + intros Hin%list_elem_of_singleton. discriminate.
  - split; [reflexivity|]. left. reflexivity.
Qed.

(** ** hmr.ts: the lexer of [import.meta.hot.accept(...)] *)

Module Lexer.

(** A JS string is a sequence of UTF-16 code units. *)
Definition char := N.

Definition code_units (s : string) : list char :=
  (λ c, N_of_ascii c) <$> list_ascii_of_string s.

Definition single_quote : char := 39%N.
Definition double_quote : char := 34%N.
Definition backtick : char := 96%N.
Definition open_bracket : char := 91%N.
Definition close_bracket : char := 93%N.
Definition comma : char := 44%N.
Definition dollar : char := 36%N.
Definition open_brace : char := 123%N.

(** [/\s/.test(char)]: the white space and line terminator code units. *)
Definition is_whitespace (c : char) : bool :=
  ((9 <=? c) && (c <=? 13) || (c =? 32) || (c =? 160) || (c =? 5760)
   || (8192 <=? c) && (c <=? 8202) || (c =? 8232) || (c =? 8233)
   || (c =? 8239) || (c =? 8287) || (c =? 12288) || (c =? 65279))%N.

Inductive LexerState :=
| inCall
| inSingleQuoteString
| inDoubleQuoteString
| inTemplateString
| inArray.

#[global] Instance LexerState_eq_dec : EqDecision LexerState.
Proof. solve_decision. Defined.

(** An element of the [urls] set; [end_] is the field [end]. *)
Record Dep := mkDep {
  url : list char;
  start : Z;
  end_ : Z
}.

(** How the call ends: [return selfAccepts], or [error(pos)] throwing. *)
Inductive Outcome :=
| Return (selfAccepts : bool)
| Throw (pos : nat).

(** [addDep(index)], the new element; the caller resets [currentDep]. *)
Definition addDep (currentDep : list char) (index : nat) : Dep :=
  mkDep currentDep
        (Z.of_nat index - Z.of_nat (length currentDep) - 1)
        (Z.of_nat index + 1).

(** The [for] loop from index [i] on, [rest] being the code from [i].
    [close] is the body shared by the three closing-delimiter branches,
    [append] is [currentDep += char]. *)
Fixpoint lex (rest : list char) (i : nat) (state prevState : LexerState)
    (currentDep : list char) (urls : list Dep) : list Dep * Outcome :=
  match rest with
  | [] => (urls, Return false)
  | c :: rest' =>
      let close :=
        let urls := urls ++ [addDep currentDep i] in
        if decide (prevState = inCall) then (urls, Return false)
        else lex rest' (S i) prevState prevState [] urls in
      let append := lex rest' (S i) state prevState (currentDep ++ [c]) urls in
      match state with
      | inCall | inArray =>
          if (c =? single_quote)%N then
            lex rest' (S i) inSingleQuoteString state currentDep urls
          else if (c =? double_quote)%N then
            lex rest' (S i) inDoubleQuoteString state currentDep urls
          else if (c =? backtick)%N then
            lex rest' (S i) inTemplateString state currentDep urls
          else if is_whitespace c then
            lex rest' (S i) state prevState currentDep urls
          else if decide (state = inCall) then
            if (c =? open_bracket)%N then
              lex rest' (S i) inArray prevState currentDep urls
            else (urls, Return true)
          else
            if (c =? close_bracket)%N then (urls, Return false)
            else if (c =? comma)%N then
              lex rest' (S i) state prevState currentDep urls
            else (urls, Throw i)
      | inSingleQuoteString =>
          if (c =? single_quote)%N then close else append
      | inDoubleQuoteString =>
          if (c =? double_quote)%N then close else append
      | inTemplateString =>
          if (c =? backtick)%N then close
          else if (c =? dollar)%N && bool_decide (head rest' = Some open_brace)
          then (urls, Throw i)
          else append
      end
  end.

(** [lexAcceptedHmrDeps(code, start, urls)]: the [urls] set after the call
    and how the call ended. *)
Definition lexAcceptedHmrDeps (code : list char) (start : nat) (urls : list Dep)
  : list Dep * Outcome :=
  lex (drop start code) start inCall inCall [] urls.

(** *** The two shapes of a loop round *)

(** The closing delimiter of a string state. *)
Definition closing (state : LexerState) : option char :=
  match state with
  | inSingleQuoteString => Some single_quote
  | inDoubleQuoteString => Some double_quote
  | inTemplateString => Some backtick
  | inCall | inArray => None
  end.

Lemma lex_in_string (q c : char) rest' i state prevState currentDep urls :
  closing state = Some q →
  lex (c :: rest') i state prevState currentDep urls =
  if (c =? q)%N then
    if decide (prevState = inCall)
    then (urls ++ [addDep currentDep i], Return false)
    else lex rest' (S i) prevState prevState [] (urls ++ [addDep currentDep i])
  else if bool_decide (state = inTemplateString) && (c =? dollar)%N
          && bool_decide (head rest' = Some open_brace)
  then (urls, Throw i)
  else lex rest' (S i) state prevState (currentDep ++ [c]) urls.
Proof.
  destruct state; intros [= <-]; reflexivity.
Qed.

Lemma lex_in_code (c : char) rest' i state prevState currentDep urls :
  closing state = None →
  lex (c :: rest') i state prevState currentDep urls =
  if (c =? single_quote)%N then
    lex rest' (S i) inSingleQuoteString state currentDep urls
  else if (c =? double_quote)%N then
    lex rest' (S i) inDoubleQuoteString state currentDep urls
  else if (c =? backtick)%N then
    lex rest' (S i) inTemplateString state currentDep urls
  else if is_whitespace c then
    lex rest' (S i) state prevState currentDep urls
  else if decide (state = inCall) then
    if (c =? open_bracket)%N then
      lex rest' (S i) inArray prevState currentDep urls
    else (urls, Return true)
  else
    if (c =? close_bracket)%N then (urls, Return false)
    else if (c =? comma)%N then
      lex rest' (S i) state prevState currentDep urls
    else (urls, Throw i).
Proof. destruct state; intros [=]; reflexivity. Qed.

(** *** The positions recorded with a dep *)

Definition is_quote (c : char) : Prop :=
  c = single_quote ∨ c = double_quote ∨ c = backtick.

(** [start] is the index of a quote character, [end - 1] the index of the
    same quote character, and [code.slice(start + 1, end - 1)] is [url]. *)
Definition dep_ok (code : list char) (d : Dep) : Prop :=
  ∃ q, is_quote q ∧
    (0 ≤ start d)%Z ∧
    code !! Z.to_nat (start d) = Some q ∧
    code !! Z.to_nat (end_ d - 1) = Some q ∧
    take (Z.to_nat (end_ d - 1) - Z.to_nat (start d + 1))
         (drop (Z.to_nat (start d + 1)) code) = url d ∧
    (end_ d - start d = Z.of_nat (length (url d)) + 2)%Z.

(** Inside a string, [currentDep] is the code between the opening quote
    and the current index; outside, it is empty. *)
Definition in_string (code : list char) (i : nat) (state : LexerState)
    (currentDep : list char) : Prop :=
  match closing state with
  | Some q =>
      ∃ qpos, code !! qpos = Some q ∧ i = qpos + 1 + length currentDep ∧
              take (length currentDep) (drop (qpos + 1) code) = currentDep
  | None => currentDep = []
  end.

Lemma closing_is_quote state q : closing state = Some q → is_quote q.
Proof. destruct state; intros [= <-]; unfold is_quote; auto. Qed.

Lemma drop_cons_inv (code : list char) (i : nat) c rest' :
  drop i code = c :: rest' → code !! i = Some c ∧ drop (S i) code = rest'.
Proof.
  intros Hd. split.
  - rewrite <- (Nat.add_0_r i), <- lookup_drop. by rewrite Hd.
  - replace (S i) with (i + 1) by lia. rewrite <- drop_drop. by rewrite Hd.
Qed.

Lemma in_string_open (code : list char) (i : nat) state q :
  closing state = Some q → code !! i = Some q → in_string code (S i) state [].
Proof.
  intros Hc Hi. unfold in_string. rewrite Hc. exists i.
  split_and!; [done|simpl; lia|done].
Qed.

Lemma lex_deps (code : list char) : ∀ rest i state prevState currentDep urls,
  drop i code = rest →
  closing prevState = None →
  in_string code i state currentDep →
  ∃ new, (lex rest i state prevState currentDep urls).1 = urls ++ new ∧
         Forall (dep_ok code) new.
Proof.
  induction rest as [|c rest' IH]; intros i state prevState cd urls Hd Hp Hs.
  { exists []. by rewrite app_nil_r. }
  apply drop_cons_inv in Hd as [Hi Hd'].
  destruct (closing state) as [q|] eqn:Hc.
  - (* inside a string *)
    rewrite (lex_in_string q) by done.
    unfold in_string in Hs. rewrite Hc in Hs.
    destruct Hs as (qpos & Hq & -> & Htake).
    destruct (N.eqb_spec c q) as [->|Hne].
    + assert (dep_ok code (addDep cd (qpos + 1 + length cd))) as Hok.
      { exists q. unfold addDep. cbn [start end_ url].
        split_and!.
        - by eapply closing_is_quote.
        - lia.
        - replace (Z.to_nat _) with qpos by lia. done.
        - replace (Z.to_nat _) with (qpos + 1 + length cd) by lia. done.
        - replace (Z.to_nat (_ - 1 + 1)) with (qpos + 1) by lia.
          replace (Z.to_nat _ - _) with (length cd) by lia. done.
        - lia. }
      case_decide.
      * exists [addDep cd (qpos + 1 + length cd)]. split; [done|].
        by apply Forall_singleton.
      * destruct (IH (S (qpos + 1 + length cd)) prevState prevState []
                     (urls ++ [addDep cd (qpos + 1 + length cd)]))
          as (new & E & Hall); [done|done|by unfold in_string; rewrite Hp|].
        exists (addDep cd (qpos + 1 + length cd) :: new).
        split; [by rewrite E, <- app_assoc|by constructor].
    + destruct (_ && _ && _); [exists []; by rewrite app_nil_r|].
      apply IH; [done|done|].
      unfold in_string. rewrite Hc. exists qpos. rewrite length_app. simpl.
      split_and!; [done|lia|].
      rewrite Nat.add_1_r. erewrite take_S_r.
      * by rewrite Htake.
      * rewrite lookup_drop. rewrite <- Hi. f_equal; lia.
  - (* between the arguments *)
    rewrite lex_in_code by done.
    unfold in_string in Hs. rewrite Hc in Hs. subst cd.
    destruct (N.eqb_spec c single_quote) as [->|_].
    { apply IH; [done..|]. by apply (in_string_open _ _ _ single_quote). }
    destruct (N.eqb_spec c double_quote) as [->|_].
    { apply IH; [done..|]. by apply (in_string_open _ _ _ double_quote). }
    destruct (N.eqb_spec c backtick) as [->|_].
    { apply IH; [done..|]. by apply (in_string_open _ _ _ backtick). }
    destruct (is_whitespace c).
    { apply IH; [done..|]. unfold in_string. by rewrite Hc. }
    case_decide.
    + destruct (c =? open_bracket)%N.
      * apply IH; [done..|]. by unfold in_string.
      * exists []. by rewrite app_nil_r.
    + destruct (c =? close_bracket)%N; [exists []; by rewrite app_nil_r|].
      destruct (c =? comma)%N; [|exists []; by rewrite app_nil_r].
      apply IH; [done..|]. unfold in_string. by rewrite Hc.
Qed.

(** C10.  Every dep that [lexAcceptedHmrDeps] records, whether the call
    returns or throws, has [start] at the index of a quote character of
    the source and [end] one past the index of the same quote character
    closing the literal, and the source between [start + 1] and [end - 1]
    is its [url]; so [end - start] is the length of [url] plus 2. *)
Theorem lexAcceptedHmrDeps_positions (code : list char) (start : nat)
    (urls : list Dep) :
  ∃ new, (lexAcceptedHmrDeps code start urls).1 = urls ++ new ∧
         Forall (dep_ok code) new.
Proof. unfold lexAcceptedHmrDeps. by apply lex_deps. Qed.

(** *** The valid forms of the call *)

(** A string literal as the lexer reads it: a delimiter, the text up to
    the next occurrence of the same delimiter, and, in a template literal,
    no interpolation. *)
Record Literal := mkLiteral {
  quote : char;
  text : list char
}.

Fixpoint has_interpolation (l : list char) : bool :=
  match l with
  | c :: l' =>
      ((c =? dollar)%N && bool_decide (head l' = Some open_brace))
      || has_interpolation l'
  | [] => false
  end.

Definition valid_literal (l : Literal) : Prop :=
  is_quote (quote l) ∧ (quote l ∉ text l) ∧
  (quote l = backtick → has_interpolation (text l) = false).

(** Between the elements of the array: white space and commas. *)
Definition is_separator (c : char) : bool :=
  is_whitespace c || (c =? comma)%N.

Definition render_literal (l : Literal) : list char :=
  quote l :: text l ++ [quote l].

(** An element of the array with the separators that follow it. *)
Definition render_item (item : Literal * list char) : list char :=
  render_literal item.1 ++ item.2.

(** The source after the opening parenthesis of [accept(]:
    [ArrayForm] is [ ["l1", ..., "ln"] rest ], [CallbackForm] is a first
    argument that starts with [c], neither a string delimiter nor [[]. *)
Inductive AcceptForm :=
| ArrayForm (ws sep : list char) (items : list (Literal * list char))
            (rest : list char)
| CallbackForm (ws : list char) (c : char) (rest : list char).

Definition render (f : AcceptForm) : list char :=
  match f with
  | ArrayForm ws sep items rest =>
      ws ++ open_bracket :: sep ++ concat (render_item <$> items)
         ++ close_bracket :: rest
  | CallbackForm ws c rest => ws ++ c :: rest
  end.

Definition valid_form (f : AcceptForm) : Prop :=
  match f with
  | ArrayForm ws sep items rest =>
      Forall (λ c, is_whitespace c = true) ws ∧
      Forall (λ c, is_separator c = true) sep ∧
      Forall (λ item : Literal * list char,
                valid_literal item.1 ∧
                Forall (λ c, is_separator c = true) item.2) items
  | CallbackForm ws c rest =>
      Forall (λ c, is_whitespace c = true) ws ∧
      is_whitespace c = false ∧ ¬ is_quote c ∧ c ≠ open_bracket
  end.

(** The literals of a form, in source order, and whether it self-accepts. *)
Definition literals (f : AcceptForm) : list (list char) :=
  match f with
  | ArrayForm _ _ items _ => (λ item : Literal * list char, text item.1) <$> items
  | CallbackForm _ _ _ => []
  end.

Definition self_accepts (f : AcceptForm) : bool :=
  match f with
  | ArrayForm _ _ _ _ => false
  | CallbackForm _ _ _ => true
  end.

Lemma whitespace_plain (c : char) :
  is_whitespace c = true →
  (c =? single_quote)%N = false ∧ (c =? double_quote)%N = false ∧
  (c =? backtick)%N = false.
Proof.
  intros Hw. split_and!; apply N.eqb_neq; intros ->; vm_compute in Hw;
    discriminate.
Qed.

Lemma separator_plain (c : char) :
  is_separator c = true →
  (c =? single_quote)%N = false ∧ (c =? double_quote)%N = false ∧
  (c =? backtick)%N = false ∧ (c =? close_bracket)%N = false ∧
  (is_whitespace c = true ∨ (c =? comma)%N = true).
Proof.
  intros Hs. split_and!; try (apply N.eqb_neq; intros ->; vm_compute in Hs;
    discriminate).
  unfold is_separator in Hs. by apply orb_true_iff in Hs.
Qed.

Lemma lex_skip_whitespace (ws : list char) : ∀ rest i state prevState cd urls,
  closing state = None →
  Forall (λ c, is_whitespace c = true) ws →
  lex (ws ++ rest) i state prevState cd urls
  = lex rest (i + length ws) state prevState cd urls.
Proof.
  induction ws as [|c ws IH]; intros rest i state prevState cd urls Hc Hws.
  - simpl. by rewrite Nat.add_0_r.
  - apply Forall_cons in Hws as [Hw Hws].
    destruct (whitespace_plain c Hw) as (E1 & E2 & E3).
    cbn [app]. rewrite lex_in_code by done. rewrite E1, E2, E3, Hw.
    rewrite IH by done. f_equal. simpl. lia.
Qed.

Lemma lex_skip_separators (sep : list char) : ∀ rest i prevState cd urls,
  Forall (λ c, is_separator c = true) sep →
  lex (sep ++ rest) i inArray prevState cd urls
  = lex rest (i + length sep) inArray prevState cd urls.
Proof.
  induction sep as [|c sep IH]; intros rest i prevState cd urls Hsep.
  - simpl. by rewrite Nat.add_0_r.
  - apply Forall_cons in Hsep as [Hs Hsep].
    destruct (separator_plain c Hs) as (E1 & E2 & E3 & E4 & E5).
    cbn [app]. rewrite lex_in_code by done. rewrite E1, E2, E3.
    replace (i + length (c :: sep)) with (S i + length sep) by (simpl; lia).
    destruct (is_whitespace c); [by apply IH|].
    destruct E5 as [?|E5]; [done|].
    rewrite decide_False by done. rewrite E4, E5. by apply IH.
Qed.

(** The text of a literal up to its closing delimiter. *)
Lemma lex_text (q : char) (l : list char) : ∀ rest i state prevState cd urls,
  closing state = Some q →
  q ∉ l →
  (state = inTemplateString → has_interpolation l = false) →
  lex (l ++ q :: rest) i state prevState cd urls
  = lex (q :: rest) (i + length l) state prevState (cd ++ l) urls.
Proof.
  induction l as [|c l IH]; intros rest i state prevState cd urls Hc Hq Hi.
  - simpl. by rewrite Nat.add_0_r, app_nil_r.
  - apply not_elem_of_cons in Hq as [Hne Hq].
    cbn [app]. rewrite (lex_in_string q) by done.
    rewrite (proj2 (N.eqb_neq c q)) by done.
    assert (bool_decide (state = inTemplateString) && (c =? dollar)%N
            && bool_decide (head (l ++ q :: rest) = Some open_brace) = false) as ->.
    { case_bool_decide as Ht; [|done]. cbn [andb].
      specialize (Hi Ht). cbn [has_interpolation] in Hi.
      apply orb_false_iff in Hi as [Hi _].
      destruct (c =? dollar)%N; [|done]. cbn [andb] in *.
      destruct l as [|c' l]; [|done].
      subst state. injection Hc as <-. done. }
    rewrite IH; [|done|done|].
    + rewrite <- app_assoc. f_equal. simpl. lia.
    + intros Ht. specialize (Hi Ht). cbn [has_interpolation] in Hi.
      by apply orb_false_iff in Hi as [_ Hi].
Qed.

(** A whole literal met between the arguments. *)
Lemma lex_literal (l : Literal) rest i state prevState urls :
  closing state = None →
  valid_literal l →
  lex (render_literal l ++ rest) i state prevState [] urls
  = let urls := urls ++ [mkDep (text l) (Z.of_nat i)
                               (Z.of_nat i + Z.of_nat (length (text l)) + 2)] in
    if decide (state = inCall) then (urls, Return false)
    else lex rest (i + length (text l) + 2) state state [] urls.
Proof.
  intros Hc (Hq & Hnotin & Hinterp). unfold render_literal. cbn [app].
  rewrite lex_in_code by done. rewrite <- app_assoc. cbn [app].
  assert (∀ st, closing st = Some (quote l) →
            (st = inTemplateString → quote l = backtick) →
            lex (text l ++ quote l :: rest) (S i) st state [] urls
            = let urls := urls ++ [mkDep (text l) (Z.of_nat i)
                               (Z.of_nat i + Z.of_nat (length (text l)) + 2)] in
              if decide (state = inCall) then (urls, Return false)
              else lex rest (i + length (text l) + 2) state state [] urls) as Hstr.
  { intros st Hst Ht. rewrite (lex_text (quote l)); [|done|done|auto].
    rewrite (lex_in_string (quote l)) by done. rewrite N.eqb_refl. cbn [app].
    unfold addDep. cbv zeta.
    replace (Z.of_nat (S i + length (text l)) - Z.of_nat (length (text l)) - 1)%Z
      with (Z.of_nat i) by lia.
    replace (Z.of_nat (S i + length (text l)) + 1)%Z
      with (Z.of_nat i + Z.of_nat (length (text l)) + 2)%Z by lia.
    replace (S (S i + length (text l))) with (i + length (text l) + 2) by lia.
    done. }
  destruct Hq as [Hq|[Hq|Hq]]; rewrite Hq in *.
  - rewrite N.eqb_refl. by apply Hstr.
  - cbn [N.eqb single_quote double_quote Pos.eqb]. by apply Hstr.
  - cbn [N.eqb single_quote double_quote backtick Pos.eqb]. by apply Hstr.
Qed.

(** The deps recorded for the elements of an array that starts at [i]. *)
Fixpoint item_deps (i : nat) (items : list (Literal * list char)) : list Dep :=
  match items with
  | [] => []
  | item :: items' =>
      mkDep (text item.1) (Z.of_nat i)
            (Z.of_nat i + Z.of_nat (length (text item.1)) + 2)
      :: item_deps (i + length (render_item item)) items'
  end.

Lemma item_deps_urls i items :
  url <$> item_deps i items = (λ item : Literal * list char, text item.1) <$> items.
Proof.
  revert i. induction items as [|item items IH]; intros i; [done|].
  cbn. by rewrite IH.
Qed.

Lemma lex_items (items : list (Literal * list char)) : ∀ rest i prevState urls,
  Forall (λ item : Literal * list char,
            valid_literal item.1 ∧
            Forall (λ c, is_separator c = true) item.2) items →
  lex (concat (render_item <$> items) ++ close_bracket :: rest) i inArray
      prevState [] urls
  = (urls ++ item_deps i items, Return false).
Proof.
  induction items as [|[l sep] items IH]; intros rest i prevState urls Hall.
  - cbn. by rewrite app_nil_r.
  - apply Forall_cons in Hall as [[Hl Hsep] Hall]. cbn in Hl, Hsep.
    cbn [fmap list_fmap concat]. unfold render_item at 1. cbn [fst snd].
    rewrite <- !app_assoc.
    rewrite lex_literal by done. cbv zeta. rewrite decide_False by done.
    rewrite lex_skip_separators by done.
    rewrite IH by done. cbn [item_deps fst snd].
    rewrite <- app_assoc. cbn [app].
    replace (i + length (render_item (l, sep)))
      with (i + length (text l) + 2 + length sep); [done|].
    unfold render_item, render_literal. cbn [fst snd].
    rewrite length_app. cbn [length]. rewrite length_app. cbn [length]. lia.
Qed.

(** C5, as the code has it.  The lexer reads back what a form was written
    from, the text of a literal being free of its own delimiter (escapes
    are not interpreted) and, in a template literal, of interpolations.
    For the array form [accept([l1, ..., ln], ...)], placed at [start] in
    any source, it returns [false] and adds exactly the literals [l1] ...
    [ln] in source order; for a first argument whose first character after
    white space is neither a string delimiter nor [[], it returns [true]
    and adds nothing. *)
Theorem lexAcceptedHmrDeps_roundtrip (before : list char) (f : AcceptForm)
    (urls : list Dep) :
  valid_form f →
  ∃ new,
    lexAcceptedHmrDeps (before ++ render f) (length before) urls
      = (urls ++ new, Return (self_accepts f)) ∧
    url <$> new = literals f.
Proof.
  intros Hv. unfold lexAcceptedHmrDeps. rewrite drop_app_length.
  destruct f as [ws sep items rest|ws c rest]; cbn [render valid_form] in *.
  - destruct Hv as (Hws & Hsep & Hitems).
    rewrite lex_skip_whitespace by done.
    rewrite lex_in_code by done.
    cbn [N.eqb open_bracket single_quote double_quote backtick Pos.eqb].
    replace (is_whitespace open_bracket) with false by (by vm_compute).
    rewrite decide_True by done.
    rewrite lex_skip_separators by done.
    rewrite lex_items by done.
    eexists. split; [done|]. apply item_deps_urls.
  - destruct Hv as (Hws & Hc & Hq & Hb).
    rewrite lex_skip_whitespace by done.
    rewrite lex_in_code by done.
    unfold is_quote in Hq.
    rewrite (proj2 (N.eqb_neq c single_quote)) by tauto.
    rewrite (proj2 (N.eqb_neq c double_quote)) by tauto.
    rewrite (proj2 (N.eqb_neq c backtick)) by tauto.
    rewrite Hc. rewrite decide_True by done.
    rewrite (proj2 (N.eqb_neq c open_bracket)) by done.
    exists []. by rewrite app_nil_r.
Qed.

End Lexer.

Example lex_array :
  Lexer.lexAcceptedHmrDeps (Lexer.code_units "accept(['./a', `b` ], cb)") 7 []
  = ([Lexer.mkDep (Lexer.code_units "./a") 8 13;
      Lexer.mkDep (Lexer.code_units "b") 15 18], Lexer.Return false).
Proof. vm_compute. reflexivity. Qed.

Example lex_callback :
  Lexer.lexAcceptedHmrDeps (Lexer.code_units "accept( () => {})") 7 []
  = ([], Lexer.Return true).
Proof. vm_compute. reflexivity. Qed.

Example lex_error :
  Lexer.lexAcceptedHmrDeps (Lexer.code_units "accept([dep])") 7 []
  = ([], Lexer.Throw 8).
Proof. vm_compute. reflexivity. Qed.

(** A source with an [accept] call in array form. *)
Lemma lexAcceptedHmrDeps_roundtrip_witness :
  ∃ new,
    Lexer.lexAcceptedHmrDeps
      (Lexer.code_units "accept(" ++
       Lexer.render
         (Lexer.ArrayForm [32%N] []
            [ (Lexer.mkLiteral Lexer.single_quote (Lexer.code_units "./a"),
               [Lexer.comma; 32%N]);
              (Lexer.mkLiteral Lexer.backtick (Lexer.code_units "$b"), [10%N]) ]
            (Lexer.code_units ", cb)")))
      7 []
    = ([] ++ new, Lexer.Return false) ∧
    Lexer.url <$> new = [Lexer.code_units "./a"; Lexer.code_units "$b"].
Proof.
  apply (Lexer.lexAcceptedHmrDeps_roundtrip (Lexer.code_units "accept(")).
  assert (∀ q l, Lexer.is_quote q → bool_decide (q ∈ l) = false →
            Lexer.has_interpolation l = false →
            Lexer.valid_literal (Lexer.mkLiteral q l)) as Hlit.
  { intros q l Hq Hl Hi. split_and!; [done| |done].
    cbn. by apply bool_decide_eq_false in Hl. }
  split_and!.
  - by repeat constructor.
  - constructor.
  - apply Forall_cons. split.
    { split; [apply Hlit; [by left|reflexivity..]|by repeat constructor]. }
    apply Forall_cons. split; [|constructor].
    split; [apply Hlit; [by right; right|reflexivity..]|by repeat constructor].
Defined.

(** ** transformRequest.ts *)

Module Transform.

(** How an [async] function or a promise ends. *)
Inductive Completion (E A : Type) :=
| Resolved (v : A)
| Rejected (e : E).
Arguments Resolved {E A}.
Arguments Rejected {E A}.

(** The errors of a transform: the one that [doTransform] throws itself
    for a file of the public directory, and whatever a plugin hook or the
    file system threw. *)
Inductive TransformError (Ext : Type) :=
| PublicFileError (url id : string)
| Thrown (e : Ext).
Arguments PublicFileError {Ext}.
Arguments Thrown {Ext}.

Record TransformOptions := mkOptions {
  ssr : option bool;
  html : option bool
}.

(** Truthiness of an optional boolean field. *)
Definition is_set (o : option bool) : bool := default false o.

(** The value of a [load] hook: a string, or [{code, map}]. *)
Inductive LoadResult (Ext : Type) :=
| LoadString (code : string)
| LoadObject (code : string) (map : option Ext).
Arguments LoadString {Ext}.
Arguments LoadObject {Ext}.

(** The value of the [transform] hook. *)
Record TransformOutput (Ext : Type) := {
  out_code : option string;
  out_map : option Ext
}.
Arguments out_code {Ext}.
Arguments out_map {Ext}.

(** [fs.readFile(file, 'utf-8')] *)
Inductive ReadResult (Ext : Type) :=
| ReadOk (content : string)
| ReadEnoent
| ReadError (e : Ext).
Arguments ReadOk {Ext}.
Arguments ReadEnoent {Ext}.
Arguments ReadError {Ext}.

(** The collaborators of the pipeline: the plugin container, the file
    system, the file-serving policy, the public directory check, and the
    source-map and etag helpers.  A hook either resolves or rejects with
    the value it threw. *)
Class Host (Ext : Type) := {
  plugin_resolveId : string → bool → Completion Ext (option (PartialResolvedId Ext));
  plugin_load : string → bool → Completion Ext (option (LoadResult Ext));
  plugin_transform : string → string → option Ext → bool →
                     Completion Ext (option (TransformOutput Ext));
  isFileServingAllowed : string → bool;
  readFile : string → ReadResult Ext;
  checkPublicFile : string → bool;
  (** the source map found in the code or next to the file; [None] also
      when looking for it throws, which is only logged *)
  sourceMapOf : string → string → option Ext;
  (** [typeof map === 'string' ? JSON.parse(map) : map], then
      [injectSourcesContent] when there are mappings without content *)
  withSourcesContent : Ext → string → Ext;
  ssrTransform : string → option Ext → string →
                 Completion Ext (option (TransformResult.t Ext));
  getEtag : string → string;
  (** the watcher after [ensureWatchedFile(watcher, file, root)] *)
  ensureWatchedFile : list string → option string → list string
}.

Record Server (Ext : Type) := mkServer {
  moduleGraph : ModuleGraph Ext;
  watcher : list string
}.
Arguments mkServer {Ext}.
Arguments moduleGraph {Ext}.
Arguments watcher {Ext}.

Section DoTransform.
Context {Ext : Type} `{Utils} `{Host Ext}.

Definition Outcome : Type :=
  Completion (TransformError Ext) (option (TransformResult.t Ext)).

(** The part of [doTransform] after a successful load: the entry in the
    graph, the watcher, the [transform] hook, the source map, the cache. *)
Definition transform_loaded (url id : string) (ssr : bool)
    (code : string) (map : option Ext) (server : Server Ext)
  : Outcome * Server Ext :=
  let '(mod_, g) := ensureEntryFromUrl (moduleGraph server) url ssr in
  let file := ModuleNode.file (node (arena g) mod_) in
  let server := mkServer g (ensureWatchedFile (watcher server) file) in
  match plugin_transform code id map ssr with
  | Rejected e => (Rejected (Thrown e), server)
  | Resolved transformResult =>
      let '(code, map) :=
        match transformResult with
        | Some {| out_code := Some code'; out_map := map' |} => (code', map')
        | _ => (code, map)
        end in
      let map :=
        match map, file with
        | Some m, Some f => Some (withSourcesContent m f)
        | _, _ => map
        end in
      if ssr then
        match ssrTransform code map url with
        | Rejected e => (Rejected (Thrown e), server)
        | Resolved r =>
            (Resolved r,
             mkServer (with_arena g
                         (alter (ModuleNode.set_ssrTransformResult r) mod_ (arena g)))
                      (watcher server))
        end
      else
        let r := TransformResult.mk code map (Some (getEtag code)) None None in
        (Resolved (Some r),
         mkServer (with_arena g
                     (alter (ModuleNode.set_transformResult (Some r)) mod_ (arena g)))
                  (watcher server))
  end.

(** The [try { code = await fs.readFile(file, 'utf-8') } catch] block:
    a missing file leaves [code] null, any other error is thrown again. *)
Definition read_fallback (file : string) : Completion Ext (option string) :=
  match readFile file with
  | ReadOk content => Resolved (Some content)
  | ReadEnoent => Resolved None
  | ReadError e => Rejected e
  end.

(** From [if (code == null)] on. *)
Definition after_load (url id : string) (ssr : bool)
    (code : option string) (map : option Ext) (server : Server Ext)
  : Outcome * Server Ext :=
  match code with
  | None =>
      if checkPublicFile url
      then (Rejected (PublicFileError url id), server)
      else (Resolved None, server)
  | Some code => transform_loaded url id ssr code map server
  end.

(** [doTransform(url, server, options)] *)
Definition doTransform (url : string) (server : Server Ext)
    (options : TransformOptions) : Outcome * Server Ext :=
  let url := removeTimestampQuery url in
  let ssr := is_set (ssr options) in
  let module := getModuleByUrl (moduleGraph server) url ssr in
  let cached :=
    m ← module;
    if ssr then ModuleNode.ssrTransformResult (node (arena (moduleGraph server)) m)
    else ModuleNode.transformResult (node (arena (moduleGraph server)) m) in
  match cached with
  | Some cached => (Resolved (Some cached), server)
  | None =>
      match plugin_resolveId url ssr with
      | Rejected e => (Rejected (Thrown e), server)
      | Resolved resolved =>
          let id := or_else (resolved_id <$> resolved) url in
          let file := cleanUrl id in
          match plugin_load id ssr with
          | Rejected e => (Rejected (Thrown e), server)
          | Resolved None =>
              if is_set (html options) && negb (endsWith id ".html")
              then (Resolved None, server)
              else
                let fallback :=
                  if is_set (Transform.ssr options) || isFileServingAllowed file
                  then read_fallback file else Resolved None in
                match fallback with
                | Rejected e => (Rejected (Thrown e), server)
                | Resolved code =>
                    let map :=
                      match code with
                      | Some c => if truthy c then sourceMapOf c file else None
                      | None => None
                      end in
                    after_load url id ssr code map server
                end
          | Resolved (Some (LoadObject code map)) =>
              after_load url id ssr (Some code) map server
          | Resolved (Some (LoadString code)) =>
              after_load url id ssr (Some code) None server
          end
      end
  end.


End DoTransform.
End Transform.

(** A host without plugins whose public directory holds [/robots.txt] and
    whose only source file is [/src/main.js]. *)
Module DemoHost.

#[global] Instance host : Transform.Host unit := {|
  Transform.plugin_resolveId := λ _ _, Transform.Resolved None;
  Transform.plugin_load := λ _ _, Transform.Resolved None;
  Transform.plugin_transform := λ _ _ _ _, Transform.Resolved None;
  Transform.isFileServingAllowed := λ _, true;
  Transform.readFile := λ file,
    if String.eqb file "/src/main.js"
    then Transform.ReadOk "export default 1"
    else Transform.ReadEnoent;
  Transform.checkPublicFile := λ url, String.eqb url "/robots.txt";
  Transform.sourceMapOf := λ _ _, None;
  Transform.withSourcesContent := λ m _, m;
  Transform.ssrTransform := λ _ _ _, Transform.Resolved None;
  Transform.getEtag := λ code, "W/" +:+ code;
  Transform.ensureWatchedFile := λ w file,
    match file with Some f => w ++ [f] | None => w end
|}.

Definition server : Transform.Server unit :=
  Transform.mkServer Demo.empty_graph [].

End DemoHost.

Example doTransform_source_file :
  (Transform.doTransform "/src/main.js" DemoHost.server
     (Transform.mkOptions None None)).1
  = Transform.Resolved
      (Some (TransformResult.mk "export default 1" None
               (Some "W/export default 1") None None)).
Proof. vm_compute. reflexivity. Qed.



(** ** transformRequest.ts: the in-flight requests

    [transformRequest] is the only code that touches
    [server._pendingRequests].  A promise is known by its identity, the
    number of the [doTransform] call that returned it.  What
    [request.then(done, done)] registers is kept with the computation: when
    the promise settles, fulfilled or rejected, the job [done] is queued,
    and when that job runs it deletes the cache key. *)

Module Pending.

Abbreviation Promise := nat.

Inductive Settlement := Fulfilled | Rejected.

Inductive Status :=
| InFlight
| Settled (how : Settlement)
| Done.

(** A call of [doTransform(url, server, options)] and the state of the
    promise it returned. *)
Record Computation := mkComputation {
  c_url : string;
  c_options : Transform.TransformOptions;
  c_cacheKey : string;
  c_status : Status
}.

Record State := mkState {
  _pendingRequests : gmap string Promise;
  computations : list Computation
}.

Definition initial : State := mkState ∅ [].

Definition cacheKey (url : string) (options : Transform.TransformOptions)
  : string :=
  (if Transform.is_set (Transform.ssr options) then "ssr:"
   else if Transform.is_set (Transform.html options) then "html:"
   else "") +:+ url.

(** [transformRequest(url, server, options)]: the promise returned. *)
Definition transformRequest (url : string)
    (options : Transform.TransformOptions) (st : State) : Promise * State :=
  let cacheKey := cacheKey url options in
  match _pendingRequests st !! cacheKey with
  | Some request => (request, st)
  | None =>
      let request := length (computations st) in
      (request,
       mkState (<[cacheKey := request]> (_pendingRequests st))
               (computations st ++ [mkComputation url options cacheKey InFlight]))
  end.

Definition set_status (s : Status) (c : Computation) : Computation :=
  mkComputation (c_url c) (c_options c) (c_cacheKey c) s.

(** The computation behind [p] completes: [then(done, done)] queues
    [done] whichever way it went. *)
Definition settle (p : Promise) (how : Settlement) (st : State) : State :=
  match computations st !! p with
  | Some c =>
      match c_status c with
      | InFlight =>
          mkState (_pendingRequests st)
                  (<[p := set_status (Settled how) c]> (computations st))
      | _ => st
      end
  | None => st
  end.

(** The queued job of [p] runs:
    [done = () => server._pendingRequests.delete(cacheKey)]. *)
Definition run_done (p : Promise) (st : State) : State :=
  match computations st !! p with
  | Some c =>
      match c_status c with
      | Settled _ =>
          mkState (delete (c_cacheKey c) (_pendingRequests st))
                  (<[p := set_status Done c]> (computations st))
      | _ => st
      end
  | None => st
  end.

(** What can happen between two points of a run. *)
Inductive Event :=
| Call (url : string) (options : Transform.TransformOptions)
| Settle (p : Promise) (how : Settlement)
| RunDone (p : Promise).

Definition step (st : State) (ev : Event) : State :=
  match ev with
  | Call url options => (transformRequest url options st).2
  | Settle p how => settle p how st
  | RunDone p => run_done p st
  end.

(** Every computation whose [done] has not run yet is the entry of its
    key. *)
Definition pending_ok (st : State) : Prop :=
  ∀ p c, computations st !! p = Some c → c_status c ≠ Done →
         _pendingRequests st !! c_cacheKey c = Some p.

Definition in_flight (st : State) (p : Promise) (key : string) : Prop :=
  ∃ c, computations st !! p = Some c ∧ c_cacheKey c = key ∧ c_status c = InFlight.

Lemma pending_ok_initial : pending_ok initial.
Proof. intros p c Hc. by destruct p. Qed.

Lemma transformRequest_ok url options st :
  pending_ok st → pending_ok (transformRequest url options st).2.
Proof.
  intros Hok. unfold transformRequest.
  destruct (_pendingRequests st !! cacheKey url options) eqn:E; [done|].
  intros p c Hc Hs. cbn [fst snd computations _pendingRequests] in *.
  apply lookup_app_Some in Hc as [Hc|[Hlen Hc]].
  - pose proof (Hok p c Hc Hs) as Hp.
    rewrite lookup_insert_ne; [done|]. intros Heq. by rewrite Heq, Hp in E.
  - apply list_lookup_singleton_Some in Hc as [Hp <-]. cbn.
    rewrite lookup_insert_eq. f_equal. lia.
Qed.

Lemma settle_ok p how st : pending_ok st → pending_ok (settle p how st).
Proof.
  intros Hok. unfold settle.
  destruct (computations st !! p) as [c|] eqn:E; [|done].
  destruct (c_status c) eqn:Es; [|done..].
  intros p' c' Hc Hs. cbn [fst snd computations _pendingRequests] in *.
  destruct (decide (p = p')) as [<-|Hne].
  - rewrite list_lookup_insert_eq in Hc by (by eapply lookup_lt_Some).
    injection Hc as <-. cbn. apply Hok; [done|]. by rewrite Es.
  - rewrite list_lookup_insert_ne in Hc by done. by apply Hok.
Qed.

Lemma run_done_ok p st : pending_ok st → pending_ok (run_done p st).
Proof.
  intros Hok. unfold run_done.
  destruct (computations st !! p) as [c|] eqn:E; [|done].
  destruct (c_status c) eqn:Es; [done| |done].
  intros p' c' Hc Hs. cbn [fst snd computations _pendingRequests] in *.
  destruct (decide (p = p')) as [<-|Hne].
  - rewrite list_lookup_insert_eq in Hc by (by eapply lookup_lt_Some).
    injection Hc as <-. done.
  - rewrite list_lookup_insert_ne in Hc by done.
    pose proof (Hok p' c' Hc Hs) as Hp'.
    rewrite lookup_delete_ne; [done|]. intros Heq.
    assert (_pendingRequests st !! c_cacheKey c = Some p) as Hp
      by (apply Hok; [done|by rewrite Es]).
    rewrite <- Heq, Hp in Hp'. by injection Hp'.
Qed.

Lemma step_ok st ev : pending_ok st → pending_ok (step st ev).
Proof.
  destruct ev; cbn; auto using transformRequest_ok, settle_ok, run_done_ok.
Qed.

(** A computation stays in flight as long as its promise does not settle. *)
Lemma step_in_flight st ev p key :
  in_flight st p key → (∀ how, ev ≠ Settle p how) → in_flight (step st ev) p key.
Proof.
  intros (c & Hc & Hk & Hs) Hev. destruct ev as [url options|p' how|p']; cbn.
  - unfold transformRequest. destruct (_ !! cacheKey url options); cbn.
    + by exists c.
    + exists c. split; [|done]. by apply lookup_app_l_Some.
  - unfold settle. destruct (decide (p' = p)) as [->|Hne].
    { by destruct (Hev how). }
    destruct (computations st !! p') as [c'|]; [|by exists c].
    destruct (c_status c'); try by exists c.
    exists c. cbn. by rewrite list_lookup_insert_ne.
  - unfold run_done. destruct (decide (p' = p)) as [->|Hne].
    { rewrite Hc, Hs. by exists c. }
    destruct (computations st !! p') as [c'|]; [|by exists c].
    destruct (c_status c'); try by exists c.
    exists c. cbn. by rewrite list_lookup_insert_ne.
Qed.

Lemma steps_keep st evs p key :
  pending_ok st → in_flight st p key →
  Forall (λ ev, ∀ how, ev ≠ Settle p how) evs →
  pending_ok (foldl step st evs) ∧ in_flight (foldl step st evs) p key.
Proof.
  revert st. induction evs as [|ev evs IH]; intros st Hok Hin Hevs; [done|].
  apply Forall_cons in Hevs as [Hev Hevs]. cbn [foldl].
  apply IH; [by apply step_ok|by apply step_in_flight|done].
Qed.

(** C4.  The cache key of a request is its url, prefixed with [ssr:] when
    [options.ssr] is set, else with [html:] when [options.html] is set.
    Let a call return the promise [request] of a computation in flight.
    Whatever happens next (other calls, other promises settling, [done]
    jobs running) as long as [request] has not settled, a call with the
    same cache key returns [request] itself and changes nothing: no second
    computation is started.  And when [request] settles, fulfilled or
    rejected, the [done] job that this queues removes the entry of the
    key. *)
Theorem transformRequest_dedup (st : State) (url url' : string)
    (options options' : Transform.TransformOptions) (evs : list Event)
    (how : Settlement) :
  let request := (transformRequest url options st).1 in
  let st1 := (transformRequest url options st).2 in
  let st2 := foldl step st1 evs in
  pending_ok st →
  in_flight st1 request (cacheKey url options) →
  Forall (λ ev, ∀ how, ev ≠ Settle request how) evs →
  cacheKey url' options' = cacheKey url options →
  cacheKey url options =
    (if Transform.is_set (Transform.ssr options) then "ssr:"
     else if Transform.is_set (Transform.html options) then "html:"
     else "") +:+ url ∧
  transformRequest url' options' st2 = (request, st2) ∧
  _pendingRequests (run_done request (settle request how st2))
    !! cacheKey url options = None.
Proof.
  intros request st1 st2 Hok Hin Hevs Hkey. split; [done|].
  assert (pending_ok st1) as Hok1 by (by apply transformRequest_ok).
  destruct (steps_keep st1 evs request _ Hok1 Hin Hevs) as [Hok2 Hin2].
  fold st2 in Hok2, Hin2. destruct Hin2 as (c & Hc & Hk & Hs).
  split.
  - unfold transformRequest. rewrite Hkey, <- Hk.
    rewrite (Hok2 request c Hc); [done|]. by rewrite Hs.
  - unfold settle. rewrite Hc, Hs. unfold run_done. cbn.
    rewrite list_lookup_insert_eq by (by eapply lookup_lt_Some). cbn.
    rewrite Hk. apply lookup_delete_eq.
Qed.

End Pending.

(** A request for [/src/main.js] is in flight while [/other.js] is
    requested and completes, and is then requested again. *)
Lemma transformRequest_dedup_witness :
  let st1 := (Pending.transformRequest "/src/main.js" (Transform.mkOptions None None)
                Pending.initial).2 in
  let st2 := foldl Pending.step st1
               [ Pending.Call "/other.js" (Transform.mkOptions None None);
                 Pending.Settle 1 Pending.Rejected;
                 Pending.RunDone 1 ] in
  Pending.transformRequest "/src/main.js" (Transform.mkOptions None (Some false)) st2
    = (0, st2) ∧
  Pending._pendingRequests
    (Pending.run_done 0 (Pending.settle 0 Pending.Fulfilled st2))
    !! "/src/main.js" = None.
Proof.
  cbv zeta.
  destruct (Pending.transformRequest_dedup Pending.initial
              "/src/main.js" "/src/main.js"
              (Transform.mkOptions None None) (Transform.mkOptions None (Some false))
              [ Pending.Call "/other.js" (Transform.mkOptions None None);
                Pending.Settle 1 Pending.Rejected;
                Pending.RunDone 1 ]
              Pending.Fulfilled) as (_ & Hsame & Hgone).
  - apply Pending.pending_ok_initial.
  - eexists. split_and!; reflexivity.
  - repeat constructor; intros how; discriminate.
  - reflexivity.
  - split; [exact Hsame|exact Hgone].
Defined.

(** C5, counterexample.  [accept(['a\'b'], cb)] is a valid array of one
    string literal, whose text has an escaped quote.  The lexer does not
    know escapes: it closes the literal at the escaped quote, records the
    two characters before it, and throws at the [b] that follows. *)
Lemma lexAcceptedHmrDeps_escaped_quote :
  Lexer.lexAcceptedHmrDeps (Lexer.code_units "accept(['a\'b'], cb)") 7 []
  = ([Lexer.mkDep (Lexer.code_units "a" ++ [92%N]) 8 12], Lexer.Throw 12).
Proof. vm_compute. reflexivity. Qed.

(** ** Two more end-to-end scenarios, by computation *)

Module MoreScenarios.

(** Scenario 3: [/A] imports [/B], neither accepts, nothing imports [/A]. *)
Definition dead_end_via_root : Arena unit :=
  [ ModuleNode.mk "/A" (Some "/A") (Some "/A") js None None
                  [] [1] [] false None None None 0%Z;
    ModuleNode.mk "/B" (Some "/B") (Some "/B") js None None
                  [0] [] [] false None None None 0%Z ].

(** Scenario 4: [/A] and [/B] import each other, neither accepts. *)
Definition circular : Arena unit :=
  [ ModuleNode.mk "/A" (Some "/A") (Some "/A") js None None
                  [1] [1] [] false None None None 0%Z;
    ModuleNode.mk "/B" (Some "/B") (Some "/B") js None None
                  [0] [0] [] false None None None 0%Z ].

End MoreScenarios.

Example dead_end_via_root_reloads :
  fst <$> Hmr.updateModules MoreScenarios.dead_end_via_root [1] 1000%Z
  = Some Hmr.FullReloadPayload.
Proof. reflexivity. Qed.

Example circular_reloads :
  fst <$> Hmr.updateModules MoreScenarios.circular [0] 1000%Z
  = Some Hmr.FullReloadPayload.
Proof. reflexivity. Qed.
(** ** Invariants of the module graph

    What the operations of [ModuleGraph] keep true of the three indices and
    of the edges, whatever the order in which they are called. *)

Section GraphInvariants.
Context {Ext : Type} `{Utils}.
Implicit Type g : ModuleGraph Ext.
Implicit Type a : Arena Ext.

(** The fields of a node that are assigned when it is created, and never
    again. *)
Definition ident (n : ModuleNode.t Ext) : string * option string * option string :=
  (ModuleNode.url n, ModuleNode.id n, ModuleNode.file n).

(** The references a node holds. *)
Definition refs_of (n : ModuleNode.t Ext) : list ref :=
  ModuleNode.importers n ++ ModuleNode.importedModules n
    ++ ModuleNode.acceptedHmrDeps n.

(** The two directions of an import edge. *)
Definition edges_of (n : ModuleNode.t Ext) : list ref * list ref :=
  (ModuleNode.importers n, ModuleNode.importedModules n).

(** Every reference is an object of the graph; an index entry leads to a
    node that carries the key; every node is filed under its file, and
    under its url when it has an id. *)
Record graph_wf g : Prop := {
  wf_refs : ∀ m d, d ∈ refs_of (node (arena g) m) → d < length (arena g);
  wf_url : ∀ u m, urlToModuleMap g !! u = Some m →
    m < length (arena g) ∧ ModuleNode.url (node (arena g) m) = u ∧
    is_Some (ModuleNode.id (node (arena g) m));
  wf_id : ∀ i m, JsMap.get (idToModuleMap g) i = Some m →
    m < length (arena g) ∧ ModuleNode.id (node (arena g) m) = Some i;
  wf_file : ∀ f ms m, fileToModulesMap g !! f = Some ms → m ∈ ms →
    m < length (arena g) ∧ ModuleNode.file (node (arena g) m) = Some f;
  wf_file_all : ∀ m, m < length (arena g) →
    ∃ f ms, ModuleNode.file (node (arena g) m) = Some f ∧
            fileToModulesMap g !! f = Some ms ∧ m ∈ ms;
  wf_url_all : ∀ m, m < length (arena g) →
    is_Some (ModuleNode.id (node (arena g) m)) →
    urlToModuleMap g !! ModuleNode.url (node (arena g) m) = Some m
}.

(** Invariant 1 of the data model: [b ∈ a.importedModules] exactly when
    [a ∈ b.importers]. *)
Definition edges_symmetric g : Prop :=
  ∀ m d, d ∈ ModuleNode.importedModules (node (arena g) m) ↔
         m ∈ ModuleNode.importers (node (arena g) d).

Lemma node_dangling a (m : ref) : ¬ m < length a → node a m = inhabitant.
Proof.
  intros Hm. unfold node. rewrite list_lookup_total_alt.
  by rewrite (lookup_ge_None_2 a m) by lia.
Qed.

Lemma node_app_cases a (n : ModuleNode.t Ext) (m : ref) :
  node (a ++ [n]) m =
  if decide (m < length a) then node a m
  else if decide (m = length a) then n else inhabitant.
Proof.
  destruct (decide (m < length a)) as [Hlt|Hge]; [by apply node_app_l|].
  destruct (decide (m = length a)) as [->|Hne]; [apply node_app_new|].
  apply node_dangling. rewrite length_app. simpl. lia.
Qed.

Lemma graph_wf_new_graph resolve : graph_wf (new_graph resolve).
Proof.
  split; unfold new_graph;
    cbn [arena urlToModuleMap idToModuleMap fileToModulesMap].
  - intros m d Hd. rewrite node_dangling in Hd by (simpl; lia).
    by apply elem_of_nil in Hd.
  - intros u m Hu. by rewrite lookup_empty in Hu.
  - done.
  - intros f ms m Hf. by rewrite lookup_empty in Hf.
  - intros m Hm. simpl in Hm. lia.
  - intros m Hm. simpl in Hm. lia.
Qed.

Lemma edges_symmetric_new_graph resolve : edges_symmetric (new_graph resolve).
Proof.
  intros m d. unfold new_graph. cbn [arena].
  rewrite !node_dangling by (simpl; lia). simpl.
  split; intros []%elem_of_nil.
Qed.

(** Mutating nodes in place keeps the graph well formed when the fixed
    fields stay and the references stay live. *)
Lemma graph_wf_with_arena g a' :
  graph_wf g → length a' = length (arena g) →
  (∀ d, ident (node a' d) = ident (node (arena g) d)) →
  (∀ m d, d ∈ refs_of (node a' m) → d < length a') →
  graph_wf (with_arena g a').
Proof.
  intros [R U I F FA UA] L Hid Hrefs.
  assert (∀ d, ModuleNode.url (node a' d) = ModuleNode.url (node (arena g) d)) as Hu
    by (intros d; specialize (Hid d); by injection Hid).
  assert (∀ d, ModuleNode.id (node a' d) = ModuleNode.id (node (arena g) d)) as Hi
    by (intros d; specialize (Hid d); by injection Hid).
  assert (∀ d, ModuleNode.file (node a' d) = ModuleNode.file (node (arena g) d)) as Hf
    by (intros d; specialize (Hid d); by injection Hid).
  split; simpl.
  - done.
  - intros u m Hm. rewrite L, Hu, Hi. by apply U.
  - intros i m Hm. rewrite L, Hi. by apply I.
  - intros f ms m Hms Hm. rewrite L, Hf. by eapply F.
  - intros m Hm. rewrite Hf. apply FA. lia.
  - intros m Hm. rewrite Hi, Hu. apply UA. lia.
Qed.

(** The common part of the two ways in which a node is created: it is
    appended to the arena and added to the set of its file. *)
Lemma refs_of_app_new a (n : ModuleNode.t Ext) (m d : ref) :
  refs_of n = [] → (∀ m d, d ∈ refs_of (node a m) → d < length a) →
  d ∈ refs_of (node (a ++ [n]) m) → d < length (a ++ [n]).
Proof.
  intros Hn Hold. rewrite node_app_cases, length_app. simpl.
  destruct (decide (m < length a)).
  - intros Hd. apply Hold in Hd. lia.
  - destruct (decide (m = length a)).
    + rewrite Hn. by intros []%elem_of_nil.
    + by intros []%elem_of_nil.
Qed.

Lemma ensureEntryFromUrl_wf g rawUrl ssr :
  graph_wf g → graph_wf (ensureEntryFromUrl g rawUrl ssr).2.
Proof.
  intros Hwf. unfold ensureEntryFromUrl.
  destruct (resolveUrl g rawUrl ssr) as [[url rid] meta].
  destruct (urlToModuleMap g !! url) as [m0|] eqn:E; [done|].
  destruct Hwf as [R U I F FA UA]. cbn [snd].
  set (n := ModuleNode.set_file _ _).
  assert (ModuleNode.url n = url) as Hnu by (subst n; by destruct meta).
  assert (ModuleNode.id n = Some rid) as Hni by (subst n; by destruct meta).
  assert (ModuleNode.file n = Some (cleanUrl rid)) as Hnf
    by (subst n; by destruct meta).
  assert (refs_of n = []) as Hrn by (subst n; by destruct meta).
  split; cbn [arena urlToModuleMap idToModuleMap fileToModulesMap].
  - intros m d. by apply refs_of_app_new.
  - intros u m Hm. rewrite node_app_cases, length_app. simpl.
    destruct (decide (u = url)) as [->|Hne].
    + rewrite lookup_insert_eq in Hm. injection Hm as <-.
      rewrite decide_False by lia. rewrite decide_True by done.
      rewrite Hnu, Hni. split_and!; [lia|done|by eexists].
    + rewrite lookup_insert_ne in Hm by done.
      destruct (U u m Hm) as (Hl & Hu & Hi).
      rewrite decide_True by done. split_and!; [lia|done..].
  - intros i m Hm. rewrite node_app_cases, length_app. simpl.
    destruct (decide (rid = i)) as [->|Hne].
    + rewrite JsMap.get_set_eq in Hm. injection Hm as <-.
      rewrite decide_False by lia. rewrite decide_True by done.
      split; [lia|done].
    + rewrite JsMap.get_set_ne in Hm by done.
      destruct (I i m Hm) as (Hl & Hi).
      rewrite decide_True by done. split; [lia|done].
  - intros f ms m Hms Hm. rewrite node_app_cases, length_app. simpl.
    destruct (decide (f = cleanUrl rid)) as [->|Hne].
    + rewrite lookup_insert_eq in Hms. injection Hms as <-.
      apply JsSet.elem_of_add in Hm as [Hm| ->].
      * destruct (fileToModulesMap g !! cleanUrl rid) as [ms0|] eqn:E0;
          [|by apply elem_of_nil in Hm].
        destruct (F _ _ _ E0 Hm) as [Hl Hf].
        rewrite decide_True by done. split; [lia|done].
      * rewrite decide_False by lia. rewrite decide_True by done.
        split; [lia|done].
    + rewrite lookup_insert_ne in Hms by done.
      destruct (F _ _ _ Hms Hm) as [Hl Hf].
      rewrite decide_True by done. split; [lia|done].
  - intros m Hm. rewrite length_app in Hm. simpl in Hm.
    rewrite node_app_cases.
    destruct (decide (m < length (arena g))) as [Hlt|Hge].
    + destruct (FA m Hlt) as (f & ms & Hf & Hms & Hin).
      destruct (decide (f = cleanUrl rid)) as [->|Hne].
      * exists (cleanUrl rid), (JsSet.add ms (length (arena g))).
        unfold ref in *. rewrite lookup_insert_eq, Hms. split_and!; [done..|].
        apply JsSet.elem_of_add. by left.
      * exists f, ms. by rewrite lookup_insert_ne.
    + rewrite decide_True by lia.
      eexists _, _. split; [done|]. rewrite lookup_insert_eq.
      split; [done|]. apply JsSet.elem_of_add. right. lia.
  - intros m Hm. rewrite length_app in Hm. simpl in Hm.
    rewrite node_app_cases.
    destruct (decide (m < length (arena g))) as [Hlt|Hge].
    + intros Hi. specialize (UA m Hlt Hi).
      rewrite lookup_insert_ne; [done|].
      intros Heq. rewrite <- Heq in UA. unfold ref in *. congruence.
    + rewrite decide_True by lia. intros _. rewrite Hnu.
      rewrite lookup_insert_eq. f_equal. lia.
Qed.

Lemma createFileOnlyEntry_wf g file :
  graph_wf g → graph_wf (createFileOnlyEntry g file).2.
Proof.
  intros [R U I F FA UA]. unfold createFileOnlyEntry.
  set (f0 := normalizePath file).
  set (files := match fileToModulesMap g !! f0 with
                | Some _ => fileToModulesMap g
                | None => <[f0 := []]> (fileToModulesMap g) end).
  assert (∀ f ms m, files !! f = Some ms → m ∈ ms →
            fileToModulesMap g !! f = Some ms) as Hfiles.
  { intros f ms m Hms Hm. subst files.
    destruct (fileToModulesMap g !! f0) eqn:E0; [done|].
    destruct (decide (f = f0)) as [->|Hne].
    - rewrite lookup_insert_eq in Hms. injection Hms as <-.
      by apply elem_of_nil in Hm.
    - by rewrite lookup_insert_ne in Hms. }
  assert (∀ f ms, fileToModulesMap g !! f = Some ms → files !! f = Some ms)
    as Hfiles'.
  { intros f ms Hms. subst files.
    destruct (fileToModulesMap g !! f0) eqn:E0; [done|].
    rewrite lookup_insert_ne; [done|]. congruence. }
  destruct (List.find _ _) as [m0|] eqn:Efind; cbn [snd].
  - split; cbn [arena urlToModuleMap idToModuleMap fileToModulesMap]; try done.
    + intros f ms m Hms Hm. eapply F; [|done]. by eapply Hfiles.
    + intros m Hm. destruct (FA m Hm) as (f & ms & Hf & Hms & Hin).
      exists f, ms. split_and!; [done| |done]. by apply Hfiles'.
  - set (n := ModuleNode.set_file _ _).
    assert (refs_of n = []) as Hrn by done.
    split; cbn [arena urlToModuleMap idToModuleMap fileToModulesMap].
    + intros m d. by apply refs_of_app_new.
    + intros u m Hm. destruct (U u m Hm) as (Hl & Hu & Hi).
      rewrite node_app_cases, length_app. simpl.
      rewrite decide_True by done. split_and!; [lia|done..].
    + intros i m Hm. destruct (I i m Hm) as (Hl & Hi).
      rewrite node_app_cases, length_app. simpl.
      rewrite decide_True by done. split; [lia|done].
    + intros f ms m Hms Hm. rewrite node_app_cases, length_app. simpl.
      destruct (decide (f = f0)) as [->|Hne].
      * rewrite lookup_insert_eq in Hms. injection Hms as <-.
        apply JsSet.elem_of_add in Hm as [Hm| ->].
        -- destruct (fileToModulesMap g !! f0) as [ms0|] eqn:E0;
             [|by apply elem_of_nil in Hm].
           destruct (F _ _ _ E0 Hm) as [Hl Hf].
           rewrite decide_True by done. split; [lia|done].
        -- rewrite decide_False by lia. rewrite decide_True by done.
           split; [lia|done].
      * rewrite lookup_insert_ne in Hms by done.
        destruct (F f ms m) as [Hl Hf]; [by eapply Hfiles|done|].
        rewrite decide_True by done. split; [lia|done].
    + intros m Hm. rewrite length_app in Hm. simpl in Hm.
      rewrite node_app_cases.
      destruct (decide (m < length (arena g))) as [Hlt|Hge].
      * destruct (FA m Hlt) as (f & ms & Hf & Hms & Hin).
        destruct (decide (f = f0)) as [->|Hne].
        -- exists f0, (JsSet.add ms (length (arena g))).
           unfold ref in *. rewrite lookup_insert_eq, Hms. split_and!; [done..|].
           apply JsSet.elem_of_add. by left.
        -- exists f, ms. rewrite lookup_insert_ne by done.
           split_and!; [done| |done]. by apply Hfiles'.
      * rewrite decide_True by lia.
        eexists _, _. split; [done|]. rewrite lookup_insert_eq.
        split; [done|]. apply JsSet.elem_of_add. right. lia.
    + intros m Hm. rewrite length_app in Hm. simpl in Hm.
      rewrite node_app_cases.
      destruct (decide (m < length (arena g))) as [Hlt|Hge]; [by apply UA|].
      rewrite decide_True by lia. by intros [? [=]].
Qed.

(** *** [updateModuleInfo] keeps the invariants *)

Lemma edges_of_app_new a (n : ModuleNode.t Ext) (m : ref) :
  edges_of n = ([], []) → edges_of (node (a ++ [n]) m) = edges_of (node a m).
Proof.
  intros Hn. rewrite node_app_cases.
  destruct (decide (m < length a)); [done|].
  rewrite (node_dangling a m) by done. by destruct (decide (m = length a)).
Qed.

Lemma edges_symmetric_edges g g' :
  (∀ m, edges_of (node (arena g') m) = edges_of (node (arena g) m)) →
  edges_symmetric g → edges_symmetric g'.
Proof.
  intros He Hs m d.
  pose proof (He m) as Hm. pose proof (He d) as Hd.
  unfold edges_of in Hm, Hd. injection Hm as _ ->. injection Hd as -> _.
  apply Hs.
Qed.

Lemma ensureEntryFromUrl_edges g rawUrl ssr (m : ref) :
  edges_of (node (arena (ensureEntryFromUrl g rawUrl ssr).2) m)
  = edges_of (node (arena g) m).
Proof.
  pose proof (ensureEntryFromUrl_frame g rawUrl ssr) as (Ha & _).
  cbv zeta in Ha. destruct Ha as [->|(n & -> & _ & Hi & Hc & _)]; [done|].
  apply edges_of_app_new. unfold edges_of. by rewrite Hi, Hc.
Qed.

Lemma createFileOnlyEntry_edges g file (m : ref) :
  edges_of (node (arena (createFileOnlyEntry g file).2) m)
  = edges_of (node (arena g) m).
Proof.
  unfold createFileOnlyEntry.
  destruct (List.find _ _); cbn [snd arena]; [done|].
  by apply edges_of_app_new.
Qed.

(** Resolving an entry of an argument set: the node is an object of the
    graph afterwards. *)
Lemma entry_node_wf g (x : string + ref) ssr :
  graph_wf g → (∀ d, x = inr d → d < length (arena g)) →
  let dep := (entry_node g x ssr).1 in
  let g1 := (entry_node g x ssr).2 in
  graph_wf g1 ∧ dep < length (arena g1) ∧
  length (arena g) ≤ length (arena g1) ∧
  ∀ m, edges_of (node (arena g1) m) = edges_of (node (arena g) m).
Proof.
  intros Hwf Hx. destruct x as [u|d]; cbn [entry_node]; cbv zeta.
  - pose proof (ensureEntryFromUrl_wf g u ssr Hwf) as Hwf1.
    pose proof (ensureEntryFromUrl_frame g u ssr) as (Ha & _ & _ & Hl).
    cbv zeta in Ha, Hl. split_and!.
    + done.
    + by destruct (wf_url _ Hwf1 _ _ Hl) as [? _].
    + destruct Ha as [->|(n & -> & _)]; [done|]. rewrite length_app. lia.
    + apply ensureEntryFromUrl_edges.
  - cbn [fst snd]. split_and!; [done|by apply Hx|done..].
Qed.

Lemma refs_of_alter a (f : ModuleNode.t Ext → ModuleNode.t Ext) (r m d : ref) :
  (∀ n d, d ∈ refs_of (f n) → d ∈ refs_of n) →
  d ∈ refs_of (node (alter f r a) m) → d ∈ refs_of (node a m).
Proof.
  intros Hf. destruct (decide (r = m)) as [->|Hne].
  - rewrite node_alter_total. case_decide; [apply Hf|done].
  - by rewrite node_alter_ne.
Qed.

(** [dep.importers.add(mod); mod.importedModules.add(dep)] *)
Lemma link_nodes a (m0 dep : ref) :
  m0 < length a → dep < length a →
  let a' :=
    alter (λ n, ModuleNode.set_importedModules
                  (JsSet.add (ModuleNode.importedModules n) dep) n) m0
      (alter (λ n, ModuleNode.set_importers
                     (JsSet.add (ModuleNode.importers n) m0) n) dep a) in
  (∀ m, ModuleNode.importers (node a' m) =
        if decide (m = dep) then JsSet.add (ModuleNode.importers (node a m)) m0
        else ModuleNode.importers (node a m)) ∧
  (∀ m, ModuleNode.importedModules (node a' m) =
        if decide (m = m0)
        then JsSet.add (ModuleNode.importedModules (node a m)) dep
        else ModuleNode.importedModules (node a m)) ∧
  (∀ X (proj : ModuleNode.t Ext → X),
     (∀ v n, proj (ModuleNode.set_importers v n) = proj n) →
     (∀ v n, proj (ModuleNode.set_importedModules v n) = proj n) →
     ∀ m, proj (node a' m) = proj (node a m)).
Proof.
  intros Hm Hd. cbv zeta. split_and!.
  - intros m. rewrite (node_alter_field ModuleNode.importers) by done.
    case_decide as Hc.
    + subst m. by rewrite node_alter_eq.
    + by rewrite node_alter_ne.
  - intros m. case_decide as Hc.
    + subst m. rewrite node_alter_eq by (by rewrite length_alter). simpl.
      by rewrite (node_alter_field ModuleNode.importedModules).
    + rewrite node_alter_ne by done.
      by rewrite (node_alter_field ModuleNode.importedModules).
  - intros X proj P1 P2 m.
    rewrite (node_alter_field proj) by (intros; apply P2).
    by rewrite (node_alter_field proj) by (intros; apply P1).
Qed.

(** One half of invariant 1: every import has its back edge. *)
Definition imports_mirrored g : Prop :=
  ∀ m d, d ∈ ModuleNode.importedModules (node (arena g) m) →
         m ∈ ModuleNode.importers (node (arena g) d).

(** The edges while the first loop of [updateModuleInfo] runs: forward
    edges all have their back edge; a back edge without its forward edge
    is one of the previous imports of [m0]. *)
Definition half_linked (m0 : ref) (prev : list ref) g : Prop :=
  imports_mirrored g ∧
  (∀ m d, m ∈ ModuleNode.importers (node (arena g) d) →
          d ∈ ModuleNode.importedModules (node (arena g) m) ∨
          (m = m0 ∧ d ∈ prev)).

Lemma elem_of_refs_of (n : ModuleNode.t Ext) (d : ref) :
  d ∈ refs_of n ↔
  d ∈ ModuleNode.importers n ∨ d ∈ ModuleNode.importedModules n ∨
  d ∈ ModuleNode.acceptedHmrDeps n.
Proof. unfold refs_of. by rewrite !elem_of_app. Qed.

Lemma add_import_inv (m0 : ref) prev ssr g (x : string + ref) :
  graph_wf g → m0 < length (arena g) →
  (∀ d, x = inr d → d < length (arena g)) →
  let g' := add_import m0 ssr g x in
  graph_wf g' ∧ length (arena g) ≤ length (arena g') ∧
  (imports_mirrored g → imports_mirrored g') ∧
  (half_linked m0 prev g → half_linked m0 prev g').
Proof.
  intros Hwf Hm Hx. cbv zeta. unfold add_import.
  pose proof (entry_node_wf g x ssr Hwf Hx) as (Hwf1 & Hd & L & He).
  cbv zeta in *. destruct (entry_node g x ssr) as [dep g1]. cbn [fst snd] in *.
  assert (m0 < length (arena g1)) as Hm1 by lia.
  pose proof (link_nodes (arena g1) m0 dep Hm1 Hd) as (Himp & Hnext & Hproj).
  cbv zeta in *.
  set (a' := alter _ m0 _) in *.
  assert (length a' = length (arena g1)) as La
    by (subst a'; by rewrite !length_alter).
  split_and!.
  - apply graph_wf_with_arena; [done|done| |].
    + intros d. by apply Hproj.
    + intros m d. rewrite elem_of_refs_of, Himp, Hnext, La.
      rewrite (Hproj _ ModuleNode.acceptedHmrDeps) by done.
      intros Hin. destruct (decide (d = m0)) as [->|]; [done|].
      destruct (decide (d = dep)) as [->|]; [done|].
      apply (wf_refs _ Hwf1 m d). rewrite elem_of_refs_of.
      destruct Hin as [Hin|[Hin|Hin]].
      * left. case_decide; [|done].
        apply JsSet.elem_of_add in Hin as [?|?]; done.
      * right; left. case_decide; [|done].
        apply JsSet.elem_of_add in Hin as [?|?]; done.
      * by right; right.
  - cbn [arena with_arena]. lia.
  - intros HA.
    assert (∀ m, ModuleNode.importers (node (arena g1) m)
                 = ModuleNode.importers (node (arena g) m)) as E1
      by (intros m; specialize (He m); by injection He).
    assert (∀ m, ModuleNode.importedModules (node (arena g1) m)
                 = ModuleNode.importedModules (node (arena g) m)) as E2
      by (intros m; specialize (He m); by injection He).
    unfold imports_mirrored. cbn [arena with_arena].
    intros m d; rewrite Himp, Hnext, E1, E2.
    destruct (decide (m = m0)) as [->|Hne], (decide (d = dep)) as [->|Hne'];
      rewrite ?JsSet.elem_of_add; intros Hin.
    + by right.
    + destruct Hin as [Hin|?]; [by apply HA|done].
    + left. by apply HA.
    + by apply HA.
  - intros [HA HB].
    assert (∀ m, ModuleNode.importers (node (arena g1) m)
                 = ModuleNode.importers (node (arena g) m)) as E1
      by (intros m; specialize (He m); by injection He).
    assert (∀ m, ModuleNode.importedModules (node (arena g1) m)
                 = ModuleNode.importedModules (node (arena g) m)) as E2
      by (intros m; specialize (He m); by injection He).
    split; [unfold imports_mirrored|]; cbn [arena with_arena]; intros m d;
      rewrite Himp, Hnext, E1, E2.
    + destruct (decide (m = m0)) as [->|Hne], (decide (d = dep)) as [->|Hne'];
        rewrite ?JsSet.elem_of_add; intros Hin.
      * by right.
      * destruct Hin as [Hin|?]; [by apply HA|done].
      * left. by apply HA.
      * by apply HA.
    + destruct (decide (m = m0)) as [->|Hne], (decide (d = dep)) as [->|Hne'];
        rewrite ?JsSet.elem_of_add; intros Hin.
      * left. by right.
      * destruct (HB _ _ Hin) as [?|?]; [by left; left|by right].
      * destruct Hin as [Hin|?]; [|done]. by apply HB.
      * by apply HB.
Qed.

Lemma add_import_foldl_inv (m0 : ref) prev ssr (I : list (string + ref)) : ∀ g,
  graph_wf g → m0 < length (arena g) →
  (∀ d, inr d ∈ I → d < length (arena g)) →
  let g' := foldl (add_import m0 ssr) g I in
  graph_wf g' ∧ length (arena g) ≤ length (arena g') ∧
  (imports_mirrored g → imports_mirrored g') ∧
  (half_linked m0 prev g → half_linked m0 prev g').
Proof.
  induction I as [|x I IH]; intros g Hwf Hm Hlive; cbn [foldl]; cbv zeta.
  - done.
  - destruct (add_import_inv m0 prev ssr g x Hwf Hm) as (Hwf1 & L1 & M1 & H1).
    { intros d ->. apply Hlive. by left. }
    cbv zeta in *.
    destruct (IH (add_import m0 ssr g x) Hwf1) as (Hwf2 & L2 & M2 & H2); [lia| |].
    { intros d Hd. specialize (Hlive d). rewrite elem_of_cons in Hlive.
      specialize (Hlive (or_intror Hd)). lia. }
    cbv zeta in *. split_and!; [done|lia|auto|auto].
Qed.

Lemma add_accepted_inv (m0 : ref) ssr g (x : string + ref) :
  graph_wf g → m0 < length (arena g) →
  (∀ d, x = inr d → d < length (arena g)) →
  let g' := add_accepted m0 ssr g x in
  graph_wf g' ∧ length (arena g) ≤ length (arena g') ∧
  ∀ m, edges_of (node (arena g') m) = edges_of (node (arena g) m).
Proof.
  intros Hwf Hm Hx. cbv zeta. unfold add_accepted.
  pose proof (entry_node_wf g x ssr Hwf Hx) as (Hwf1 & Hd & L & He).
  cbv zeta in *. destruct (entry_node g x ssr) as [dep g1]. cbn [fst snd] in *.
  split_and!.
  - apply graph_wf_with_arena; [done|apply length_alter| |].
    + intros d. by apply node_alter_field.
    + intros m d. rewrite length_alter.
      destruct (decide (m0 = m)) as [<-|Hne].
      * rewrite node_alter_eq by lia. rewrite elem_of_refs_of. simpl.
        rewrite JsSet.elem_of_add. intros Hin.
        destruct (decide (d = dep)) as [->|Hne]; [done|].
        apply (wf_refs _ Hwf1 m0 d). rewrite elem_of_refs_of. tauto.
      * rewrite node_alter_ne by done. apply (wf_refs _ Hwf1).
  - cbn [arena with_arena]. rewrite length_alter. lia.
  - intros m. cbn [arena with_arena].
    rewrite (node_alter_field edges_of) by done. apply He.
Qed.

Lemma add_accepted_foldl_inv (m0 : ref) ssr (A : list (string + ref)) : ∀ g,
  graph_wf g → m0 < length (arena g) →
  (∀ d, inr d ∈ A → d < length (arena g)) →
  let g' := foldl (add_accepted m0 ssr) g A in
  graph_wf g' ∧ length (arena g) ≤ length (arena g') ∧
  ∀ m, edges_of (node (arena g') m) = edges_of (node (arena g) m).
Proof.
  induction A as [|x A IH]; intros g Hwf Hm Hlive; cbn [foldl]; cbv zeta.
  - done.
  - destruct (add_accepted_inv m0 ssr g x Hwf Hm) as (Hwf1 & L1 & H1).
    { intros d ->. apply Hlive. by left. }
    cbv zeta in *.
    destruct (IH (add_accepted m0 ssr g x) Hwf1) as (Hwf2 & L2 & H2); [lia| |].
    { intros d Hd. specialize (Hlive d). rewrite elem_of_cons in Hlive.
      specialize (Hlive (or_intror Hd)). lia. }
    cbv zeta in *. split_and!; [done|lia|].
    intros m. by rewrite H2, H1.
Qed.

(** The graph when the first loop of [updateModuleInfo] starts. *)
Lemma import_reset_inv g (m0 : ref) (s : bool) :
  graph_wf g → m0 < length (arena g) →
  let prev := ModuleNode.importedModules (node (arena g) m0) in
  let G0 :=
    with_arena g
      (alter (ModuleNode.set_importedModules []) m0
         (alter (ModuleNode.set_isSelfAccepting s) m0 (arena g))) in
  graph_wf G0 ∧ length (arena G0) = length (arena g) ∧
  (imports_mirrored g → imports_mirrored G0) ∧
  (edges_symmetric g → half_linked m0 prev G0).
Proof.
  intros Hwf Hm. cbv zeta.
  set (a0 := alter (ModuleNode.set_isSelfAccepting s) m0 (arena g)).
  set (prev := ModuleNode.importedModules (node (arena g) m0)) in *.
  set (G0 := with_arena g (alter (ModuleNode.set_importedModules []) m0 a0)).
  assert (length (arena G0) = length (arena g)) as L0
    by (subst G0 a0; cbn [arena with_arena]; by rewrite !length_alter).
  assert (∀ m, ModuleNode.importers (node (arena G0) m)
               = ModuleNode.importers (node (arena g) m)) as Himp0.
  { intros m. subst G0 a0. cbn [arena with_arena].
    by rewrite !(node_alter_field ModuleNode.importers). }
  assert (∀ m, ModuleNode.importedModules (node (arena G0) m)
               = if decide (m = m0) then []
                 else ModuleNode.importedModules (node (arena g) m)) as Hnext0.
  { intros m. subst G0 a0. cbn [arena with_arena]. case_decide as Hc.
    - subst m. by rewrite node_alter_eq by (by rewrite length_alter).
    - by rewrite !node_alter_ne. }
  assert (∀ M : imports_mirrored g, imports_mirrored G0) as HM.
  { intros M m d. rewrite Himp0, Hnext0.
    case_decide; [by intros []%elem_of_nil|]. apply M. }
  split_and!; [|done|done|].
  - subst G0 a0. apply graph_wf_with_arena; [done|by rewrite !length_alter| |].
    + intros d. by rewrite !(node_alter_field ident).
    + intros m d Hin. rewrite !length_alter. apply (wf_refs _ Hwf m d).
      revert Hin. intros Hin%refs_of_alter.
      * revert Hin. by apply refs_of_alter.
      * clear. intros n d. rewrite !elem_of_refs_of. simpl.
        intros [?|[[]%elem_of_nil|?]]; tauto.
  - intros Hsym. split; [apply HM; intros m d; apply Hsym|].
    intros m d. rewrite Himp0, Hnext0. intros Hin. apply Hsym in Hin.
    case_decide as Hc; [right; by subst m|by left].
Qed.

(** [updateModuleInfo] on a live module, handed live nodes. *)
Lemma updateModuleInfo_inv g (m0 : ref) (I A : list (string + ref)) (s ssr : bool) :
  graph_wf g → m0 < length (arena g) →
  (∀ d, inr d ∈ I ++ A → d < length (arena g)) →
  let g' := (updateModuleInfo g m0 I A s ssr).2 in
  graph_wf g' ∧ (imports_mirrored g → imports_mirrored g') ∧
  (edges_symmetric g → edges_symmetric g').
Proof.
  intros Hwf Hm Hlive. cbv zeta.
  destruct (import_reset_inv g m0 s Hwf Hm) as (Hwf0 & L0 & M0 & H0).
  cbv zeta in *. unfold updateModuleInfo.
  set (a0 := alter (ModuleNode.set_isSelfAccepting s) m0 (arena g)) in *.
  assert (ModuleNode.importedModules (node a0 m0)
          = ModuleNode.importedModules (node (arena g) m0)) as ->
    by (by apply node_alter_field).
  set (prev := ModuleNode.importedModules (node (arena g) m0)) in *.
  set (G0 := with_arena g (alter (ModuleNode.set_importedModules []) m0 a0)) in *.
  (* first loop *)
  destruct (add_import_foldl_inv m0 prev ssr I G0 Hwf0) as (Hwf1 & L1 & M1 & H1);
    [lia| |].
  { intros d Hd. rewrite L0. apply Hlive. apply elem_of_app. by left. }
  cbv zeta in *. set (g1 := foldl (add_import m0 ssr) G0 I) in *.
  (* second loop *)
  pose proof (drop_import_foldl m0 prev (arena g1) None)
    as (L2 & P2 & I2 & _ & _).
  cbv zeta in *.
  destruct (foldl (drop_import m0) (arena g1, None) prev) as [a2 nli].
  cbn [fst snd] in *.
  set (next := ModuleNode.importedModules (node (arena g1) m0)) in *.
  set (a3 := alter (ModuleNode.set_acceptedHmrDeps []) m0 a2).
  assert (graph_wf (with_arena g1 a3)) as Hwf3.
  { subst a3. apply graph_wf_with_arena; [done|by rewrite length_alter| |].
    - intros d. rewrite (node_alter_field ident) by done.
      by apply (P2 _ ident).
    - intros m d Hin. rewrite length_alter, L2. apply (wf_refs _ Hwf1 m d).
      apply refs_of_alter in Hin.
      2:{ clear. intros n d. rewrite !elem_of_refs_of. simpl.
          intros [?|[?|[]%elem_of_nil]]; tauto. }
      revert Hin. rewrite !elem_of_refs_of, I2.
      rewrite (P2 _ ModuleNode.importedModules) by done.
      rewrite (P2 _ ModuleNode.acceptedHmrDeps) by done.
      intros [Hin|?]; [|tauto]. left. case_decide; [|done].
      unfold gone_importers in Hin. by apply JsSet.elem_of_delete in Hin as [? _]. }
  (* third loop *)
  destruct (add_accepted_foldl_inv m0 ssr A (with_arena g1 a3) Hwf3)
    as (HwfF & LF & HF).
  { subst a3. cbn [arena with_arena]. rewrite length_alter. lia. }
  { intros d Hd. subst a3. cbn [arena with_arena]. rewrite length_alter, L2.
    assert (d < length (arena g)); [|lia].
    apply Hlive. apply elem_of_app. by right. }
  cbv zeta in *. cbn [snd].
  assert (∀ m d,
            (d ∈ ModuleNode.importedModules
                   (node (arena (foldl (add_accepted m0 ssr) (with_arena g1 a3) A)) m)
             ↔ d ∈ ModuleNode.importedModules (node (arena g1) m)) ∧
            (m ∈ ModuleNode.importers
                   (node (arena (foldl (add_accepted m0 ssr) (with_arena g1 a3) A)) d)
             ↔ m ∈ (if decide (d ∈ prev ∧ d ∉ next)
                    then gone_importers m0 (arena g1) d
                    else ModuleNode.importers (node (arena g1) d)))) as Hfin.
  { intros m d.
    pose proof (HF m) as Em. pose proof (HF d) as Ed.
    unfold edges_of in Em, Ed. injection Em as _ ->. injection Ed as -> _.
    subst a3. cbn [arena with_arena].
    rewrite (node_alter_field ModuleNode.importedModules) by done.
    rewrite (node_alter_field ModuleNode.importers) by done.
    rewrite I2. by rewrite (P2 _ ModuleNode.importedModules) by done. }
  assert (∀ HA : imports_mirrored g1,
            imports_mirrored (foldl (add_accepted m0 ssr) (with_arena g1 a3) A))
    as Hfwd.
  { intros HA m d. destruct (Hfin m d) as [-> ->].
    intros Hin. pose proof (HA _ _ Hin) as Hback.
    case_decide as Hc; [|done]. unfold gone_importers.
    apply JsSet.elem_of_delete. split; [done|]. intros ->. tauto. }
  split_and!; [done|by intros M; apply Hfwd, M1, M0|].
  intros Hsym. destruct (H1 (H0 Hsym)) as [HA HB].
  intros m d. split; [by apply Hfwd|].
  destruct (Hfin m d) as [-> ->]. unfold gone_importers.
  case_decide as Hc.
  - intros [Hin Hne]%JsSet.elem_of_delete.
    destruct (HB _ _ Hin) as [?|[? _]]; done.
  - intros Hin. destruct (HB _ _ Hin) as [?|[-> Hp]]; [done|].
    apply dec_stable. intros Hn. apply Hc. by split.
Qed.

(** [updateModuleInfo] when resolves may reject, on a live module handed
    live nodes.  The references stay live and every import keeps its back
    edge however the call ends; the back edges are all imports again when
    the first loop has run to its end. *)
Lemma updateModuleInfo_rejecting_inv rejects g (m0 : ref)
    (I A : list (string + ref)) (s ssr : bool) :
  graph_wf g → m0 < length (arena g) →
  (∀ d, inr d ∈ I ++ A → d < length (arena g)) →
  let g' := (Rejecting.updateModuleInfo rejects g m0 I A s ssr).2 in
  graph_wf g' ∧ (imports_mirrored g → imports_mirrored g') ∧
  (resolves rejects 0 I → edges_symmetric g → edges_symmetric g').
Proof.
  intros Hwf Hm Hlive. cbv zeta.
  destruct (updateModuleInfo_cases rejects g m0 I A s ssr)
    as [(k & Hk & Hrej & ->)|[(k & Hk & Hres & ->)|(Hres & ->)]]; cbn [snd].
  - destruct (import_reset_inv g m0 s Hwf Hm) as (Hwf0 & L0 & M0 & _).
    cbv zeta in *.
    destruct (add_import_foldl_inv m0 [] ssr (take k I) _ Hwf0)
      as (Hwf1 & _ & M1 & _); [lia| |].
    { intros d Hd. rewrite L0. apply Hlive. apply elem_of_app. left.
      by apply (subseteq_take k). }
    cbv zeta in *. split_and!; [done|auto|done].
  - destruct (updateModuleInfo_inv g m0 I (take k A) s ssr Hwf Hm)
      as (Hwf1 & M1 & S1).
    { intros d [Hd|Hd]%elem_of_app; apply Hlive, elem_of_app; [by left|right].
      by apply (subseteq_take k). }
    cbv zeta in *. split_and!; [done|done|auto].
  - destruct (updateModuleInfo_inv g m0 I A s ssr Hwf Hm Hlive)
      as (Hwf1 & M1 & S1).
    cbv zeta in *. split_and!; [done|done|auto].
Qed.

End GraphInvariants.

(** ** Walks up the importers

    [invalidateSSRModule] of the module graph and [invalidate] of the HMR
    code are the same walk: visit a node unless it was seen, then go on to
    its importers.  They differ in what a visit does to the node and in
    the importers they go on to.  The walk is studied once, for any visit
    that leaves the edges alone. *)

Section Walk.
Context {Ext : Type}.
Implicit Type a : Arena Ext.
Variable visit : ModuleNode.t Ext → ModuleNode.t Ext.
Variable follow : ModuleNode.t Ext → ref → bool.

Fixpoint walk_fuel (fuel : nat) a (mod_ : ref) (seen : list ref)
  : option (Arena Ext * list ref) :=
  match fuel with
  | O => None
  | S fuel' =>
      if JsSet.has seen mod_ then Some (a, seen)
      else
        let seen := JsSet.add seen mod_ in
        let a := alter visit mod_ a in
        foldM (λ '(a, seen) importer,
                 if follow (node a importer) mod_
                 then walk_fuel fuel' a importer seen
                 else Some (a, seen))
              (a, seen) (ModuleNode.importers (node a mod_))
  end.

(** An edge the walk goes along, and what it reaches. *)
Definition walk_edge a (x y : ref) : Prop :=
  y ∈ ModuleNode.importers (node a x) ∧ follow (node a y) x = true.

Definition walk_reach a : ref → ref → Prop := rtc (walk_edge a).

(** A set of nodes that the walk cannot leave. *)
Definition walk_closed a (seen : list ref) : Prop :=
  ∀ x y, x ∈ seen → walk_edge a x y → y ∈ seen.

(** The arena after the nodes of [seen' ∖ seen] were visited. *)
Definition visited (seen seen' : list ref) a a' : Prop :=
  length a' = length a ∧
  ∀ x, node a' x =
       if decide (x ∈ seen' ∧ (x ∉ seen) ∧ x < length a) then visit (node a x)
       else node a x.

Hypothesis visit_importers :
  ∀ n, ModuleNode.importers (visit n) = ModuleNode.importers n.
Hypothesis visit_follow : ∀ n m, follow (visit n) m = follow n m.

Lemma visited_refl seen a : visited seen seen a a.
Proof.
  split; [done|]. intros x. rewrite decide_False; [done|]. tauto.
Qed.

Lemma visited_trans s1 s2 s3 a1 a2 a3 :
  (∀ x, x ∈ s1 → x ∈ s2) → (∀ x, x ∈ s2 → x ∈ s3) →
  visited s1 s2 a1 a2 → visited s2 s3 a2 a3 → visited s1 s3 a1 a3.
Proof.
  intros S12 S23 [L12 V12] [L23 V23]. split; [congruence|].
  intros x. rewrite V23, V12, L12.
  pose proof (S12 x). pose proof (S23 x).
  destruct (decide (x ∈ s2)); repeat case_decide; try done; exfalso; tauto.
Qed.

Lemma visited_edges seen seen' a a' (x y : ref) :
  visited seen seen' a a' → walk_edge a' x y ↔ walk_edge a x y.
Proof.
  intros [_ V]. unfold walk_edge. rewrite !V.
  destruct (decide (x ∈ seen' ∧ (x ∉ seen) ∧ x < length a)),
           (decide (y ∈ seen' ∧ (y ∉ seen) ∧ y < length a));
    by rewrite ?visit_importers, ?visit_follow.
Qed.

Lemma visited_reach seen seen' a a' (x y : ref) :
  visited seen seen' a a' → walk_reach a' x y ↔ walk_reach a x y.
Proof.
  intros V. unfold walk_reach. split; intros R.
  - induction R as [|x y z E _ IH]; [done|].
    eapply rtc_l; [|exact IH]. exact (proj1 (visited_edges _ _ _ _ x y V) E).
  - induction R as [|x y z E _ IH]; [done|].
    eapply rtc_l; [|exact IH]. exact (proj2 (visited_edges _ _ _ _ x y V) E).
Qed.

Lemma visited_first seen a (m : ref) :
  m ∉ seen → visited seen (JsSet.add seen m) a (alter visit m a).
Proof.
  intros Hm. split; [apply length_alter|]. intros x.
  destruct (decide (m = x)) as [<-|Hne].
  - rewrite node_alter_total. case_decide as Hl.
    + rewrite decide_True; [done|]. rewrite JsSet.elem_of_add. tauto.
    + rewrite decide_False; [done|]. tauto.
  - rewrite node_alter_ne by done. rewrite decide_False; [done|].
    rewrite JsSet.elem_of_add. intros ([?|?]&?&?); [done|]. by subst.
Qed.

(** The walk returns when the fuel exceeds the number of live nodes not
    seen yet; it visits exactly the new members of [seen], all of which
    are reached from [mod_] and have their followed importers in [seen]. *)
Lemma walk_fuel_spec (fuel : nat) : ∀ a (mod_ : ref) seen,
  length (unseen (length a) seen) < fuel →
  ∃ a' seen',
    walk_fuel fuel a mod_ seen = Some (a', seen') ∧
    visited seen seen' a a' ∧
    (∀ x, x ∈ seen → x ∈ seen') ∧ mod_ ∈ seen' ∧
    (∀ x, x ∈ seen' → x ∉ seen →
          walk_reach a mod_ x ∧ ∀ y, walk_edge a x y → y ∈ seen') ∧
    length (unseen (length a) seen') ≤ length (unseen (length a) seen).
Proof.
  induction fuel as [|fuel IH]; intros a m seen Hfuel; [lia|].
  cbn [walk_fuel].
  destruct (JsSet.has seen m) eqn:Hseen.
  { apply JsSet.has_true in Hseen. exists a, seen.
    split_and!; [done|apply visited_refl|done..]. }
  apply JsSet.has_false in Hseen.
  set (a1 := alter visit m a). set (seen1 := JsSet.add seen m).
  pose proof (visited_first seen a m Hseen) as V1. fold a1 seen1 in V1.
  assert (ModuleNode.importers (node a1 m) = ModuleNode.importers (node a m))
    as Himp by (subst a1; by apply node_alter_field).
  rewrite Himp.
  assert (∀ x, x ∈ seen → x ∈ seen1) as S1
    by (intros x Hx; apply JsSet.elem_of_add; by left).
  assert (m ∈ seen1) as Hm1 by (apply JsSet.elem_of_add; by right).
  assert (length (unseen (length a) seen1) ≤ length (unseen (length a) seen))
    as Hle1 by (by apply unseen_add_le).
  (* the loop over the importers *)
  assert (∀ imps a2 seen2,
    visited seen1 seen2 a1 a2 → (∀ x, x ∈ seen1 → x ∈ seen2) →
    (m < length a → length (unseen (length a) seen2) < fuel) →
    (¬ m < length a → imps = []) →
    ∃ a' seen',
      foldM (λ '(a, seen) importer,
               if follow (node a importer) m
               then walk_fuel fuel a importer seen
               else Some (a, seen)) (a2, seen2) imps = Some (a', seen') ∧
      visited seen2 seen' a2 a' ∧
      (∀ x, x ∈ seen2 → x ∈ seen') ∧
      (∀ i, i ∈ imps → follow (node a i) m = true → i ∈ seen') ∧
      (∀ x, x ∈ seen' → x ∉ seen2 →
            (∃ i, i ∈ imps ∧ follow (node a i) m = true ∧ walk_reach a i x) ∧
            ∀ y, walk_edge a x y → y ∈ seen') ∧
      length (unseen (length a) seen') ≤ length (unseen (length a) seen2))
    as Hloop.
  { induction imps as [|i imps IHi]; intros a2 seen2 V2 S2 Hf Hdead;
      cbn [foldM].
    { exists a2, seen2. split_and!; [done|apply visited_refl|done| | |done].
      - by intros i []%elem_of_nil.
      - done. }
    assert (m < length a) as Hlive.
    { apply dec_stable. intros Hn. by specialize (Hdead Hn). }
    specialize (Hf Hlive).
    assert (visited seen seen2 a a2) as V02
      by (eapply visited_trans; [| |exact V1|exact V2]; done).
    assert (length a2 = length a) as L2 by (by destruct V02).
    assert (follow (node a2 i) m = follow (node a i) m) as ->.
    { destruct V02 as [_ V]. rewrite V. case_decide; [apply visit_follow|done]. }
    destruct (follow (node a i) m) eqn:Hfol.
    - destruct (IH a2 i seen2) as (a3 & seen3 & -> & V3 & S3 & Hi3 & C3 & Hle3);
        [by rewrite L2|].
      rewrite L2 in Hle3.
      destruct (IHi a3 seen3) as (a' & seen' & -> & V' & S' & Hi' & C' & Hle').
      { eapply visited_trans; [| |exact V2|exact V3]; done. }
      { auto. }
      { intros _. lia. }
      { intros Hn. done. }
      exists a', seen'.
      split_and!; [done| |auto| | |lia].
      + eapply visited_trans; [| |exact V3|exact V']; done.
      + intros j [->|Hj]%elem_of_cons Hfj; [auto|by apply Hi'].
      + intros x Hx Hx2. destruct (decide (x ∈ seen3)) as [Hx3|Hx3].
        * destruct (C3 x Hx3 Hx2) as [R3 E3]. split.
          -- exists i. split; [by left|]. split; [done|].
             exact (proj1 (visited_reach _ _ _ _ i x V02) R3).
          -- intros y Hy. apply S'. apply E3.
             exact (proj2 (visited_edges _ _ _ _ x y V02) Hy).
        * destruct (C' x Hx Hx3) as [(j & Hj & Hfj & Rj) E']. split; [|done].
          exists j. split; [by right|done].
    - destruct (IHi a2 seen2) as (a' & seen' & -> & V' & S' & Hi' & C' & Hle');
        [done..|by intros _|done|].
      exists a', seen'. split_and!; [done..| | |done].
      + intros j [->|Hj]%elem_of_cons Hfj; [congruence|by apply Hi'].
      + intros x Hx Hx2. destruct (C' x Hx Hx2) as [(j & Hj & Hfj & Rj) E'].
        split; [|done]. exists j. split; [by right|done]. }
  destruct (Hloop (ModuleNode.importers (node a m)) a1 seen1)
    as (a' & seen' & -> & V' & S' & Hi' & C' & Hle').
  { apply visited_refl. }
  { done. }
  { intros Hlive. pose proof (unseen_add_lt (length a) seen m Hseen Hlive).
    fold seen1 in H. lia. }
  { intros Hdead. by apply importers_dangling. }
  exists a', seen'. split_and!; [done| |auto|auto| |lia].
  - eapply visited_trans; [| |exact V1|exact V']; done.
  - intros x Hx Hx0. destruct (decide (x = m)) as [->|Hne].
    + split; [apply rtc_refl|]. intros y [Hy Hfy]. by apply Hi'.
    + assert (x ∉ seen1) as Hx1.
      { subst seen1. rewrite JsSet.elem_of_add. tauto. }
      destruct (C' x Hx Hx1) as [(i & Hi & Hfi & Ri) E']. split; [|done].
      eapply rtc_l; [|exact Ri]. by split.
Qed.

(** From a closed set the walk ends in a closed set: what was seen
    together with what [mod_] reaches. *)
Lemma walk_fuel_closed (fuel : nat) a (mod_ : ref) seen :
  length (unseen (length a) seen) < fuel → walk_closed a seen →
  ∃ a' seen',
    walk_fuel fuel a mod_ seen = Some (a', seen') ∧
    visited seen seen' a a' ∧ walk_closed a seen' ∧
    ∀ x, x ∈ seen' ↔ x ∈ seen ∨ walk_reach a mod_ x.
Proof.
  intros Hfuel Hclosed.
  destruct (walk_fuel_spec fuel a mod_ seen Hfuel)
    as (a' & seen' & E & V & S & Hm & C & _).
  exists a', seen'. split_and!; [done..| |].
  - intros x y Hx Hxy. destruct (decide (x ∈ seen)) as [Hs|Hs].
    + apply S. by eapply Hclosed.
    + destruct (C x Hx Hs) as [_ Hc]. by apply Hc.
  - intros x. split.
    + intros Hx. destruct (decide (x ∈ seen)) as [Hs|Hs]; [by left|].
      right. by apply C.
    + intros [Hx|Hr]; [by apply S|].
      assert (∀ u v, rtc (walk_edge a) u v → u ∈ seen' → v ∈ seen') as Hall.
      { intros u v R. induction R as [|u v w Huv _ IHr]; [done|].
        intros Hu. apply IHr. destruct (decide (u ∈ seen)) as [Hs|Hs].
        - apply S. by eapply Hclosed.
        - destruct (C u Hu Hs) as [_ Hc]. by apply Hc. }
      by eapply Hall.
Qed.

End Walk.

(** ** Invalidation in the module graph *)

Section GraphInvalidation.
Context {Ext : Type} `{Utils}.
Implicit Type g : ModuleGraph Ext.
Implicit Type a : Arena Ext.

Lemma foldM_ext {S X : Type} (f1 f2 : S → X → option S) :
  (∀ s x, f1 s x = f2 s x) → ∀ xs s, foldM f1 s xs = foldM f2 s xs.
Proof.
  intros Hf xs. induction xs as [|x xs IH]; intros s; cbn [foldM]; [done|].
  rewrite Hf. destruct (f2 s x); [apply IH|done].
Qed.

(** [importer] is one of the importers of [x]. *)
Definition imported_by a (x importer : ref) : Prop :=
  importer ∈ ModuleNode.importers (node a x).

(** A set of nodes that holds the importers of its members. *)
Definition closed_up a (seen : list ref) : Prop :=
  ∀ x y, x ∈ seen → imported_by a x y → y ∈ seen.

(** [invalidateSSRModule] goes on to every importer. *)
Definition always (n : ModuleNode.t Ext) (m : ref) : bool := true.

(** What [invalidateModule] assigns before it walks. *)
Definition clear_caches (n : ModuleNode.t Ext) : ModuleNode.t Ext :=
  ModuleNode.set_ssrTransformResult None
    (ModuleNode.set_transformResult None (ModuleNode.set_info None n)).

Definition caches (n : ModuleNode.t Ext)
  : option Ext * option (TransformResult.t Ext) * option (TransformResult.t Ext) :=
  (ModuleNode.info n, ModuleNode.transformResult n, ModuleNode.ssrTransformResult n).

Lemma invalidateSSRModule_fuel_walk (fuel : nat) : ∀ a (m : ref) seen,
  invalidateSSRModule_fuel fuel a m seen
  = walk_fuel (ModuleNode.set_ssrModule None) always fuel a m seen.
Proof.
  induction fuel as [|fuel IH]; intros a m seen; [done|].
  cbn [invalidateSSRModule_fuel walk_fuel].
  destruct (JsSet.has seen m); [done|].
  apply foldM_ext. intros [a' seen'] x. apply IH.
Qed.

Lemma invalidateModule_walk a (m : ref) seen :
  invalidateModule a m seen
  = walk_fuel (ModuleNode.set_ssrModule None) always
      (S (length a)) (alter clear_caches m a) m seen.
Proof.
  unfold invalidateModule, invalidateSSRModule.
  rewrite invalidateSSRModule_fuel_walk, !length_alter.
  by rewrite !list_alter_alter_eq.
Qed.

Lemma walk_edge_always a (x y : ref) : walk_edge always a x y ↔ imported_by a x y.
Proof. unfold walk_edge, imported_by, always. tauto. Qed.

Lemma walk_reach_always a (x y : ref) :
  walk_reach always a x y ↔ rtc (imported_by a) x y.
Proof.
  unfold walk_reach. split; intros R.
  - induction R as [|u v w E _ IH]; [done|].
    eapply rtc_l; [|exact IH]. exact (proj1 (walk_edge_always a u v) E).
  - induction R as [|u v w E _ IH]; [done|].
    eapply rtc_l; [|exact IH]. exact (proj2 (walk_edge_always a u v) E).
Qed.

Lemma imported_by_same a a' :
  (∀ x, ModuleNode.importers (node a' x) = ModuleNode.importers (node a x)) →
  ∀ x y, rtc (imported_by a') x y ↔ rtc (imported_by a) x y.
Proof.
  intros Hi x y. split; intros R.
  - induction R as [|u v w E _ IH]; [done|].
    apply (rtc_l _ u v w); [|exact IH]. unfold imported_by in *.
    by rewrite <- Hi.
  - induction R as [|u v w E _ IH]; [done|].
    apply (rtc_l _ u v w); [|exact IH]. unfold imported_by in *.
    by rewrite Hi.
Qed.

Lemma closed_up_same a a' seen :
  (∀ x, ModuleNode.importers (node a' x) = ModuleNode.importers (node a x)) →
  closed_up a seen → closed_up a' seen.
Proof.
  intros Hi Hc x y Hx Hxy. apply (Hc x y Hx). unfold imported_by in *.
  by rewrite <- Hi.
Qed.

(** One [invalidateModule(mod, seen)]. *)
Lemma invalidateModule_spec a (m : ref) seen :
  closed_up a seen →
  ∃ a' seen',
    invalidateModule a m seen = Some (a', seen') ∧
    length a' = length a ∧ closed_up a seen' ∧
    (∀ x, x ∈ seen' ↔ x ∈ seen ∨ rtc (imported_by a) m x) ∧
    (∀ x, caches (node a' x) =
          if decide (x = m) then (None, None, None) else caches (node a x)) ∧
    (∀ x, ModuleNode.ssrModule (node a' x) =
          if decide (x ∈ seen' ∧ (x ∉ seen)) then None
          else ModuleNode.ssrModule (node a x)) ∧
    (∀ X (proj : ModuleNode.t Ext → X),
       (∀ v n, proj (ModuleNode.set_info v n) = proj n) →
       (∀ v n, proj (ModuleNode.set_transformResult v n) = proj n) →
       (∀ v n, proj (ModuleNode.set_ssrTransformResult v n) = proj n) →
       (∀ v n, proj (ModuleNode.set_ssrModule v n) = proj n) →
       ∀ x, proj (node a' x) = proj (node a x)).
Proof.
  intros Hclosed. rewrite invalidateModule_walk.
  set (a0 := alter clear_caches m a).
  assert (length a0 = length a) as L0 by apply length_alter.
  assert (∀ x, ModuleNode.importers (node a0 x) = ModuleNode.importers (node a x))
    as Hi0 by (intros x; by apply node_alter_field).
  destruct (walk_fuel_closed (ModuleNode.set_ssrModule None) always
              (λ n, eq_refl) (λ n m, eq_refl) (S (length a)) a0 m seen)
    as (a' & seen' & E & [L V] & C & R).
  { rewrite <- L0. pose proof (unseen_le_len (length a0) seen). lia. }
  { intros x y Hx Hxy%walk_edge_always. apply (Hclosed x y Hx).
    unfold imported_by in *. by rewrite <- Hi0. }
  exists a', seen'. split_and!; [done|congruence| | | | |].
  - intros x y Hx Hxy. apply (C x y Hx). apply walk_edge_always.
    unfold imported_by in *. by rewrite Hi0.
  - intros x. rewrite R, walk_reach_always.
    by rewrite (imported_by_same a a0 Hi0).
  - intros x. rewrite V.
    assert (caches (node a0 x) =
            if decide (x = m) then (None, None, None) else caches (node a x))
      as E0.
    { subst a0. case_decide as Hc.
      - subst x. rewrite node_alter_total. case_decide as Hl; [done|].
        by rewrite node_dangling.
      - by rewrite node_alter_ne. }
    rewrite <- E0.
    by destruct (decide (x ∈ seen' ∧ (x ∉ seen) ∧ x < length a0)).
  - intros x. rewrite V.
    assert (ModuleNode.ssrModule (node a0 x) = ModuleNode.ssrModule (node a x))
      as E0 by (by apply node_alter_field).
    destruct (decide (x ∈ seen' ∧ (x ∉ seen) ∧ x < length a0)) as [Hc|Hc].
    + rewrite decide_True by tauto. done.
    + rewrite E0. case_decide as Hc'; [|done].
      rewrite node_dangling; [done|]. rewrite <- L0. tauto.
  - intros X proj P1 P2 P3 P4 x. rewrite V.
    assert (proj (node a0 x) = proj (node a x)) as E0.
    { subst a0. apply node_alter_field. intros n. unfold clear_caches.
      by rewrite P3, P2, P1. }
    case_decide; [by rewrite P4|done].
Qed.

(** The loop of [onFileChange] and of [invalidateAll], which share
    [seen]. *)
Lemma invalidate_modules_spec (mods : list ref) : ∀ a seen,
  closed_up a seen →
  ∃ a' seen',
    foldM (λ '(a, seen) mod_, invalidateModule a mod_ seen) (a, seen) mods
    = Some (a', seen') ∧
    length a' = length a ∧ closed_up a seen' ∧
    (∀ x, x ∈ seen' ↔ x ∈ seen ∨ ∃ m, m ∈ mods ∧ rtc (imported_by a) m x) ∧
    (∀ x, caches (node a' x) =
          if decide (x ∈ mods) then (None, None, None) else caches (node a x)) ∧
    (∀ x, ModuleNode.ssrModule (node a' x) =
          if decide (x ∈ seen' ∧ (x ∉ seen)) then None
          else ModuleNode.ssrModule (node a x)) ∧
    (∀ X (proj : ModuleNode.t Ext → X),
       (∀ v n, proj (ModuleNode.set_info v n) = proj n) →
       (∀ v n, proj (ModuleNode.set_transformResult v n) = proj n) →
       (∀ v n, proj (ModuleNode.set_ssrTransformResult v n) = proj n) →
       (∀ v n, proj (ModuleNode.set_ssrModule v n) = proj n) →
       ∀ x, proj (node a' x) = proj (node a x)).
Proof.
  induction mods as [|m mods IH]; intros a seen Hclosed; cbn [foldM].
  { exists a, seen. split_and!; [done|done|done| | | |done].
    - intros x. split; [by left|]. intros [?|(m & []%elem_of_nil & _)]. done.
    - intros x. rewrite decide_False; [done|]. by intros ?%elem_of_nil.
    - intros x. rewrite decide_False; [done|]. tauto. }
  destruct (invalidateModule_spec a m seen Hclosed)
    as (a1 & seen1 & -> & L1 & C1 & R1 & K1 & S1 & P1).
  assert (∀ x, ModuleNode.importers (node a1 x) = ModuleNode.importers (node a x))
    as Hi1 by (intros x; by apply (P1 _ ModuleNode.importers)).
  destruct (IH a1 seen1) as (a' & seen' & -> & L' & C' & R' & K' & S' & P').
  { by apply (closed_up_same a). }
  exists a', seen'. split_and!; [done|congruence| | | | |].
  - apply (closed_up_same a1); [|done]. intros x. by rewrite Hi1.
  - intros x. rewrite R', R1. split.
    + intros [[?|?]|(m' & Hm' & Hr)]; [by left| |].
      * right. exists m. split; [by left|done].
      * right. exists m'. split; [by right|].
        by apply (imported_by_same a a1 Hi1).
    + intros [?|(m' & [->|Hm']%elem_of_cons & Hr)]; [by left; left| |].
      * by left; right.
      * right. exists m'. split; [done|].
        by apply (imported_by_same a a1 Hi1).
  - intros x. rewrite K', K1.
    destruct (decide (x ∈ mods)) as [C1'|C1'], (decide (x = m)) as [C2'|C2'],
             (decide (x ∈ m :: mods)) as [Hc|Hc];
      try done; exfalso; rewrite elem_of_cons in Hc; tauto.
  - intros x. rewrite S', S1.
    assert (x ∈ seen → x ∈ seen1) by (intros ?; apply R1; by left).
    assert (x ∈ seen1 → x ∈ seen') by (intros ?; apply R'; by left).
    destruct (decide (x ∈ seen1));
      repeat case_decide; try done; exfalso; tauto.
  - intros X proj Q1 Q2 Q3 Q4 x. by rewrite P', P1.
Qed.

End GraphInvalidation.

(** ** The module graph over any sequence of calls *)

Section GraphTheorems.
Context {Ext : Type} `{Utils}.
Implicit Type g : ModuleGraph Ext.
Implicit Type a : Arena Ext.

(** The nodes handed to [updateModuleInfo] are objects of the graph. *)
Definition args_live g (o : GraphOp) : Prop :=
  match o with
  | OpUpdateModuleInfo mod_ imported accepted _ _ =>
      mod_ < length (arena g) ∧
      ∀ d, inr d ∈ imported ++ accepted → d < length (arena g)
  | _ => True
  end.


(** The fields that no invalidation assigns. *)
Definition kept_by_invalidation (n : ModuleNode.t Ext) :=
  (ident n, ModuleNode.type n, ModuleNode.meta n, ModuleNode.importers n,
   ModuleNode.importedModules n, ModuleNode.acceptedHmrDeps n,
   ModuleNode.isSelfAccepting n, ModuleNode.lastHMRTimestamp n).

(** The loop of [onFileChange] and [invalidateAll], from an empty [seen]. *)
Lemma invalidate_modules_graph g (mods : list ref) :
  ∃ a',
    (foldM (λ '(a, seen) mod_, invalidateModule a mod_ seen) (arena g, []) mods
       ≫= λ '(a, _), Some (with_arena g a)) = Some (with_arena g a') ∧
    length a' = length (arena g) ∧
    (∀ x, caches (node a' x) =
          if decide (x ∈ mods) then (None, None, None)
          else caches (node (arena g) x)) ∧
    (∀ x, (∃ m, m ∈ mods ∧ rtc (imported_by (arena g)) m x) →
          ModuleNode.ssrModule (node a' x) = None) ∧
    (∀ x, ¬ (∃ m, m ∈ mods ∧ rtc (imported_by (arena g)) m x) →
          ModuleNode.ssrModule (node a' x)
          = ModuleNode.ssrModule (node (arena g) x)) ∧
    (∀ x, kept_by_invalidation (node a' x)
          = kept_by_invalidation (node (arena g) x)).
Proof.
  destruct (invalidate_modules_spec mods (arena g) [])
    as (a' & seen' & -> & L & _ & R & K & S & P).
  { by intros x y []%elem_of_nil. }
  exists a'. split_and!; [done..| | |].
  - intros x Hx. rewrite S. rewrite decide_True; [done|].
    split; [|by intros ?%elem_of_nil]. apply R. by right.
  - intros x Hx. rewrite S. rewrite decide_False; [done|].
    intros [[[]%elem_of_nil|?]%R _]. done.
  - intros x. by apply (P _ kept_by_invalidation).
Qed.

Lemma invalidated_graph_wf g a' :
  graph_wf g → length a' = length (arena g) →
  (∀ x, kept_by_invalidation (node a' x)
        = kept_by_invalidation (node (arena g) x)) →
  graph_wf (with_arena g a') ∧
  ∀ m, edges_of (node a' m) = edges_of (node (arena g) m).
Proof.
  intros Hwf L K. split.
  - apply graph_wf_with_arena; [done..| |].
    + intros d. specialize (K d). unfold kept_by_invalidation in K.
      congruence.
    + intros m d. rewrite L. intros Hd. apply (wf_refs _ Hwf m d).
      specialize (K m). unfold kept_by_invalidation in K.
      assert (refs_of (node a' m) = refs_of (node (arena g) m)) as <-; [|done].
      unfold refs_of. congruence.
  - intros m. specialize (K m). unfold kept_by_invalidation in K.
    unfold edges_of. congruence.
Qed.

(** The operations other than [updateModuleInfo] leave the edges alone. *)
Definition is_update (o : GraphOp) : bool :=
  match o with OpUpdateModuleInfo _ _ _ _ _ => true | _ => false end.

Lemma run_op_edges g (o : GraphOp) :
  graph_wf g → is_update o = false →
  ∃ g', run_op g o = Some g' ∧ graph_wf g' ∧
        ∀ m, edges_of (node (arena g') m) = edges_of (node (arena g) m).
Proof.
  intros Hwf Ho.
  destruct o as [u ssr|m0 I A s ssr|file| |file]; cbn [run_op] in *; [|done|..].
  - eexists. split; [done|]. split; [by apply ensureEntryFromUrl_wf|].
    apply ensureEntryFromUrl_edges.
  - unfold onFileChange. destruct (getModulesByFile g file) as [mods|].
    + destruct (invalidate_modules_graph g mods) as (a' & -> & L & _ & _ & _ & K).
      destruct (invalidated_graph_wf g a' Hwf L K) as [Hwf' He].
      eexists. split; [done|]. by split.
    + by exists g.
  - unfold invalidateAll.
    destruct (invalidate_modules_graph g (JsMap.values (idToModuleMap g)))
      as (a' & -> & L & _ & _ & _ & K).
    destruct (invalidated_graph_wf g a' Hwf L K) as [Hwf' He].
    eexists. split; [done|]. by split.
  - eexists. split; [done|]. split; [by apply createFileOnlyEntry_wf|].
    apply createFileOnlyEntry_edges.
Qed.

Lemma imports_mirrored_edges g g' :
  (∀ m, edges_of (node (arena g') m) = edges_of (node (arena g) m)) →
  imports_mirrored g → imports_mirrored g'.
Proof.
  intros He Hs m d.
  pose proof (He m) as Hm. pose proof (He d) as Hd.
  unfold edges_of in Hm, Hd. injection Hm as _ ->. injection Hd as -> _.
  apply Hs.
Qed.



(** The same, call by call, when resolves may reject. *)
Definition call_live g (c : Call) : Prop := args_live g (call_op c).

(** Every resolve that the first loop of an [updateModuleInfo] awaits is
    fulfilled. *)
Definition imports_resolve (c : Call) : Prop :=
  match call_op c with
  | OpUpdateModuleInfo _ imported _ _ _ => resolves (call_rejects c) 0 imported
  | _ => True
  end.

Lemma run_call_inv g (c : Call) :
  graph_wf g → call_live g c →
  ∃ g', run_call g c = Some g' ∧ graph_wf g' ∧
        (imports_mirrored g → imports_mirrored g') ∧
        (imports_resolve c → edges_symmetric g → edges_symmetric g').
Proof.
  intros Hwf Hlive. unfold run_call, call_live, imports_resolve in *.
  destruct (is_update (call_op c)) eqn:Ho.
  { destruct (call_op c) as [|m0 I A s ssr| | |]; try done.
    cbn [args_live] in Hlive. destruct Hlive as [Hm Hd].
    eexists. split; [done|].
    by apply updateModuleInfo_rejecting_inv. }
  destruct (run_op_edges g (call_op c) Hwf Ho) as (g' & E & Hwf' & He).
  assert (∀ g1, g1 = g ∨ g1 = g' →
            graph_wf g1 ∧ (imports_mirrored g → imports_mirrored g1) ∧
            (True → edges_symmetric g → edges_symmetric g1)) as Hboth.
  { intros g1 [->| ->]; [done|]. split_and!; [done| |].
    - by apply imports_mirrored_edges.
    - intros _. by apply edges_symmetric_edges. }
  destruct (call_op c) as [u ssr|m0 I A s ssr|file| |file]; [|done|..];
    try (exists g'; split; [exact E|]; apply Hboth; by right).
  cbn [run_op] in E. injection E as <-.
  eexists. split; [done|]. apply Hboth.
  unfold Rejecting.ensureEntryFromUrl.
  destruct (call_rejects c 0); [by left|right].
  by destruct (ensureEntryFromUrl g u ssr).
Qed.

Lemma run_calls_inv (cs : list Call) : ∀ g,
  graph_wf g → calls_ok call_live g cs →
  ∃ g', run_calls g cs = Some g' ∧ graph_wf g' ∧
        (imports_mirrored g → imports_mirrored g') ∧
        (Forall imports_resolve cs → edges_symmetric g → edges_symmetric g').
Proof.
  unfold run_calls. induction cs as [|c cs IH]; intros g Hwf Hok; cbn [foldM].
  - by exists g.
  - destruct Hok as [Hlive Hrest].
    destruct (run_call_inv g c Hwf Hlive) as (g1 & E & Hwf1 & M1 & S1).
    rewrite E.
    destruct (IH g1 Hwf1 (Hrest _ E)) as (g' & E' & Hwf' & M' & S').
    exists g'. split_and!; [done..|auto|].
    intros [Hc Hcs]%Forall_cons. auto.
Qed.

(** X1.  Invariant 1 of the data model, [b ∈ a.importedModules] exactly
    when [a ∈ b.importers], over the graphs that the operations build when
    resolves may reject.  Starting from a graph with mirrored edges, any
    sequence of [ensureEntryFromUrl], [updateModuleInfo], [onFileChange],
    [invalidateAll] and [createFileOnlyEntry], each fulfilled or rejected,
    comes to its end, and every import still has its back edge.  Every
    back edge is an import as well, so the two edge sets are mirror images
    of each other, when no [updateModuleInfo] was rejected while it read
    its imports; one that was leaves the back edges of the imports it has
    replaced.  [updateModuleInfo] is only handed nodes of the graph. *)
Theorem edges_symmetric_preserved (cs : list Call) g :
  graph_wf g → edges_symmetric g → calls_ok call_live g cs →
  ∃ g', run_calls g cs = Some g' ∧ imports_mirrored g' ∧
        (Forall imports_resolve cs → edges_symmetric g').
Proof.
  intros Hwf Hs Hok.
  destruct (run_calls_inv cs g Hwf Hok) as (g' & E & _ & M & S).
  exists g'. split_and!; [done| |auto].
  apply M. intros m d. apply Hs.
Qed.


Lemma find_snoc {A : Type} (p q : A → bool) (l : list A) (x : A) :
  (∀ y, y ∈ l → q y = p y) → List.find p l = None → q x = true →
  List.find q (l ++ [x]) = Some x.
Proof.
  intros Hpq Hnone Hx. induction l as [|y l IH]; simpl in *.
  - by rewrite Hx.
  - rewrite Hpq by (by left). destruct (p y); [done|].
    apply IH; [|done]. intros z Hz. apply Hpq. by right.
Qed.

(** X3.  [createFileOnlyEntry] is idempotent and stays out of the url and
    id indices: a second call with the same file returns the same node and
    changes nothing; the node is listed under the normalized file, which is
    its [file]. *)
Theorem createFileOnlyEntry_idempotent g (file : string) :
  graph_wf g →
  let m1 := (createFileOnlyEntry g file).1 in
  let g1 := (createFileOnlyEntry g file).2 in
  createFileOnlyEntry g1 file = (m1, g1) ∧
  urlToModuleMap g1 = urlToModuleMap g ∧
  idToModuleMap g1 = idToModuleMap g ∧
  ModuleNode.file (node (arena g1) m1) = Some (normalizePath file) ∧
  ∃ ms, fileToModulesMap g1 !! normalizePath file = Some ms ∧ m1 ∈ ms.
Proof.
  intros Hwf. cbv zeta.
  destruct (createFileOnlyEntry g file) as [m1 g1] eqn:E1. cbn [fst snd].
  unfold createFileOnlyEntry in E1.
  set (f0 := normalizePath file) in *.
  destruct (List.find _ _) as [m|] eqn:Efind in E1; injection E1 as <- <-.
  - destruct (fileToModulesMap g !! f0) as [ms|] eqn:E0; [|done].
    cbn [default] in Efind.
    assert (m ∈ ms) as Hin.
    { apply List.find_some in Efind as [Hin _]. by apply list_elem_of_In. }
    split_and!; [|done|done| |].
    + unfold createFileOnlyEntry.
      cbn [arena urlToModuleMap idToModuleMap fileToModulesMap
           safeModulesPath resolveId].
      fold f0. rewrite E0. cbn [default]. by rewrite Efind.
    + by destruct (wf_file _ Hwf _ _ _ E0 Hin).
    + by exists ms.
  - set (ms := default [] (fileToModulesMap g !! f0)) in *.
    set (n := ModuleNode.set_file (Some f0) (ModuleNode.new (FS_PREFIX +:+ f0))).
    set (files := match fileToModulesMap g !! f0 with
                  | Some _ => fileToModulesMap g
                  | None => <[f0 := []]> (fileToModulesMap g) end) in *.
    assert (∀ y, y ∈ ms → y < length (arena g)) as Hms.
    { intros y Hy. subst ms.
      destruct (fileToModulesMap g !! f0) as [ms0|] eqn:E0;
        [|by apply elem_of_nil in Hy].
      by destruct (wf_file _ Hwf _ _ _ E0 Hy). }
    assert (JsSet.add ms (length (arena g)) = ms ++ [length (arena g)]) as Hadd.
    { unfold JsSet.add.
      destruct (JsSet.has ms (length (arena g))) eqn:Ehas; [|done].
      apply JsSet.has_true in Ehas. apply Hms in Ehas. lia. }
    split_and!; [|done|done| |].
    + unfold createFileOnlyEntry.
      cbn [arena urlToModuleMap idToModuleMap fileToModulesMap
           safeModulesPath resolveId].
      fold f0. rewrite lookup_insert_eq. cbn [default]. rewrite Hadd.
      erewrite (find_snoc _ _ ms (length (arena g)) _ Efind).
      * done.
      * rewrite node_app_new. subst n. cbn.
        by rewrite bool_decide_eq_true_2.
    + cbn [arena]. by rewrite node_app_new.
    + cbn [fileToModulesMap]. eexists. rewrite lookup_insert_eq.
      split; [done|]. apply JsSet.elem_of_add. by right.
    Unshelve. intros y Hy. cbn beta. by rewrite node_app_l by (by apply Hms).
Qed.

(** X4.  [onFileChange(file)] returns and touches nothing but caches: the
    modules listed under [file] lose [info], [transformResult] and
    [ssrTransformResult], every other module keeps them (an importer keeps
    its transform result); [ssrModule] is dropped for exactly the modules
    that are listed under [file] or import one of them, directly or
    through other importers.  The indices, the edges and the other fields
    stay as they were.  A file without entry changes nothing. *)
Theorem onFileChange_spec g (file : string) :
  let mods := default [] (getModulesByFile g file) in
  ∃ a',
    onFileChange g file = Some (with_arena g a') ∧
    length a' = length (arena g) ∧
    (∀ x, caches (node a' x) =
          if decide (x ∈ mods) then (None, None, None)
          else caches (node (arena g) x)) ∧
    (∀ x, (∃ m, m ∈ mods ∧ rtc (imported_by (arena g)) m x) →
          ModuleNode.ssrModule (node a' x) = None) ∧
    (∀ x, ¬ (∃ m, m ∈ mods ∧ rtc (imported_by (arena g)) m x) →
          ModuleNode.ssrModule (node a' x)
          = ModuleNode.ssrModule (node (arena g) x)) ∧
    (∀ x, kept_by_invalidation (node a' x)
          = kept_by_invalidation (node (arena g) x)).
Proof.
  cbv zeta. unfold onFileChange.
  destruct (getModulesByFile g file) as [mods|]; cbn [default].
  - apply invalidate_modules_graph.
  - exists (arena g). split_and!; try done.
    + by destruct g.
    + intros x (m & []%elem_of_nil & _).
Qed.

(** X5.  [invalidateAll()] returns and clears the caches of exactly the
    nodes that the id index lists: a node whose id entry was taken over by
    a later node with the same resolved id, or a file-only node, keeps its
    transform results.  [ssrModule] is dropped for the listed nodes and
    for everything that imports them; nothing else changes. *)
Theorem invalidateAll_spec g :
  let mods := JsMap.values (idToModuleMap g) in
  ∃ a',
    invalidateAll g = Some (with_arena g a') ∧
    length a' = length (arena g) ∧
    (∀ x, caches (node a' x) =
          if decide (x ∈ mods) then (None, None, None)
          else caches (node (arena g) x)) ∧
    (∀ x, (∃ m, m ∈ mods ∧ rtc (imported_by (arena g)) m x) →
          ModuleNode.ssrModule (node a' x) = None) ∧
    (∀ x, ¬ (∃ m, m ∈ mods ∧ rtc (imported_by (arena g)) m x) →
          ModuleNode.ssrModule (node a' x)
          = ModuleNode.ssrModule (node (arena g) x)) ∧
    (∀ x, kept_by_invalidation (node a' x)
          = kept_by_invalidation (node (arena g) x)).
Proof. cbv zeta. unfold invalidateAll. apply invalidate_modules_graph. Qed.

(** X6.  In a consistent graph, [onFileChange(file)] clears the cached
    transform results of exactly the modules whose [file] is [file]: no
    module of the changed file keeps a stale result, and no module of
    another file loses its result. *)
Theorem onFileChange_clears_file g (file : string) :
  graph_wf g →
  ∃ g', onFileChange g file = Some g' ∧ graph_wf g' ∧
    ∀ x, x < length (arena g) →
      caches (node (arena g') x) =
      if decide (ModuleNode.file (node (arena g) x) = Some file)
      then (None, None, None) else caches (node (arena g) x).
Proof.
  intros Hwf. unfold onFileChange.
  destruct (getModulesByFile g file) as [mods|] eqn:E.
  - destruct (invalidate_modules_graph g mods) as (a' & -> & L & K & _ & _ & P).
    destruct (invalidated_graph_wf g a' Hwf L P) as [Hwf' _].
    eexists. split; [done|]. split; [done|].
    intros x Hx. cbn [arena with_arena]. rewrite K.
    destruct (decide (x ∈ mods)) as [Hin|Hin].
    + rewrite (decide_True _ _ Hin).
      destruct (wf_file _ Hwf _ _ _ E Hin) as [_ ->]. by rewrite decide_True.
    + rewrite (decide_False _ _ Hin).
      rewrite decide_False; [done|]. intros Hf.
      destruct (wf_file_all _ Hwf x Hx) as (f & ms & Hf' & Hms & Hx').
      unfold getModulesByFile in E. congruence.
  - exists g. split; [done|]. split; [done|]. intros x Hx.
    rewrite decide_False; [done|]. intros Hf.
    destruct (wf_file_all _ Hwf x Hx) as (f & ms & Hf' & Hms & Hx').
    unfold getModulesByFile in E. congruence.
Qed.

End GraphTheorems.

(** A session: [/a] and [/b] are requested, [/a] is found to import [/b]
    and to accept it, a CSS file is entered for an [@import], [/a] is
    edited to import [/c] instead, the file of [/b] changes and finally
    everything is invalidated. *)
Module Session.

Definition ops : list GraphOp :=
  [ OpEnsureEntryFromUrl "/a" false;
    OpEnsureEntryFromUrl "/b" false;
    OpUpdateModuleInfo 0 [inl "/b"] [inr 1] false false;
    OpCreateFileOnlyEntry "/src/x.css";
    OpUpdateModuleInfo 0 [inl "/c"; inr 2] [] true false;
    OpOnFileChange "/b";
    OpInvalidateAll ].


End Session.

Lemma rejected_import_live :
  calls_ok call_live Demo.empty_graph DemoGraphs.rejected_import.
Proof.
  assert (∀ (d : ref) (l : list string),
            inr d ∈ ((inl <$> l) : list (string + ref)) → False) as Hurls.
  { intros d l. induction l as [|u l IH]; cbn; [by intros ?%elem_of_nil|].
    intros [Hd|Hd]%elem_of_cons; [discriminate|by apply IH]. }
  cbn [calls_ok DemoGraphs.rejected_import]. split; [done|].
  intros g1 [= <-]. split.
  { split; [vm_compute; lia|]. intros d Hd.
    by destruct (Hurls d ["/b"; "/b"]). }
  intros g2 [= <-]. split; [|done].
  split; [vm_compute; lia|]. intros d Hd.
  by destruct (Hurls d ["/c"; "/d"; "/c"]).
Qed.

Lemma edges_symmetric_preserved_witness :
  ∃ g', run_calls Demo.empty_graph DemoGraphs.rejected_import = Some g' ∧
        imports_mirrored g' ∧
        (Forall imports_resolve DemoGraphs.rejected_import → edges_symmetric g').
Proof.
  apply (edges_symmetric_preserved DemoGraphs.rejected_import Demo.empty_graph).
  - apply graph_wf_new_graph.
  - apply edges_symmetric_new_graph.
  - apply rejected_import_live.
Defined.


Example session_edges :
  (λ g : ModuleGraph unit,
     (λ n, (ModuleNode.url n, ModuleNode.importers n, ModuleNode.importedModules n))
       <$> arena g) <$> run_ops Demo.empty_graph Session.ops
  = Some [("/a", [], [3; 2]); ("/b", [], []);
          ("/@fs//src/x.css", [0], []); ("/c", [0], [])].
Proof. vm_compute. reflexivity. Qed.

Lemma createFileOnlyEntry_idempotent_witness :
  let r := createFileOnlyEntry Demo.empty_graph "/src/x.css" in
  createFileOnlyEntry r.2 "/src/x.css" = (r.1, r.2).
Proof.
  destruct (createFileOnlyEntry_idempotent Demo.empty_graph "/src/x.css"
              (graph_wf_new_graph _)) as [Hw _].
  exact Hw.
Defined.

Lemma onFileChange_clears_file_witness :
  let g := (ensureEntryFromUrl Demo.empty_graph "/a" false).2 in
  ∃ g', onFileChange g "/a" = Some g' ∧ graph_wf g' ∧
    ∀ x, x < length (arena g) →
      caches (node (arena g') x) =
      if decide (ModuleNode.file (node (arena g) x) = Some "/a")
      then (None, None, None) else caches (node (arena g) x).
Proof.
  apply (onFileChange_clears_file _ "/a").
  apply ensureEntryFromUrl_wf, graph_wf_new_graph.
Defined.

(** ** hmr.ts: what the invalidation and the boundary walk compute *)

Module HmrFacts.

Section Facts.
Context {Ext : Type} `{Utils}.
Implicit Type a : Arena Ext.

(** [invalidate] goes on to the importers that do not accept the module. *)
Definition not_accepting (importer : ModuleNode.t Ext) (m : ref) : bool :=
  negb (JsSet.has (ModuleNode.acceptedHmrDeps importer) m).

(** The update of [x] bubbles to [importer]. *)
Definition bubbles_to a (x importer : ref) : Prop :=
  importer ∈ ModuleNode.importers (node a x) ∧
  x ∉ ModuleNode.acceptedHmrDeps (node a importer).

Definition hmr_closed a (seen : list ref) : Prop :=
  ∀ x y, x ∈ seen → bubbles_to a x y → y ∈ seen.

(** What the boundary walk and the payload read of a node. *)
Definition walk_view (n : ModuleNode.t Ext) :=
  (ModuleNode.isSelfAccepting n, ModuleNode.importers n,
   ModuleNode.acceptedHmrDeps n, ModuleNode.url n, ModuleNode.type n).

Lemma invalidate_fuel_walk (fuel : nat) : ∀ a (m : ref) (ts : Z) seen,
  Hmr.invalidate_fuel fuel a m ts seen
  = walk_fuel (Hmr.invalidated ts) not_accepting fuel a m seen.
Proof.
  induction fuel as [|fuel IH]; intros a m ts seen; [done|].
  cbn [Hmr.invalidate_fuel walk_fuel].
  destruct (JsSet.has seen m); [done|].
  rewrite !list_alter_alter_eq.
  apply foldM_ext. intros [a' seen'] x. unfold not_accepting.
  destruct (negb _); [apply IH|done].
Qed.

Lemma walk_edge_bubbles a (x y : ref) :
  walk_edge not_accepting a x y ↔ bubbles_to a x y.
Proof.
  unfold walk_edge, bubbles_to, not_accepting.
  rewrite negb_true_iff, JsSet.has_false. done.
Qed.

Lemma walk_reach_bubbles a (x y : ref) :
  walk_reach not_accepting a x y ↔ rtc (bubbles_to a) x y.
Proof.
  unfold walk_reach. split; intros R.
  - induction R as [|u v w E _ IH]; [done|].
    eapply rtc_l; [|exact IH]. exact (proj1 (walk_edge_bubbles a u v) E).
  - induction R as [|u v w E _ IH]; [done|].
    eapply rtc_l; [|exact IH]. exact (proj2 (walk_edge_bubbles a u v) E).
Qed.

Lemma bubbles_to_view a a' :
  (∀ x, walk_view (node a' x) = walk_view (node a x)) →
  ∀ x y, bubbles_to a' x y ↔ bubbles_to a x y.
Proof.
  intros Hv x y. unfold bubbles_to.
  assert (ModuleNode.importers (node a' x) = ModuleNode.importers (node a x))
    as -> by (specialize (Hv x); unfold walk_view in Hv; congruence).
  assert (ModuleNode.acceptedHmrDeps (node a' y)
          = ModuleNode.acceptedHmrDeps (node a y))
    as -> by (specialize (Hv y); unfold walk_view in Hv; congruence).
  done.
Qed.

Lemma rtc_bubbles_to_view a a' :
  (∀ x, walk_view (node a' x) = walk_view (node a x)) →
  ∀ x y, rtc (bubbles_to a') x y ↔ rtc (bubbles_to a) x y.
Proof.
  intros Hv x y. split; intros R.
  - induction R as [|u v w E _ IH]; [done|].
    apply (rtc_l _ u v w); [|exact IH]. by apply (bubbles_to_view a a' Hv).
  - induction R as [|u v w E _ IH]; [done|].
    apply (rtc_l _ u v w); [|exact IH]. by apply (bubbles_to_view a a' Hv).
Qed.

Lemma visited_view (ts : Z) seen seen' a a' :
  visited (Hmr.invalidated ts) seen seen' a a' →
  ∀ x, walk_view (node a' x) = walk_view (node a x).
Proof. intros [_ V] x. rewrite V. by case_decide. Qed.

(** One call of [invalidate] from a closed [seen]. *)
Lemma invalidate_closed a (m : ref) (ts : Z) seen :
  hmr_closed a seen →
  ∃ a' seen',
    Hmr.invalidate a m ts seen = Some (a', seen') ∧
    visited (Hmr.invalidated ts) seen seen' a a' ∧ hmr_closed a seen' ∧
    ∀ x, x ∈ seen' ↔ x ∈ seen ∨ rtc (bubbles_to a) m x.
Proof.
  intros Hclosed. unfold Hmr.invalidate. rewrite invalidate_fuel_walk.
  destruct (walk_fuel_closed (Hmr.invalidated ts) not_accepting
              (λ n, eq_refl) (λ n m, eq_refl) (S (length a)) a m seen)
    as (a' & seen' & E & V & C & R).
  { pose proof (unseen_le_len (length a) seen). lia. }
  { intros x y Hx Hxy%walk_edge_bubbles. by apply (Hclosed x y). }
  exists a', seen'. split_and!; [done..| |].
  - intros x y Hx Hxy. apply (C x y Hx). by apply walk_edge_bubbles.
  - intros x. by rewrite R, walk_reach_bubbles.
Qed.

(** X7.  [invalidate(mod, timestamp, new Set())] returns; it visits
    exactly the modules that the update of [mod] bubbles to, through
    importers that do not accept the module below them.  Every visited
    module gets the timestamp and loses [transformResult], [ssrModule] and
    [ssrTransformResult]; every other module, in particular an importer
    that accepts the module below it, is left as it was. *)
Theorem invalidate_spec a (m : ref) (ts : Z) :
  ∃ a' seen',
    Hmr.invalidate a m ts [] = Some (a', seen') ∧
    length a' = length a ∧
    (∀ x, x ∈ seen' ↔ rtc (bubbles_to a) m x) ∧
    ∀ x, node a' x =
         if decide (x ∈ seen' ∧ x < length a)
         then Hmr.invalidated ts (node a x) else node a x.
Proof.
  destruct (invalidate_closed a m ts []) as (a' & seen' & E & [L V] & _ & R).
  { by intros x y []%elem_of_nil. }
  exists a', seen'. split_and!; [done..| |].
  - intros x. rewrite R. split; [|by right].
    by intros [[]%elem_of_nil|?].
  - intros x. rewrite V. apply decide_ext.
    split; [tauto|]. intros [? ?]. split_and!; [done| |done].
    by intros ?%elem_of_nil.
Qed.

(** *** The boundary walk reads the edges only *)

Lemma propagate_css_view
    (rec rec' : ref → list Hmr.Boundary → list ref → option (bool * list Hmr.Boundary))
    a a' chain (imps : list ref) bs :
  (∀ x, walk_view (node a' x) = walk_view (node a x)) →
  (∀ i bs c, rec' i bs c = rec i bs c) →
  Hmr.propagate_css rec' a' chain imps bs = Hmr.propagate_css rec a chain imps bs.
Proof.
  intros Hv Hrec. unfold Hmr.propagate_css. apply foldM_ext.
  intros bs0 i.
  assert (ModuleNode.url (node a' i) = ModuleNode.url (node a i)) as ->
    by (specialize (Hv i); unfold walk_view in Hv; congruence).
  by rewrite Hrec.
Qed.

Lemma propagate_importers_view
    (rec rec' : ref → list Hmr.Boundary → list ref → option (bool * list Hmr.Boundary))
    a a' (n : ref) chain (imps : list ref) :
  (∀ x, walk_view (node a' x) = walk_view (node a x)) →
  (∀ i bs c, rec' i bs c = rec i bs c) →
  ∀ bs, Hmr.propagate_importers rec' a' n chain imps bs
        = Hmr.propagate_importers rec a n chain imps bs.
Proof.
  intros Hv Hrec. induction imps as [|i imps IH]; intros bs;
    cbn [Hmr.propagate_importers]; [done|].
  assert (ModuleNode.acceptedHmrDeps (node a' i)
          = ModuleNode.acceptedHmrDeps (node a i)) as ->
    by (specialize (Hv i); unfold walk_view in Hv; congruence).
  rewrite Hrec, IH. destruct (JsSet.has _ n); [done|].
  destruct (bool_decide _); [done|].
  destruct (rec i bs (chain ++ [i])) as [[[] bs1]|]; [done|apply IH|done].
Qed.

Lemma propagateUpdate_fuel_view (fuel : nat) a a' :
  (∀ x, walk_view (node a' x) = walk_view (node a x)) →
  ∀ (n : ref) bs chain,
    Hmr.propagateUpdate_fuel fuel a' n bs chain
    = Hmr.propagateUpdate_fuel fuel a n bs chain.
Proof.
  intros Hv. induction fuel as [|fuel IH]; intros n bs chain; [done|].
  cbn [Hmr.propagateUpdate_fuel]. cbv zeta.
  assert (∀ x, ModuleNode.isSelfAccepting (node a' x)
               = ModuleNode.isSelfAccepting (node a x)) as E1
    by (intros x; specialize (Hv x); unfold walk_view in Hv; congruence).
  assert (∀ x, ModuleNode.importers (node a' x) = ModuleNode.importers (node a x))
    as E2 by (intros x; specialize (Hv x); unfold walk_view in Hv; congruence).
  assert (∀ x, ModuleNode.url (node a' x) = ModuleNode.url (node a x)) as E3
    by (intros x; specialize (Hv x); unfold walk_view in Hv; congruence).
  rewrite E1, E2, E3.
  rewrite (propagate_css_view (Hmr.propagateUpdate_fuel fuel a)
             (Hmr.propagateUpdate_fuel fuel a') a a') by done.
  rewrite (propagate_importers_view (Hmr.propagateUpdate_fuel fuel a)
             (Hmr.propagateUpdate_fuel fuel a') a a') by done.
  assert (forallb (λ i, isCSSRequest (ModuleNode.url (node a' i)))
                  (ModuleNode.importers (node a n))
          = forallb (λ i, isCSSRequest (ModuleNode.url (node a i)))
                    (ModuleNode.importers (node a n))) as ->; [|done].
  induction (ModuleNode.importers (node a n)) as [|i l IHl]; [done|].
  cbn [forallb]. by rewrite E3, IHl.
Qed.

Lemma propagateUpdate_total a (n : ref) :
  ∃ d bs, Hmr.propagateUpdate a n [] = Some (d, bs).
Proof.
  unfold Hmr.propagateUpdate.
  destruct (Hmr.propagateUpdate_fuel_spec (S (S (length a))) a n [] [n])
    as ([d bs] & E & _).
  - pose proof (unseen_le_len (length a) [n]). lia.
  - by exists d, bs.
Qed.

(** *** [updateModules] *)

(** The entries of the payload for the boundaries of one module. *)
Definition updates_of a (ts : Z) (bs : list Hmr.Boundary) : list Hmr.Update :=
  (λ b, Hmr.mkUpdate
          (Hmr.type_name (ModuleNode.type (node a (Hmr.boundary b))) +:+ "-update")
          ts
          (ModuleNode.url (node a (Hmr.boundary b)))
          (ModuleNode.url (node a (Hmr.acceptedVia b)))) <$> bs.

Lemma updates_of_view a a' (ts : Z) bs :
  (∀ x, walk_view (node a' x) = walk_view (node a x)) →
  updates_of a' ts bs = updates_of a ts bs.
Proof.
  intros Hv. unfold updates_of. apply list_fmap_ext. intros _ b _.
  assert (∀ x, ModuleNode.url (node a' x) = ModuleNode.url (node a x)) as E3
    by (intros x; specialize (Hv x); unfold walk_view in Hv; congruence).
  assert (∀ x, ModuleNode.type (node a' x) = ModuleNode.type (node a x)) as E4
    by (intros x; specialize (Hv x); unfold walk_view in Hv; congruence).
  by rewrite !E3, E4.
Qed.

(** The loop of [updateModules], started in the middle: [a0] is the arena
    [a] after some invalidations. *)
Lemma update_modules_loop a (ts : Z) (mods : list ref) : ∀ a0 seen full ups,
  length a0 = length a →
  (∀ x, walk_view (node a0 x) = walk_view (node a x)) →
  hmr_closed a seen →
  ∃ a' seen' full' ups',
    foldM (Hmr.update_module ts) (a0, seen, full, ups) mods
    = Some (a', seen', full', ups') ∧
    visited (Hmr.invalidated ts) seen seen' a0 a' ∧
    (∀ x, x ∈ seen' ↔ x ∈ seen ∨ ∃ m, m ∈ mods ∧ rtc (bubbles_to a) m x) ∧
    (full' = true ↔
       full = true ∨
       ∃ m bs, m ∈ mods ∧ Hmr.propagateUpdate a m [] = Some (true, bs)) ∧
    (full' = false →
       ∃ bss, Forall2 (λ m bs, Hmr.propagateUpdate a m [] = Some (false, bs))
                      mods bss ∧
              ups' = ups ++ concat (updates_of a ts <$> bss)).
Proof.
  induction mods as [|m mods IH]; intros a0 seen full ups L0 Hv Hclosed;
    cbn [foldM].
  { exists a0, seen, full, ups. split_and!; [done|apply visited_refl| | |].
    - intros x. split; [by left|]. by intros [?|(m & []%elem_of_nil & _)].
    - split; [by left|]. by intros [?|(m & bs & []%elem_of_nil & _)].
    - intros _. exists []. split; [constructor|]. by rewrite app_nil_r. }
  cbn [Hmr.update_module].
  destruct (invalidate_closed a0 m ts seen) as (a1 & seen1 & -> & V1 & C1 & R1).
  { intros x y Hx Hxy. apply (Hclosed x y Hx). by apply (bubbles_to_view a a0 Hv). }
  pose proof (visited_view ts seen seen1 a0 a1 V1) as Hv01.
  assert (∀ x, walk_view (node a1 x) = walk_view (node a x)) as Hv1
    by (intros x; by rewrite Hv01).
  assert (length a1 = length a) as L1 by (destruct V1; congruence).
  assert (hmr_closed a seen1) as C1'.
  { intros x y Hx Hxy. apply (C1 x y Hx). by apply (bubbles_to_view a a0 Hv). }
  assert (∀ x, x ∈ seen1 ↔ x ∈ seen ∨ rtc (bubbles_to a) m x) as R1'.
  { intros x. rewrite R1. by rewrite (rtc_bubbles_to_view a a0 Hv). }
  assert (Hmr.propagateUpdate a1 m [] = Hmr.propagateUpdate a m []) as Hp.
  { unfold Hmr.propagateUpdate. rewrite L1. by apply propagateUpdate_fuel_view. }
  destruct (propagateUpdate_total a m) as (d & bs & Em).
  assert (∃ full1 ups1,
    (if full then Some (a1, seen1, full, ups)
     else match Hmr.propagateUpdate a1 m [] with
          | None => None
          | Some (hasDeadEnd, boundaries) =>
              if hasDeadEnd then Some (a1, seen1, true, ups)
              else Some (a1, seen1, full,
                         ups ++ ((λ b, Hmr.mkUpdate
                            (Hmr.type_name (ModuleNode.type (node a1 (Hmr.boundary b)))
                             +:+ "-update") ts
                            (ModuleNode.url (node a1 (Hmr.boundary b)))
                            (ModuleNode.url (node a1 (Hmr.acceptedVia b))))
                           <$> boundaries))
          end) = Some (a1, seen1, full1, ups1) ∧
    (full1 = true ↔ full = true ∨ d = true) ∧
    (full1 = false → ups1 = ups ++ updates_of a ts bs)) as (full1 & ups1 & -> & F1 & U1).
  { destruct full.
    - exists true, ups. split_and!; [done|tauto|done].
    - rewrite Hp, Em. destruct d.
      + exists true, ups. split_and!; [done|tauto|done].
      + exists false, (ups ++ updates_of a ts bs). split_and!; [|tauto|done].
        by rewrite <- (updates_of_view a a1 ts bs Hv1). }
  destruct (IH a1 seen1 full1 ups1 L1 Hv1 C1')
    as (a' & seen' & full' & ups' & -> & V' & R' & F' & U').
  exists a', seen', full', ups'. split_and!; [done| | | |].
  - eapply visited_trans; [| |exact V1|exact V'].
    + intros x Hx. apply R1'. by left.
    + intros x Hx. apply R'. by left.
  - intros x. rewrite R', R1'. split.
    + intros [[?|?]|(m' & Hm' & Hr)]; [by left| |].
      * right. exists m. split; [by left|done].
      * right. exists m'. split; [by right|done].
    + intros [?|(m' & [->|Hm']%elem_of_cons & Hr)]; [by left; left| |].
      * by left; right.
      * right. by exists m'.
  - rewrite F', F1. split.
    + intros [[?| ->]|(m' & bs' & Hm' & E')]; [by left| |].
      * right. exists m, bs. split; [by left|done].
      * right. exists m', bs'. split; [by right|done].
    + intros [?|(m' & bs' & [->|Hm']%elem_of_cons & E')]; [by left; left| |].
      * left; right. congruence.
      * right. by exists m', bs'.
  - intros Hf. destruct (U' Hf) as (bss & HF & ->).
    assert (full1 = false) as Hf1.
    { destruct full1; [|done]. assert (full' = true) by (apply F'; by left).
      congruence. }
    rewrite (U1 Hf1).
    assert (d = false) as ->.
    { destruct d; [|done]. assert (false = true); [|done].
      rewrite <- Hf1. apply F1. by right. }
    exists (bs :: bss). split; [by constructor|].
    cbn [fmap list_fmap concat]. by rewrite app_assoc.
Qed.

(** X8.  [updateModules] always sends a payload, and the payload is a
    function of the graph before the call: the invalidations it performs
    on the way do not influence the boundary walks.  It is a full reload
    exactly when the walk of one of the modules meets a dead end;
    otherwise it is an update whose entries are, module after module in
    the order given, the boundaries of that module's walk.  In both cases
    every module the update of one of the modules bubbles to has been
    invalidated, and no other. *)
Theorem updateModules_spec a (mods : list ref) (ts : Z) :
  ∃ payload a' (seen' : list ref),
    Hmr.updateModules a mods ts = Some (payload, a') ∧
    (payload = Hmr.FullReloadPayload ↔
       ∃ m bs, m ∈ mods ∧ Hmr.propagateUpdate a m [] = Some (true, bs)) ∧
    (∀ us, payload = Hmr.UpdatePayload us →
       ∃ bss, Forall2 (λ m bs, Hmr.propagateUpdate a m [] = Some (false, bs))
                      mods bss ∧
              us = concat (updates_of a ts <$> bss)) ∧
    (∀ x, x ∈ seen' ↔ ∃ m, m ∈ mods ∧ rtc (bubbles_to a) m x) ∧
    ∀ x, node a' x =
         if decide (x ∈ seen' ∧ x < length a)
         then Hmr.invalidated ts (node a x) else node a x.
Proof.
  unfold Hmr.updateModules.
  destruct (update_modules_loop a ts mods a [] false [])
    as (a' & seen' & full' & ups' & -> & [L V] & R & F & U); [done..| |].
  { by intros x y []%elem_of_nil. }
  exists (if full' then Hmr.FullReloadPayload else Hmr.UpdatePayload ups'), a', seen'.
  split_and!.
  - by destruct full'.
  - destruct full'.
    + split; [|done]. intros _.
      by destruct (proj1 F eq_refl) as [?|?].
    + split; [done|]. intros Hex.
      assert (false = true); [|done]. apply F. by right.
  - intros us Hus. destruct full'; [done|]. injection Hus as <-.
    by apply U.
  - intros x. rewrite R. split; [|by right]. by intros [[]%elem_of_nil|?].
  - intros x. rewrite V. apply decide_ext.
    split; [tauto|]. intros [? ?]. split_and!; [done| |done].
    by intros ?%elem_of_nil.
Qed.

(** *** Every boundary is justified *)

(** A boundary is the module itself when it accepts itself, or an importer
    of [acceptedVia] that lists it among its accepted deps. *)
Definition justified a (b : Hmr.Boundary) : Prop :=
  (Hmr.acceptedVia b = Hmr.boundary b ∧
   ModuleNode.isSelfAccepting (node a (Hmr.boundary b)) = true) ∨
  (Hmr.acceptedVia b ∈ ModuleNode.acceptedHmrDeps (node a (Hmr.boundary b)) ∧
   Hmr.boundary b ∈ ModuleNode.importers (node a (Hmr.acceptedVia b))).

(** A boundary added by the walk from [n]. *)
Definition added_from a (n : ref) (b : Hmr.Boundary) : Prop :=
  justified a b ∧ rtc (imported_by a) n (Hmr.acceptedVia b).

Section Sound.
Variable a : Arena Ext.
Variable rec : ref → list Hmr.Boundary → list ref → option (bool * list Hmr.Boundary).
Hypothesis rec_sound : ∀ i bs chain d bs',
  rec i bs chain = Some (d, bs') → ∀ b, b ∈ bs' → b ∈ bs ∨ added_from a i b.

Lemma propagate_css_sound chain (imps : list ref) : ∀ bs bs',
  Hmr.propagate_css rec a chain imps bs = Some bs' →
  ∀ b, b ∈ bs' → b ∈ bs ∨ ∃ i, i ∈ imps ∧ added_from a i b.
Proof.
  unfold Hmr.propagate_css.
  induction imps as [|i imps IH]; intros bs bs'; cbn [foldM].
  - intros [= <-] b Hb. by left.
  - destruct (isCSSRequest _ && negb _).
    + destruct (rec i bs (chain ++ [i])) as [[d bs1]|] eqn:Ei; [|done].
      cbn. intros E b Hb. destruct (IH _ _ E b Hb) as [Hb1|(j & Hj & Hadd)].
      * destruct (rec_sound _ _ _ _ _ Ei b Hb1) as [?|?]; [by left|].
        right. exists i. split; [by left|done].
      * right. exists j. split; [by right|done].
    + intros E b Hb. destruct (IH _ _ E b Hb) as [?|(j & Hj & Hadd)]; [by left|].
      right. exists j. split; [by right|done].
Qed.

Lemma propagate_importers_sound (n : ref) chain (imps : list ref) : ∀ bs d bs',
  Hmr.propagate_importers rec a n chain imps bs = Some (d, bs') →
  ∀ b, b ∈ bs' →
    b ∈ bs ∨
    (∃ i, i ∈ imps ∧ b = Hmr.mkBoundary i n ∧
          n ∈ ModuleNode.acceptedHmrDeps (node a i)) ∨
    ∃ i, i ∈ imps ∧ added_from a i b.
Proof.
  induction imps as [|i imps IH]; intros bs d bs'; cbn [Hmr.propagate_importers].
  - intros [= <- <-] b Hb. by left.
  - destruct (JsSet.has _ n) eqn:Hacc.
    + apply JsSet.has_true in Hacc. intros E b Hb.
      destruct (IH _ _ _ E b Hb) as [Hb1|[(j & Hj & ? & ?)|(j & Hj & ?)]].
      * apply elem_of_app in Hb1 as [?| ->%list_elem_of_singleton]; [by left|].
        right; left. exists i. split; [by left|done].
      * right; left. exists j. split; [by right|done].
      * right; right. exists j. split; [by right|done].
    + case_bool_decide as Hc.
      * intros [= <- <-] b Hb. by left.
      * destruct (rec i bs (chain ++ [i])) as [[[] bs1]|] eqn:Ei; [| |done].
        -- intros [= <- <-] b Hb.
           destruct (rec_sound _ _ _ _ _ Ei b Hb) as [?|?]; [by left|].
           right; right. exists i. split; [by left|done].
        -- intros E b Hb.
           destruct (IH _ _ _ E b Hb) as [Hb1|[(j & Hj & ? & ?)|(j & Hj & ?)]].
           ++ destruct (rec_sound _ _ _ _ _ Ei b Hb1) as [?|?]; [by left|].
              right; right. exists i. split; [by left|done].
           ++ right; left. exists j. split; [by right|done].
           ++ right; right. exists j. split; [by right|done].
Qed.

End Sound.

Lemma added_from_importer a (n i : ref) (b : Hmr.Boundary) :
  i ∈ ModuleNode.importers (node a n) → added_from a i b → added_from a n b.
Proof.
  intros Hi [J R]. split; [done|]. by apply (rtc_l _ n i).
Qed.

Lemma propagateUpdate_fuel_sound (fuel : nat) a : ∀ (n : ref) bs chain d bs',
  Hmr.propagateUpdate_fuel fuel a n bs chain = Some (d, bs') →
  ∀ b, b ∈ bs' → b ∈ bs ∨ added_from a n b.
Proof.
  induction fuel as [|fuel IH]; intros n bs chain d bs'; [done|].
  cbn [Hmr.propagateUpdate_fuel]. cbv zeta.
  destruct (ModuleNode.isSelfAccepting (node a n)) eqn:Hself.
  { destruct (Hmr.propagate_css _ _ _ _ _) as [bs1|] eqn:E; [|done].
    cbn. intros [= <- <-] b Hb.
    destruct (propagate_css_sound a _ IH _ _ _ _ E b Hb) as [Hb1|(i & Hi & Hadd)].
    - apply elem_of_app in Hb1 as [?| ->%list_elem_of_singleton]; [by left|].
      right. split; [|apply rtc_refl]. by left.
    - right. by apply (added_from_importer a n i). }
  case_bool_decide; [by intros [= <- <-] b Hb; left|].
  destruct (negb _ && forallb _ _); [by intros [= <- <-] b Hb; left|].
  intros E b Hb.
  destruct (propagate_importers_sound a _ IH _ _ _ _ _ _ E b Hb)
    as [?|[(i & Hi & -> & Hacc)|(i & Hi & Hadd)]]; [by left| |].
  - right. split; [|apply rtc_refl]. by right.
  - right. by apply (added_from_importer a n i).
Qed.

(** X9.  [propagateUpdate] never invents a boundary.  Every boundary of
    the walk from [node] is either a module that accepts itself, with
    itself as [acceptedVia], or an importer of [acceptedVia] that lists
    [acceptedVia] among its accepted deps; and [acceptedVia] is [node] or
    one of its importers, direct or transitive. *)
Theorem propagateUpdate_boundaries_justified a (n : ref) :
  ∃ d bs,
    Hmr.propagateUpdate a n [] = Some (d, bs) ∧
    ∀ b, b ∈ bs → justified a b ∧ rtc (imported_by a) n (Hmr.acceptedVia b).
Proof.
  destruct (propagateUpdate_total a n) as (d & bs & E).
  exists d, bs. split; [done|]. intros b Hb.
  unfold Hmr.propagateUpdate in E.
  destruct (propagateUpdate_fuel_sound _ a _ _ _ _ _ E b Hb) as [[]%elem_of_nil|?].
  done.
Qed.

End Facts.
End HmrFacts.

(** ** hmr.ts: more on [lexAcceptedHmrDeps] *)

Module LexerFacts.

(** Once the first argument has begun, with a string or with [[], the
    lexer never reports a self-accepting module. *)
Lemma lex_not_self_accepting (rest : list Lexer.char) :
  ∀ i state prevState cd urls,
    state ≠ Lexer.inCall →
    (Lexer.lex rest i state prevState cd urls).2 ≠ Lexer.Return true.
Proof.
  induction rest as [|c rest IH]; intros i state prevState cd urls Hs; [done|].
  destruct (Lexer.closing state) as [q|] eqn:Hc.
  - rewrite (Lexer.lex_in_string q) by done.
    destruct (c =? q)%N.
    + case_decide as Hp; [done|]. by apply IH.
    + destruct (_ && _ && _); [done|]. by apply IH.
  - rewrite Lexer.lex_in_code by done.
    destruct (c =? Lexer.single_quote)%N; [by apply IH|].
    destruct (c =? Lexer.double_quote)%N; [by apply IH|].
    destruct (c =? Lexer.backtick)%N; [by apply IH|].
    destruct (Lexer.is_whitespace c); [by apply IH|].
    rewrite decide_False by done.
    destruct (c =? Lexer.close_bracket)%N; [done|].
    destruct (c =? Lexer.comma)%N; [by apply IH|done].
Qed.

Lemma lex_self_accepting (rest : list Lexer.char) : ∀ i prevState cd urls urls',
  Lexer.lex rest i Lexer.inCall prevState cd urls = (urls', Lexer.Return true) →
  urls' = urls ∧
  ∃ ws c rest',
    rest = ws ++ c :: rest' ∧
    Forall (λ c, Lexer.is_whitespace c = true) ws ∧
    Lexer.is_whitespace c = false ∧ ¬ Lexer.is_quote c ∧ c ≠ Lexer.open_bracket.
Proof.
  induction rest as [|c rest IH]; intros i prevState cd urls urls'; [done|].
  rewrite Lexer.lex_in_code by done.
  assert (∀ st pS, st ≠ Lexer.inCall →
            Lexer.lex rest (S i) st pS cd urls = (urls', Lexer.Return true) →
            False) as Hno.
  { intros st pS Hst E.
    apply (lex_not_self_accepting rest (S i) st pS cd urls Hst). by rewrite E. }
  destruct (N.eqb_spec c Lexer.single_quote) as [->|N1];
    [intros E; by apply Hno in E|].
  destruct (N.eqb_spec c Lexer.double_quote) as [->|N2];
    [intros E; by apply Hno in E|].
  destruct (N.eqb_spec c Lexer.backtick) as [->|N3];
    [intros E; by apply Hno in E|].
  destruct (Lexer.is_whitespace c) eqn:Hw.
  - intros E. destruct (IH _ _ _ _ _ E) as (-> & ws & c' & rest' & -> & Hws & Hc').
    split; [done|]. exists (c :: ws), c', rest'.
    destruct Hc' as (?&?&?). split_and!; [done|by constructor|done..].
  - rewrite decide_True by done.
    destruct (N.eqb_spec c Lexer.open_bracket) as [->|N4];
      [intros E; by apply Hno in E|].
    intros [= <-]. split; [done|]. exists [], c, rest.
    split_and!; [done|constructor|done| |done].
    unfold Lexer.is_quote. tauto.
Qed.

(** X10.  The converse of the round trip: [lexAcceptedHmrDeps] returns
    [true] only when the first character after white space, from [start]
    on, is neither a string delimiter nor [[]; and then it has recorded
    nothing.  A module is thus never reported self-accepting together
    with accepted deps. *)
Theorem lexAcceptedHmrDeps_self_accepting (code : list Lexer.char) (start : nat)
    (urls urls' : list Lexer.Dep) :
  Lexer.lexAcceptedHmrDeps code start urls = (urls', Lexer.Return true) →
  urls' = urls ∧
  ∃ ws c rest,
    drop start code = ws ++ c :: rest ∧
    Forall (λ c, Lexer.is_whitespace c = true) ws ∧
    Lexer.is_whitespace c = false ∧ ¬ Lexer.is_quote c ∧ c ≠ Lexer.open_bracket.
Proof. unfold Lexer.lexAcceptedHmrDeps. apply lex_self_accepting. Qed.

(** Where [error(i)] is called. *)
Definition throw_site (code : list Lexer.char) (pos : nat) : Prop :=
  ∃ c, code !! pos = Some c ∧
    ((c = Lexer.dollar ∧ code !! S pos = Some Lexer.open_brace) ∨
     (¬ Lexer.is_quote c ∧ Lexer.is_separator c = false ∧
      c ≠ Lexer.close_bracket)).

Lemma lex_throw (code : list Lexer.char) : ∀ rest i state prevState cd urls pos,
  drop i code = rest →
  (Lexer.lex rest i state prevState cd urls).2 = Lexer.Throw pos →
  i ≤ pos ∧ throw_site code pos.
Proof.
  induction rest as [|c rest IH]; intros i state prevState cd urls pos Hd; [done|].
  apply Lexer.drop_cons_inv in Hd as [Hi Hd].
  assert (∀ st pS cd' urls',
            (Lexer.lex rest (S i) st pS cd' urls').2 = Lexer.Throw pos →
            i ≤ pos ∧ throw_site code pos) as Hrec.
  { intros st pS cd' urls' E. destruct (IH _ _ _ _ _ _ Hd E). split; [lia|done]. }
  destruct (Lexer.closing state) as [q|] eqn:Hc.
  - rewrite (Lexer.lex_in_string q) by done.
    destruct (c =? q)%N.
    + case_decide; [done|]. apply Hrec.
    + destruct (bool_decide (state = Lexer.inTemplateString) && (c =? Lexer.dollar)%N
                && bool_decide (head rest = Some Lexer.open_brace)) eqn:E;
        [|apply Hrec].
      intros [= <-]. split; [done|].
      apply andb_true_iff in E as [E E3]. apply andb_true_iff in E as [_ E2].
      apply N.eqb_eq in E2 as ->. apply bool_decide_eq_true in E3.
      exists Lexer.dollar. split; [done|]. left. split; [done|].
      rewrite <- (Nat.add_0_r (S i)), <- lookup_drop, Hd.
      by destruct rest.
  - rewrite Lexer.lex_in_code by done.
    destruct (N.eqb_spec c Lexer.single_quote) as [->|N1]; [apply Hrec|].
    destruct (N.eqb_spec c Lexer.double_quote) as [->|N2]; [apply Hrec|].
    destruct (N.eqb_spec c Lexer.backtick) as [->|N3]; [apply Hrec|].
    destruct (Lexer.is_whitespace c) eqn:Hw; [apply Hrec|].
    case_decide.
    + destruct (c =? Lexer.open_bracket)%N; [apply Hrec|done].
    + destruct (N.eqb_spec c Lexer.close_bracket) as [->|N4]; [done|].
      destruct (c =? Lexer.comma)%N eqn:N5; [apply Hrec|].
      intros [= <-]. split; [done|]. exists c. split; [done|]. right.
      split_and!; [unfold Lexer.is_quote; tauto| |done].
      unfold Lexer.is_separator. by rewrite Hw, N5.
Qed.

(** X11.  [lexAcceptedHmrDeps] throws at an index of the source, not
    before [start], and only in two places: at a [$] followed by [{]
    (an interpolation in a template literal), or at a character that is
    no string delimiter, no white space, no comma and not []] (an array
    element that is not a string literal). *)
Theorem lexAcceptedHmrDeps_throw (code : list Lexer.char) (start : nat)
    (urls : list Lexer.Dep) (pos : nat) :
  (Lexer.lexAcceptedHmrDeps code start urls).2 = Lexer.Throw pos →
  start ≤ pos < length code ∧ throw_site code pos.
Proof.
  intros E. unfold Lexer.lexAcceptedHmrDeps in E.
  destruct (lex_throw code _ _ _ _ _ _ _ eq_refl E) as [Hle Hsite].
  split; [|done]. split; [done|].
  destruct Hsite as (c & Hc & _). by apply lookup_lt_Some in Hc.
Qed.

(** X12.  The single-string form [accept('dep', cb)]: whatever follows
    the literal, the lexer returns [false] after the closing delimiter and
    has added exactly that literal, with the positions of its two
    delimiters. *)
Theorem lexAcceptedHmrDeps_string_form (before ws : list Lexer.char)
    (l : Lexer.Literal) (rest : list Lexer.char) (urls : list Lexer.Dep) :
  Forall (λ c, Lexer.is_whitespace c = true) ws →
  Lexer.valid_literal l →
  Lexer.lexAcceptedHmrDeps (before ++ ws ++ Lexer.render_literal l ++ rest)
    (length before) urls
  = (urls ++ [Lexer.mkDep (Lexer.text l)
                (Z.of_nat (length before + length ws))
                (Z.of_nat (length before + length ws)
                 + Z.of_nat (length (Lexer.text l)) + 2)],
     Lexer.Return false).
Proof.
  intros Hws Hl. unfold Lexer.lexAcceptedHmrDeps. rewrite drop_app_length.
  rewrite Lexer.lex_skip_whitespace by done.
  rewrite Lexer.lex_literal by done. cbv zeta. by rewrite decide_True.
Qed.

(** The text of a literal that is never closed. *)
Lemma lex_unterminated (q : Lexer.char) (l : list Lexer.char) :
  ∀ i state prevState cd urls,
    Lexer.closing state = Some q → q ∉ l →
    (state = Lexer.inTemplateString → Lexer.has_interpolation l = false) →
    Lexer.lex l i state prevState cd urls = (urls, Lexer.Return false).
Proof.
  induction l as [|c l IH]; intros i state prevState cd urls Hc Hq Hi; [done|].
  apply not_elem_of_cons in Hq as [Hne Hq].
  rewrite (Lexer.lex_in_string q) by done.
  rewrite (proj2 (N.eqb_neq c q)) by done.
  assert (bool_decide (state = Lexer.inTemplateString) && (c =? Lexer.dollar)%N
          && bool_decide (head l = Some Lexer.open_brace) = false) as ->.
  { case_bool_decide as Ht; [|done]. cbn [andb].
    specialize (Hi Ht). cbn [Lexer.has_interpolation] in Hi.
    by apply orb_false_iff in Hi as [Hi _]. }
  apply IH; [done..|].
  intros Ht. specialize (Hi Ht). cbn [Lexer.has_interpolation] in Hi.
  by apply orb_false_iff in Hi as [_ Hi].
Qed.

(** X13.  When the source ends before the first argument is complete, the
    lexer returns [false] and records nothing: this is so when [start] is
    at or past the end, when only white space follows [start], and when a
    string literal opened after that white space is never closed. *)
Theorem lexAcceptedHmrDeps_incomplete (before ws : list Lexer.char)
    (tail : option Lexer.Literal) (urls : list Lexer.Dep) :
  Forall (λ c, Lexer.is_whitespace c = true) ws →
  (∀ l, tail = Some l → Lexer.valid_literal l) →
  Lexer.lexAcceptedHmrDeps
    (before ++ ws ++
       match tail with Some l => Lexer.quote l :: Lexer.text l | None => [] end)
    (length before) urls
  = (urls, Lexer.Return false) ∧
  ∀ start, length before + length ws ≤ start → tail = None →
    Lexer.lexAcceptedHmrDeps (before ++ ws) start urls = (urls, Lexer.Return false).
Proof.
  intros Hws Hl. split.
  - unfold Lexer.lexAcceptedHmrDeps. rewrite drop_app_length.
    rewrite Lexer.lex_skip_whitespace by done.
    destruct tail as [l|]; [|done].
    destruct (Hl l eq_refl) as (Hq & Hnotin & Hinterp).
    rewrite Lexer.lex_in_code by done.
    destruct Hq as [Hq|[Hq|Hq]]; rewrite Hq in *.
    + rewrite N.eqb_refl.
      apply (lex_unterminated Lexer.single_quote); [done..|]. done.
    + cbn [N.eqb Lexer.single_quote Lexer.double_quote Pos.eqb].
      apply (lex_unterminated Lexer.double_quote); [done..|]. done.
    + cbn [N.eqb Lexer.single_quote Lexer.double_quote Lexer.backtick Pos.eqb].
      apply (lex_unterminated Lexer.backtick); [done..|]. auto.
  - intros start Hstart _. unfold Lexer.lexAcceptedHmrDeps.
    rewrite drop_ge; [done|]. rewrite length_app. lia.
Qed.

End LexerFacts.

Lemma lexAcceptedHmrDeps_self_accepting_witness :
  ([] : list Lexer.Dep) = [] ∧
  ∃ ws c rest,
    drop 7 (Lexer.code_units "accept( () => {})") = ws ++ c :: rest ∧
    Forall (λ c, Lexer.is_whitespace c = true) ws ∧
    Lexer.is_whitespace c = false ∧ ¬ Lexer.is_quote c ∧ c ≠ Lexer.open_bracket.
Proof.
  apply (LexerFacts.lexAcceptedHmrDeps_self_accepting
           (Lexer.code_units "accept( () => {})") 7 [] []).
  vm_compute. reflexivity.
Defined.

Lemma lexAcceptedHmrDeps_throw_witness :
  7 ≤ 13 < length (Lexer.code_units "accept(['a', b])") ∧
  LexerFacts.throw_site (Lexer.code_units "accept(['a', b])") 13.
Proof.
  apply (LexerFacts.lexAcceptedHmrDeps_throw
           (Lexer.code_units "accept(['a', b])") 7 [] 13).
  vm_compute. reflexivity.
Defined.

Lemma lexAcceptedHmrDeps_string_form_witness :
  Lexer.lexAcceptedHmrDeps
    (Lexer.code_units "accept(" ++ [32%N] ++
     Lexer.render_literal
       (Lexer.mkLiteral Lexer.double_quote (Lexer.code_units "./dep")) ++
     Lexer.code_units ", cb)")
    7 []
  = ([Lexer.mkDep (Lexer.code_units "./dep") 8 15], Lexer.Return false).
Proof.
  apply (LexerFacts.lexAcceptedHmrDeps_string_form (Lexer.code_units "accept(")
           [32%N] (Lexer.mkLiteral Lexer.double_quote (Lexer.code_units "./dep"))
           (Lexer.code_units ", cb)") []).
  - by repeat constructor.
  - split_and!; [by right; left| |done].
    intros Hin. apply (bool_decide_eq_true_2 _) in Hin.
    vm_compute in Hin. discriminate.
Defined.

Lemma lexAcceptedHmrDeps_incomplete_witness :
  Lexer.lexAcceptedHmrDeps (Lexer.code_units "accept('foo") 7 []
  = ([], Lexer.Return false).
Proof.
  destruct (LexerFacts.lexAcceptedHmrDeps_incomplete (Lexer.code_units "accept(") []
              (Some (Lexer.mkLiteral Lexer.single_quote (Lexer.code_units "foo")))
              []) as [Hw _].
  - constructor.
  - intros l [= <-]. split_and!; [by left| |done].
    intros Hin. apply (bool_decide_eq_true_2 _) in Hin.
    vm_compute in Hin. discriminate.
  - exact Hw.
Defined.

(** ** transformRequest.ts: more on the in-flight requests *)

Module PendingFacts.

(** Every entry of [_pendingRequests] leads to a computation of that key
    whose [done] has not run. *)
Definition entries_live (st : Pending.State) : Prop :=
  ∀ k p, Pending._pendingRequests st !! k = Some p →
    ∃ c, Pending.computations st !! p = Some c ∧ Pending.c_cacheKey c = k ∧
         Pending.c_status c ≠ Pending.Done.

Lemma entries_live_initial : entries_live Pending.initial.
Proof. intros k p Hk. cbn in Hk. by rewrite lookup_empty in Hk. Qed.

Lemma step_entries_live st ev :
  Pending.pending_ok st → entries_live st → entries_live (Pending.step st ev).
Proof.
  intros Hok Hlive. destruct ev as [url options|p how|p]; cbn [Pending.step].
  - unfold Pending.transformRequest.
    destruct (Pending._pendingRequests st !! Pending.cacheKey url options) eqn:E;
      [done|].
    intros k p Hk. cbn [snd Pending._pendingRequests Pending.computations] in *.
    destruct (decide (Pending.cacheKey url options = k)) as [<-|Hne].
    + rewrite lookup_insert_eq in Hk. injection Hk as <-.
      exists (Pending.mkComputation url options (Pending.cacheKey url options)
                Pending.InFlight).
      split_and!; [|done..].
      rewrite lookup_app_r by lia. by rewrite Nat.sub_diag.
    + rewrite lookup_insert_ne in Hk by done.
      destruct (Hlive k p Hk) as (c & Hc & Hkc & Hs).
      exists c. split_and!; [|done..]. by apply lookup_app_l_Some.
  - unfold Pending.settle.
    destruct (Pending.computations st !! p) as [c|] eqn:E; [|done].
    destruct (Pending.c_status c) eqn:Es; [|done..].
    intros k p' Hk. cbn [Pending._pendingRequests Pending.computations] in *.
    destruct (Hlive k p' Hk) as (c' & Hc' & Hkc & Hs).
    destruct (decide (p = p')) as [<-|Hne].
    + eexists. rewrite list_lookup_insert_eq by (by eapply lookup_lt_Some).
      split_and!; [done| |done]. cbn. congruence.
    + exists c'. by rewrite list_lookup_insert_ne.
  - unfold Pending.run_done.
    destruct (Pending.computations st !! p) as [c|] eqn:E; [|done].
    destruct (Pending.c_status c) eqn:Es; [done| |done].
    intros k p' Hk. cbn [Pending._pendingRequests Pending.computations] in *.
    destruct (decide (Pending.c_cacheKey c = k)) as [<-|Hne].
    { by rewrite lookup_delete_eq in Hk. }
    rewrite lookup_delete_ne in Hk by done.
    destruct (Hlive k p' Hk) as (c' & Hc' & Hkc & Hs).
    exists c'. split_and!; [|done..].
    rewrite list_lookup_insert_ne; [done|]. intros ->. congruence.
Qed.

Lemma reachable_ok (evs : list Pending.Event) : ∀ st,
  Pending.pending_ok st → entries_live st →
  Pending.pending_ok (foldl Pending.step st evs) ∧
  entries_live (foldl Pending.step st evs).
Proof.
  induction evs as [|ev evs IH]; intros st Hok Hlive; [done|].
  cbn [foldl]. apply IH; [by apply Pending.step_ok|by apply step_entries_live].
Qed.

(** X14.  At every point of every run, starting with no request:
    [_pendingRequests] holds, for a key, the one computation of that key
    whose [done] has not run.  Two computations of the same key are never
    unfinished at the same time, and no entry outlives its [done]. *)
Theorem pending_requests_exact (evs : list Pending.Event) :
  let st := foldl Pending.step Pending.initial evs in
  ∀ k p,
    Pending._pendingRequests st !! k = Some p ↔
    ∃ c, Pending.computations st !! p = Some c ∧ Pending.c_cacheKey c = k ∧
         Pending.c_status c ≠ Pending.Done.
Proof.
  cbv zeta. intros k p.
  destruct (reachable_ok evs Pending.initial Pending.pending_ok_initial
              entries_live_initial) as [Hok Hlive].
  split; [apply Hlive|].
  intros (c & Hc & <- & Hs). by apply Hok.
Qed.

(** X15.  What a call does is decided by the [done] jobs.  At every
    point of every run: as long as the [done] job of a computation of the
    key has not run, also after the computation has settled, a call with
    the key returns that computation and changes nothing; once the [done]
    job of every computation of the key has run, a call with the key
    starts a new computation, in flight with the url and options of the
    call, returns it, and enters it under the key, every other entry and
    computation staying as it was. *)
Theorem transformRequest_reuse (evs : list Pending.Event) (url : string)
    (options : Transform.TransformOptions) :
  let st := foldl Pending.step Pending.initial evs in
  let key := Pending.cacheKey url options in
  let r := Pending.transformRequest url options st in
  (∀ p c, Pending.computations st !! p = Some c →
          Pending.c_cacheKey c = key → Pending.c_status c ≠ Pending.Done →
          r = (p, st)) ∧
  ((∀ p c, Pending.computations st !! p = Some c →
           Pending.c_cacheKey c = key → Pending.c_status c = Pending.Done) →
   r.1 = length (Pending.computations st) ∧
   Pending.computations r.2
   = Pending.computations st
     ++ [Pending.mkComputation url options key Pending.InFlight] ∧
   Pending._pendingRequests r.2
   = <[key := length (Pending.computations st)]> (Pending._pendingRequests st)).
Proof.
  cbv zeta.
  destruct (reachable_ok evs Pending.initial Pending.pending_ok_initial
              entries_live_initial) as [Hok Hlive].
  set (st := foldl Pending.step Pending.initial evs) in *.
  unfold Pending.transformRequest.
  destruct (Pending._pendingRequests st !! Pending.cacheKey url options)
    as [q|] eqn:E.
  - split.
    + intros p c Hc Hk Hs. pose proof (Hok p c Hc Hs) as Hp.
      rewrite Hk, E in Hp. by injection Hp as ->.
    + intros Hall. destruct (Hlive _ _ E) as (c & Hc & Hk & Hs).
      destruct Hs. by apply (Hall q c).
  - split; [|done].
    intros p c Hc Hk Hs. pose proof (Hok p c Hc Hs) as Hp.
    rewrite Hk, E in Hp. done.
Qed.

(** X16.  For urls that start with [/], as served urls do, the cache key
    tells the three kinds of request apart: two requests have the same
    key only when they have the same url, agree on [ssr] and, when [ssr]
    is not set, agree on [html].  So an SSR transform is never handed to
    a client request, nor the other way round. *)
Theorem cacheKey_injective (url url' : string)
    (options options' : Transform.TransformOptions) :
  (∃ s, url = String "/" s) → (∃ s, url' = String "/" s) →
  Pending.cacheKey url options = Pending.cacheKey url' options' →
  url = url' ∧
  Transform.is_set (Transform.ssr options)
    = Transform.is_set (Transform.ssr options') ∧
  (Transform.is_set (Transform.ssr options) = false →
   Transform.is_set (Transform.html options)
     = Transform.is_set (Transform.html options')).
Proof.
  intros [s ->] [s' ->]. unfold Pending.cacheKey.
  destruct (Transform.is_set (Transform.ssr options)),
           (Transform.is_set (Transform.ssr options')),
           (Transform.is_set (Transform.html options)),
           (Transform.is_set (Transform.html options'));
    cbn; intros Heq; try discriminate; by simplify_eq.
Qed.

End PendingFacts.

Lemma cacheKey_injective_witness :
  "/src/main.js" = "/src/main.js" ∧
  Transform.is_set (Transform.ssr (Transform.mkOptions None (Some true)))
    = Transform.is_set (Transform.ssr (Transform.mkOptions (Some false) (Some true))) ∧
  (Transform.is_set (Transform.ssr (Transform.mkOptions None (Some true))) = false →
   Transform.is_set (Transform.html (Transform.mkOptions None (Some true)))
     = Transform.is_set (Transform.html (Transform.mkOptions (Some false) (Some true)))).
Proof.
  apply (PendingFacts.cacheKey_injective "/src/main.js" "/src/main.js").
  - by eexists.
  - by eexists.
  - reflexivity.
Defined.

(** A url that does not start with [/] can collide with the key of an SSR
    request. *)
Example cacheKey_collision :
  Pending.cacheKey "ssr:/a" (Transform.mkOptions None None)
  = Pending.cacheKey "/a" (Transform.mkOptions (Some true) None).
Proof. reflexivity. Qed.

(** ** transformRequest.ts: the cache of [doTransform] *)

Module TransformFacts.

Section Facts.
Context {Ext : Type} `{Utils} `{Transform.Host Ext}.
Implicit Type g : ModuleGraph Ext.

(** The cached result that [doTransform] looks for first. *)
Definition cached_result g (url : string) (ssr : bool)
  : option (TransformResult.t Ext) :=
  m ← getModuleByUrl g url ssr;
  if ssr then ModuleNode.ssrTransformResult (node (arena g) m)
  else ModuleNode.transformResult (node (arena g) m).

(** Every cached client result carries the etag of its code. *)
Definition etags_ok g : Prop :=
  ∀ m r, ModuleNode.transformResult (node (arena g) m) = Some r →
         TransformResult.etag r = Some (Transform.getEtag (TransformResult.code r)).

(** The three ways in which the part after a successful load ends. *)
Lemma transform_loaded_cases (url id : string) (ssr : bool) (code : string)
    (map : option Ext) (server : Transform.Server Ext) :
  let mod_ := (ensureEntryFromUrl (Transform.moduleGraph server) url ssr).1 in
  let g1 := (ensureEntryFromUrl (Transform.moduleGraph server) url ssr).2 in
  let w := Transform.ensureWatchedFile (Transform.watcher server)
             (ModuleNode.file (node (arena g1) mod_)) in
  (∃ e, Transform.transform_loaded url id ssr code map server
        = (Transform.Rejected (Transform.Thrown e), Transform.mkServer g1 w)) ∨
  (ssr = true ∧ ∃ r,
     Transform.transform_loaded url id ssr code map server
     = (Transform.Resolved r,
        Transform.mkServer
          (with_arena g1 (alter (ModuleNode.set_ssrTransformResult r) mod_ (arena g1)))
          w)) ∨
  (ssr = false ∧ ∃ c m,
     let r := TransformResult.mk c m (Some (Transform.getEtag c)) None None in
     Transform.transform_loaded url id ssr code map server
     = (Transform.Resolved (Some r),
        Transform.mkServer
          (with_arena g1 (alter (ModuleNode.set_transformResult (Some r)) mod_ (arena g1)))
          w)).
Proof.
  cbv zeta. unfold Transform.transform_loaded.
  destruct (ensureEntryFromUrl _ _ _) as [mod_ g1]. cbn [fst snd].
  destruct (Transform.plugin_transform _ _ _ _) as [t|e]; [|left; by eexists].
  destruct (match t with Some _ => _ | None => _ end) as [c' m'].
  destruct ssr.
  - destruct (Transform.ssrTransform _ _ _) as [r|e]; [|left; by eexists].
    right; left. split; [done|]. by eexists.
  - right; right. split; [done|]. by eexists _, _.
Qed.

(** How a call of [doTransform] ends. *)
Lemma doTransform_cases (url : string) (server : Transform.Server Ext)
    (options : Transform.TransformOptions) :
  let url' := removeTimestampQuery url in
  let ssr := Transform.is_set (Transform.ssr options) in
  match cached_result (Transform.moduleGraph server) url' ssr with
  | Some c =>
      Transform.doTransform url server options
      = (Transform.Resolved (Some c), server)
  | None =>
      (∃ out, Transform.doTransform url server options = (out, server) ∧
              (out = Transform.Resolved None ∨ ∃ e, out = Transform.Rejected e)) ∨
      ∃ id code map,
        Transform.doTransform url server options
        = Transform.transform_loaded url' id ssr code map server
  end.
Proof.
  cbv zeta. unfold Transform.doTransform, cached_result.
  destruct (_ ≫= _) as [c|]; [done|].
  destruct (Transform.plugin_resolveId _ _) as [r|e];
    [|left; eexists; split; [done|right; by eexists]].
  assert (∀ id c m,
    (∃ out, Transform.after_load (removeTimestampQuery url) id
              (Transform.is_set (Transform.ssr options)) c m server = (out, server) ∧
            (out = Transform.Resolved None ∨ ∃ e, out = Transform.Rejected e)) ∨
    ∃ id' code map,
      Transform.after_load (removeTimestampQuery url) id
        (Transform.is_set (Transform.ssr options)) c m server
      = Transform.transform_loaded (removeTimestampQuery url) id'
          (Transform.is_set (Transform.ssr options)) code map server) as Hafter.
  { intros id [c|] m; unfold Transform.after_load.
    - right. by eexists _, _, _.
    - left. destruct (Transform.checkPublicFile _).
      + eexists. split; [done|]. right. by eexists.
      + eexists. split; [done|]. by left. }
  destruct (Transform.plugin_load _ _) as [[[c|c m]|]|e];
    [apply Hafter..| |left; eexists; split; [done|right; by eexists]].
  destruct (_ && _); [left; eexists; split; [done|by left]|].
  destruct (if _ || _ then Transform.read_fallback _ else _) as [c|e];
    [apply Hafter|left; eexists; split; [done|right; by eexists]].
Qed.

Lemma getModuleByUrl_ensured g (url : string) (ssr : bool) a' :
  let mod_ := (ensureEntryFromUrl g url ssr).1 in
  let g1 := (ensureEntryFromUrl g url ssr).2 in
  getModuleByUrl (with_arena g1 a') url ssr = Some mod_.
Proof.
  cbv zeta. pose proof (ensureEntryFromUrl_frame g url ssr) as (_ & Hr & _ & Hl).
  cbv zeta in *. unfold getModuleByUrl.
  rewrite (resolveUrl_with_resolveId g (with_arena _ a') url ssr) by done.
  destruct (resolveUrl g url ssr) as [[u rid] meta]. done.
Qed.

Lemma ensured_live g (url : string) (ssr : bool) :
  graph_wf g →
  (ensureEntryFromUrl g url ssr).1 < length (arena (ensureEntryFromUrl g url ssr).2).
Proof.
  intros Hwf. pose proof (ensureEntryFromUrl_wf g url ssr Hwf) as Hwf1.
  pose proof (ensureEntryFromUrl_frame g url ssr) as (_ & _ & _ & Hl).
  cbv zeta in Hl. by destruct (wf_url _ Hwf1 _ _ Hl) as [? _].
Qed.

(** X17.  The cache of [doTransform] round-trips: when a call returns a
    result, the same call on the server it leaves behind returns that very
    result and changes nothing, without a hook being consulted; the second
    call is answered from the node. *)
Theorem doTransform_cached (url : string) (server server' : Transform.Server Ext)
    (options : Transform.TransformOptions) (r : TransformResult.t Ext) :
  graph_wf (Transform.moduleGraph server) →
  Transform.doTransform url server options = (Transform.Resolved (Some r), server') →
  Transform.doTransform url server' options = (Transform.Resolved (Some r), server').
Proof.
  intros Hwf E.
  pose proof (doTransform_cases url server options) as Hcases. cbv zeta in Hcases.
  set (url' := removeTimestampQuery url) in *.
  set (ssr := Transform.is_set (Transform.ssr options)) in *.
  assert (cached_result (Transform.moduleGraph server') url' ssr = Some r →
          Transform.doTransform url server' options
          = (Transform.Resolved (Some r), server')) as Hhit.
  { intros Hc. pose proof (doTransform_cases url server' options) as Hc'.
    cbv zeta in Hc'. fold url' ssr in Hc'. by rewrite Hc in Hc'. }
  destruct (cached_result (Transform.moduleGraph server) url' ssr) as [c|] eqn:Ec.
  { rewrite Hcases in E. injection E as <- <-. by apply Hhit. }
  destruct Hcases as [(out & E' & [->|[e ->]])|(id & code & map & E')];
    [congruence..|].
  rewrite E' in E. apply Hhit.
  pose proof (ensured_live (Transform.moduleGraph server) url' ssr Hwf) as Hlive.
  pose proof (transform_loaded_cases url' id ssr code map server) as Hl.
  cbv zeta in Hl.
  destruct Hl as [(e & El)|[(Hs & r' & El)|(Hs & c & m & El)]];
    rewrite El in E; [done| |].
  - injection E as -> <-. unfold cached_result. cbn [Transform.moduleGraph].
    rewrite getModuleByUrl_ensured. cbn [mbind option_bind]. rewrite Hs.
    cbn [arena with_arena]. by rewrite node_alter_eq by (by rewrite <- Hs).
  - injection E as <- <-. unfold cached_result. cbn [Transform.moduleGraph].
    rewrite getModuleByUrl_ensured. cbn [mbind option_bind]. rewrite Hs.
    cbn [arena with_arena]. by rewrite node_alter_eq by (by rewrite <- Hs).
Qed.

Lemma set_ssrTransformResult_same (n : ModuleNode.t Ext) :
  ModuleNode.set_ssrTransformResult (ModuleNode.ssrTransformResult n) n = n.
Proof. by destruct n. Qed.

(** X18.  A transform that fails, or that returns null, never touches an
    existing node: every node of the graph is as it was, in particular its
    cached results, and every url keeps its node.  (The graph may have
    gained the entry of the requested url.) *)
Theorem doTransform_failure_keeps_nodes (url : string)
    (server server' : Transform.Server Ext)
    (options : Transform.TransformOptions)
    (out : Transform.Completion (Transform.TransformError Ext)
             (option (TransformResult.t Ext))) :
  Transform.doTransform url server options = (out, server') →
  (out = Transform.Resolved None ∨ ∃ e, out = Transform.Rejected e) →
  (∀ m, m < length (arena (Transform.moduleGraph server)) →
        node (arena (Transform.moduleGraph server')) m
        = node (arena (Transform.moduleGraph server)) m) ∧
  (∀ u m, urlToModuleMap (Transform.moduleGraph server) !! u = Some m →
          urlToModuleMap (Transform.moduleGraph server') !! u = Some m).
Proof.
  intros E Hout.
  pose proof (doTransform_cases url server options) as Hcases. cbv zeta in Hcases.
  set (url' := removeTimestampQuery url) in *.
  set (ssr := Transform.is_set (Transform.ssr options)) in *.
  set (g := Transform.moduleGraph server) in *.
  destruct (cached_result g url' ssr) as [c|] eqn:Ec.
  { rewrite Hcases in E. injection E as <- <-. by destruct Hout as [?|[? ?]]. }
  destruct Hcases as [(out' & E' & _)|(id & code & map & E')].
  { rewrite E' in E. by injection E as <- <-. }
  rewrite E' in E.
  pose proof (ensureEntryFromUrl_frame g url' ssr) as (Ha & Hr & Hu & Hl).
  pose proof (transform_loaded_cases url' id ssr code map server) as Hloaded.
  cbv zeta in Ha, Hr, Hu, Hl, Hloaded. fold g in Hloaded.
  assert (∀ m, m < length (arena g) →
            node (arena (ensureEntryFromUrl g url' ssr).2) m = node (arena g) m)
    as Hold.
  { intros m Hm. destruct Ha as [->|(n & -> & _)]; [done|]. by apply node_app_l. }
  destruct Hloaded as [(e & El)|[(Hs & r' & El)|(Hs & c & m & El)]];
    rewrite El in E.
  - injection E as <- <-. done.
  - injection E as <- <-. destruct Hout as [[= ->]|[e [=]]].
    split; [|done]. intros m Hm. cbn [Transform.moduleGraph arena with_arena].
    destruct (decide ((ensureEntryFromUrl g url' ssr).1 = m)) as [Hm'|Hne];
      [|by rewrite node_alter_ne; [apply Hold|]].
    rewrite Hm', node_alter_total. case_decide as Hlive; [|by apply Hold].
    rewrite Hold by done.
    assert (ModuleNode.ssrTransformResult (node (arena g) m) = None) as Hnone.
    { revert Ec Hm' Hm. unfold cached_result, getModuleByUrl, ensureEntryFromUrl.
      destruct (resolveUrl g url' ssr) as [[u rid] meta].
      destruct (urlToModuleMap g !! u) as [m0|]; cbn [fst mbind option_bind].
      - rewrite Hs. by intros ? ->.
      - intros _ <-. lia. }
    rewrite <- Hnone at 1. apply set_ssrTransformResult_same.
  - injection E as <- <-. by destruct Hout as [?|[? ?]].
Qed.

(** X19.  The etag of a client transform result is the etag of its code:
    this holds of every result [doTransform] returns when [ssr] is not
    set, and of every [transformResult] in the graph afterwards, when it
    held before. *)
Theorem doTransform_etag (url : string) (server : Transform.Server Ext)
    (options : Transform.TransformOptions) :
  etags_ok (Transform.moduleGraph server) →
  etags_ok (Transform.moduleGraph (Transform.doTransform url server options).2) ∧
  ∀ r, Transform.is_set (Transform.ssr options) = false →
       (Transform.doTransform url server options).1 = Transform.Resolved (Some r) →
       TransformResult.etag r = Some (Transform.getEtag (TransformResult.code r)).
Proof.
  intros Hok.
  pose proof (doTransform_cases url server options) as Hcases. cbv zeta in Hcases.
  set (url' := removeTimestampQuery url) in *.
  set (ssr := Transform.is_set (Transform.ssr options)) in *.
  set (g := Transform.moduleGraph server) in *.
  destruct (cached_result g url' ssr) as [c|] eqn:Ec.
  { rewrite Hcases. split; [done|]. intros r Hs [= <-].
    unfold cached_result in Ec. rewrite Hs in Ec.
    destruct (getModuleByUrl g url' false) as [m|]; [|done].
    by apply (Hok m). }
  destruct Hcases as [(out' & -> & Hout)|(id & code & map & ->)].
  { split; [done|]. intros r _ Hr. cbn in Hr. subst out'.
    by destruct Hout as [?|[? ?]]. }
  pose proof (ensureEntryFromUrl_frame g url' ssr) as (Ha & _).
  pose proof (transform_loaded_cases url' id ssr code map server) as Hloaded.
  cbv zeta in Ha, Hloaded. fold g in Hloaded.
  assert (etags_ok (ensureEntryFromUrl g url' ssr).2) as Hok1.
  { intros m r. unfold ensureEntryFromUrl.
    destruct (resolveUrl g url' ssr) as [[u rid] meta].
    destruct (urlToModuleMap g !! u); cbn [snd arena]; [apply Hok|].
    rewrite node_app_cases. case_decide; [apply Hok|].
    case_decide; [|done]. by destruct meta. }
  destruct Hloaded as [(e & ->)|[(Hs & r' & ->)|(Hs & c & m & ->)]];
    cbn [fst snd Transform.moduleGraph].
  - split; [done|]. by intros r _ [=].
  - split; [|intros r Hs'; congruence].
    intros m r. cbn [arena with_arena].
    rewrite (node_alter_field ModuleNode.transformResult) by done. apply Hok1.
  - split.
    + intros m0 r. cbn [arena with_arena].
      destruct (decide ((ensureEntryFromUrl g url' ssr).1 = m0)) as [<-|Hne];
        [|rewrite node_alter_ne by done; apply Hok1].
      rewrite node_alter_total. case_decide; [|apply Hok1].
      cbn. by intros [= <-].
    + intros r _ [= <-]. done.
Qed.

End Facts.

End TransformFacts.

Lemma doTransform_cached_witness :
  let options := Transform.mkOptions None None in
  let server' := (Transform.doTransform "/src/main.js" DemoHost.server options).2 in
  Transform.doTransform "/src/main.js" server' options
  = (Transform.Resolved
       (Some (TransformResult.mk "export default 1" None
                (Some "W/export default 1") None None)),
     server').
Proof.
  cbv zeta.
  apply (TransformFacts.doTransform_cached "/src/main.js" DemoHost.server).
  - apply graph_wf_new_graph.
  - vm_compute. reflexivity.
Defined.

(** [/src/main.js] has a cached client result; an SSR request for it ends
    with null (the demo host's [ssrTransform] yields nothing). *)
Lemma doTransform_failure_keeps_nodes_witness :
  let server1 :=
    (Transform.doTransform "/src/main.js" DemoHost.server
       (Transform.mkOptions None None)).2 in
  let server2 :=
    (Transform.doTransform "/src/main.js" server1
       (Transform.mkOptions (Some true) None)).2 in
  (∀ m, m < length (arena (Transform.moduleGraph server1)) →
        node (arena (Transform.moduleGraph server2)) m
        = node (arena (Transform.moduleGraph server1)) m) ∧
  (∀ u m, urlToModuleMap (Transform.moduleGraph server1) !! u = Some m →
          urlToModuleMap (Transform.moduleGraph server2) !! u = Some m).
Proof.
  cbv zeta.
  apply (TransformFacts.doTransform_failure_keeps_nodes "/src/main.js" _ _
           (Transform.mkOptions (Some true) None) (Transform.Resolved None)).
  - vm_compute. reflexivity.
  - by left.
Defined.

Lemma doTransform_etag_witness :
  let options := Transform.mkOptions None None in
  let res := Transform.doTransform "/src/main.js" DemoHost.server options in
  TransformFacts.etags_ok (Transform.moduleGraph res.2) ∧
  ∀ r, Transform.is_set (Transform.ssr options) = false →
       res.1 = Transform.Resolved (Some r) →
       TransformResult.etag r = Some (Transform.getEtag (TransformResult.code r)).
Proof.
  cbv zeta.
  apply (TransformFacts.doTransform_etag "/src/main.js" DemoHost.server).
  intros m r Hr. by destruct m.
Defined.

(** ** client.ts: the HMR runtime in the browser

    The client keeps, per module path, the callbacks registered with
    [import.meta.hot.accept], the [dispose] and [prune] callbacks, the
    [hot.data] object and the listeners of custom events.  A function
    object is known by its identity ([Fn]); [Mod] is a module namespace
    object, [Data] a [hot.data] object. *)

Module HotClient.

Abbreviation Fn := nat.

(** The functions that [accept] stores: the two wrappers it creates, and
    the callback of the array form ([() => {}] when there is none). *)
Inductive HotFn :=
| SelfWrap (deps : option Fn)
| DepWrap (callback : option Fn)
| Plain (callback : option Fn).

Record HotCallback := mkCallback {
  deps : list string;
  fn : HotFn
}.


(** The object that [createHotContext] returns: its [ownerPath] and the
    [newListeners] map that its [on] closes over. *)
Record Hot := mkHot {
  ownerPath : string;
  newListeners : nat
}.

Section Client.
Context {Mod Data : Type}.
Variable empty_data : Data.
(** [await import(url)] for a dep at a timestamp; [None] when it fails. *)
Variable import_module : string → Z → option Mod.

Record Client := mkClient {
  hotModulesMap : gmap string (list HotCallback);
  disposeMap : gmap string Fn;
  pruneMap : gmap string Fn;
  dataMap : gmap string Data;
  customListenersMap : gmap string (list Fn);
  ctxToListenersMap : gmap string nat;
  (** the [newListeners] maps ever created, by identity *)
  listenerMaps : list (gmap string (list Fn))
}.



(** The loop over [staleListeners] of [createHotContext]. *)
Definition remove_stale (stale : gmap string (list Fn))
    (listeners : gmap string (list Fn)) : gmap string (list Fn) :=
  map_fold (λ event staleFns m,
              match m !! event with
              | Some ls => <[event := filter (λ l, l ∉ staleFns) ls]> m
              | None => m
              end) listeners stale.

(** [createHotContext(ownerPath)] *)
Definition createHotContext (owner : string) (st : Client) : Hot * Client :=
  let data :=
    if dataMap st !! owner is Some _ then dataMap st
    else <[owner := empty_data]> (dataMap st) in
  let mods :=
    if hotModulesMap st !! owner is Some _
    then <[owner := []]> (hotModulesMap st)
    else hotModulesMap st in
  let listeners :=
    match ctxToListenersMap st !! owner with
    | Some c => remove_stale (listenerMaps st !!! c) (customListenersMap st)
    | None => customListenersMap st
    end in
  let c' := length (listenerMaps st) in
  (mkHot owner c',
   mkClient mods (disposeMap st) (pruneMap st) data listeners
            (<[owner := c']> (ctxToListenersMap st))
            (listenerMaps st ++ [∅])).



(** [hot.dispose(cb)], [hot.prune(cb)] *)
Definition dispose (hot : Hot) (cb : Fn) (st : Client) : Client :=
  mkClient (hotModulesMap st) (<[ownerPath hot := cb]> (disposeMap st))
           (pruneMap st) (dataMap st) (customListenersMap st)
           (ctxToListenersMap st) (listenerMaps st).

Definition prune (hot : Hot) (cb : Fn) (st : Client) : Client :=
  mkClient (hotModulesMap st) (disposeMap st)
           (<[ownerPath hot := cb]> (pruneMap st)) (dataMap st)
           (customListenersMap st) (ctxToListenersMap st) (listenerMaps st).

(** [addToMap(map)] of [hot.on(event, cb)] *)
Definition addToMap (event : string) (cb : Fn) (m : gmap string (list Fn))
  : gmap string (list Fn) :=
  <[event := default [] (m !! event) ++ [cb]]> m.

(** [hot.on(event, cb)] *)
Definition on (hot : Hot) (event : string) (cb : Fn) (st : Client) : Client :=
  mkClient (hotModulesMap st) (disposeMap st) (pruneMap st) (dataMap st)
           (addToMap event cb (customListenersMap st))
           (ctxToListenersMap st)
           (alter (addToMap event cb) (newListeners hot) (listenerMaps st)).



End Client.
End HotClient.

Module HotClientFacts.

Section Facts.
Context {Mod Data : Type}.
Variable empty_data : Data.
Variable import_module : string → Z → option Mod.
Implicit Type st : HotClient.Client (Data := Data).









(** The listeners of [event] after the loop over stale listeners. *)
Lemma remove_stale_lookup (stale listeners : gmap string (list HotClient.Fn))
    (event : string) :
  HotClient.remove_stale stale listeners !! event =
  match stale !! event with
  | Some staleFns => filter (λ l, l ∉ staleFns) <$> listeners !! event
  | None => listeners !! event
  end.
Proof.
  unfold HotClient.remove_stale. revert event.
  apply (map_fold_weak_ind (λ r m, ∀ event,
    r !! event = match m !! event with
                 | Some staleFns => filter (λ l, l ∉ staleFns) <$> listeners !! event
                 | None => listeners !! event
                 end)).
  - intros event. by rewrite lookup_empty.
  - intros e sf m r Hm IH event.
    destruct (decide (e = event)) as [->|Hne].
    + rewrite lookup_insert_eq. pose proof (IH event) as Hr. rewrite Hm in Hr.
      destruct (r !! event) as [ls|] eqn:Er.
      * rewrite lookup_insert_eq. by rewrite <- Hr.
      * rewrite Er. by rewrite <- Hr.
    + rewrite lookup_insert_ne by done. rewrite <- IH.
      destruct (r !! e); [by rewrite lookup_insert_ne|done].
Qed.

(** The functions registered for [event] through the listener map [c]. *)
Definition registered (c : nat) (event : string)
    (ons : list (HotClient.Hot * string * HotClient.Fn)) : list HotClient.Fn :=
  ons ≫= λ '(h, e, cb),
    if bool_decide (HotClient.newListeners h = c ∧ e = event) then [cb] else [].

Definition run_ons (ons : list (HotClient.Hot * string * HotClient.Fn)) st
  : HotClient.Client :=
  foldl (λ st '(h, e, cb), HotClient.on h e cb st) st ons.

Lemma run_ons_listeners (c : nat) (ons : list (HotClient.Hot * string * HotClient.Fn)) :
  ∀ st (old : gmap string (list HotClient.Fn)),
    HotClient.listenerMaps st !! c = Some old →
    ∃ new,
      HotClient.listenerMaps (run_ons ons st) !! c = Some new ∧
      HotClient.ctxToListenersMap (run_ons ons st) = HotClient.ctxToListenersMap st ∧
      HotClient.hotModulesMap (run_ons ons st) = HotClient.hotModulesMap st ∧
      HotClient.dataMap (run_ons ons st) = HotClient.dataMap st ∧
      ∀ event, default [] (new !! event)
               = default [] (old !! event) ++ registered c event ons.
Proof.
  induction ons as [|[[h e] cb] ons IH]; intros st old Hold.
  - exists old. split_and!; [done..|]. intros event. by rewrite app_nil_r.
  - unfold run_ons. cbn [foldl]. fold (run_ons ons (HotClient.on h e cb st)).
    destruct (decide (HotClient.newListeners h = c)) as [Hc|Hc].
    + destruct (IH (HotClient.on h e cb st) (HotClient.addToMap e cb old))
        as (new & Hnew & Hctx & Hmods & Hdata & Hreg).
      { cbn [HotClient.on HotClient.listenerMaps]. rewrite Hc.
        by rewrite list_lookup_alter_eq, Hold. }
      exists new. split_and!; [done..|].
      intros event. rewrite Hreg. unfold registered at 2. cbn [mbind list_bind].
      fold (registered c event ons). unfold HotClient.addToMap.
      destruct (decide (e = event)) as [->|Hne].
      * rewrite lookup_insert_eq. rewrite bool_decide_eq_true_2 by done.
        change (default [] (Some ?x)) with x. by rewrite <- app_assoc.
      * rewrite lookup_insert_ne by done.
        rewrite bool_decide_eq_false_2 by tauto. done.
    + destruct (IH (HotClient.on h e cb st) old)
        as (new & Hnew & Hctx & Hmods & Hdata & Hreg).
      { cbn [HotClient.on HotClient.listenerMaps].
        by rewrite list_lookup_alter_ne. }
      exists new. split_and!; [done..|].
      intros event. rewrite Hreg. unfold registered at 2. cbn [mbind list_bind].
      fold (registered c event ons).
      rewrite bool_decide_eq_false_2 by tauto. done.
Qed.

(** X22.  A new context for a module removes the custom-event listeners
    of the context it replaces, and only those.  Let a context be created
    for [owner], then let any [hot.on] calls be made, through it and
    through other contexts.  When [createHotContext(owner)] is called
    again, the listeners of every event are the ones before the call
    without the functions that were registered through the replaced
    context, in the same order; and the [hot.data] of [owner] is the same
    object as before. *)
Theorem createHotContext_removes_stale (owner : string)
    (ons : list (HotClient.Hot * string * HotClient.Fn)) st :
  let hot := (HotClient.createHotContext empty_data owner st).1 in
  let st1 := (HotClient.createHotContext empty_data owner st).2 in
  let st2 := run_ons ons st1 in
  let st3 := (HotClient.createHotContext empty_data owner st2).2 in
  (∀ event,
     HotClient.customListenersMap st3 !! event
     = filter (λ l, l ∉ registered (HotClient.newListeners hot) event ons)
         <$> HotClient.customListenersMap st2 !! event) ∧
  HotClient.dataMap st3 !! owner = HotClient.dataMap st1 !! owner ∧
  is_Some (HotClient.dataMap st1 !! owner).
Proof.
  cbv zeta.
  set (st1 := (HotClient.createHotContext empty_data owner st).2).
  set (c := HotClient.newListeners (HotClient.createHotContext empty_data owner st).1).
  assert (HotClient.listenerMaps st1 !! c = Some ∅) as Hc.
  { subst st1 c. cbn. rewrite lookup_app_r by lia. by rewrite Nat.sub_diag. }
  assert (HotClient.ctxToListenersMap st1 !! owner = Some c) as Hctx1
    by (subst st1 c; cbn; by rewrite lookup_insert_eq).
  assert (is_Some (HotClient.dataMap st1 !! owner)) as Hdata1.
  { subst st1. cbn [HotClient.createHotContext snd HotClient.dataMap].
    destruct (HotClient.dataMap st !! owner) eqn:E; [by rewrite E|].
    by rewrite lookup_insert_eq. }
  destruct (run_ons_listeners c ons st1 ∅ Hc) as (new & Hnew & Hctx & _ & Hdata & Hreg).
  set (st2 := run_ons ons st1) in *.
  split_and!; [| |done].
  - intros event.
    cbn [HotClient.createHotContext snd HotClient.customListenersMap].
    rewrite Hctx, Hctx1. rewrite remove_stale_lookup.
    rewrite (list_lookup_total_correct _ _ _ Hnew).
    specialize (Hreg event). rewrite lookup_empty in Hreg. cbn in Hreg.
    destruct (new !! event) as [sf|]; cbn in Hreg.
    + by subst sf.
    + assert (registered c event ons = []) as -> by (by rewrite Hreg).
      destruct (HotClient.customListenersMap st2 !! event) as [ls|]; [|done].
      cbn. f_equal. clear. induction ls as [|l ls IH]; [done|].
      rewrite filter_cons, decide_True by (by intros ?%elem_of_nil).
      by rewrite <- IH.
  - cbn [HotClient.createHotContext snd HotClient.dataMap]. rewrite Hdata.
    destruct Hdata1 as [d Hd]. by rewrite Hd.
Qed.

End Facts.
End HotClientFacts.

(** ** hmr.ts: reading a file that is being written *)

Module ReadModified.

(** The file system as this call meets it.  Every [fs.readFileSync] and
    every [fs.statSync] is an observation of its own, numbered in the order
    of the calls: [readFileSync 0] is the first read and [readFileSync 1]
    the read after the wait, [statSync 0] gives the reference [mtimeMs] and
    [statSync n] is what the [n]-th [poll] sees.  [None] is a call that
    throws. *)
Record Fs := mkFs {
  readFileSync : nat → option string;
  statSync : nat → option Z
}.

(** How the promise of [readModifiedFile] ends.  A [statSync] that throws
    inside [poll] rejects the promise of that [poll], which nobody awaits:
    [r] is never called and no further timer is set, so the promise that
    [readModifiedFile] awaits stays pending for ever. *)
Inductive Outcome :=
| Returns (content : string)
| Rejects
| NeverSettles.

(** How the polling ends: [r(0)] is called in the [n]-th [poll], or that
    [poll] throws. *)
Inductive Polled :=
| Woken (n : nat)
| PollThrew (n : nat).

(** The timer callback [poll], from the call that follows [n] calls;
    [fuel] bounds the number of timers. *)
Fixpoint poll (fs : Fs) (mtime : Z) (fuel n : nat) : option Polled :=
  match fuel with
  | O => None
  | S fuel' =>
      let n := S n in
      match statSync fs n with
      | None => Some (PollThrew n)
      | Some newMtime =>
          if negb (newMtime =? mtime)%Z || (10 <? n) then Some (Woken n)
          else poll fs mtime fuel' n
      end
  end.

(** [readModifiedFile(file)] *)
Definition readModifiedFile (fs : Fs) (fuel : nat) : option Outcome :=
  match readFileSync fs 0 with
  | None => Some Rejects
  | Some content =>
      if negb (truthy content) then
        match statSync fs 0 with
        | None => Some Rejects
        | Some mtime =>
            match poll fs mtime fuel 0 with
            | None => None
            | Some (PollThrew _) => Some NeverSettles
            | Some (Woken _) =>
                match readFileSync fs 1 with
                | None => Some Rejects
                | Some content => Some (Returns content)
                end
            end
        end
      else Some (Returns content)
  end.

(** The poll in which the wait ends: the first one, of the first eleven,
    that does not see the reference [mtimeMs] again; the eleventh at the
    latest. *)
Definition last_poll (fs : Fs) (mtime : Z) (k : nat) : Prop :=
  1 ≤ k ≤ 11 ∧
  (∀ j, 1 ≤ j < k → statSync fs j = Some mtime) ∧
  (statSync fs k ≠ Some mtime ∨ k = 11).

Lemma poll_spec (fs : Fs) (mtime : Z) (fuel : nat) : ∀ n,
  0 < fuel → 11 ≤ fuel + n →
  ∃ r, poll fs mtime fuel n = Some r ∧
    let k := match r with Woken k => k | PollThrew k => k end in
    n < k ∧ k ≤ Nat.max 11 (S n) ∧
    (∀ j, n < j < k → statSync fs j = Some mtime) ∧
    (statSync fs k ≠ Some mtime ∨ 10 < k) ∧
    match r with
    | Woken _ => is_Some (statSync fs k)
    | PollThrew _ => statSync fs k = None
    end.
Proof.
  induction fuel as [|fuel IH]; intros n Hpos Hfuel; [lia|].
  cbn [poll]. cbv zeta.
  destruct (statSync fs (S n)) as [newMtime|] eqn:Es.
  2:{ exists (PollThrew (S n)). split; [done|]. cbv zeta.
      split_and!; [lia|lia| | |done].
      - intros j Hj. lia.
      - left. by rewrite Es. }
  destruct (negb (newMtime =? mtime)%Z || (10 <? S n)) eqn:Estop.
  - exists (Woken (S n)). split; [done|]. cbv zeta.
    split_and!; [lia|lia| | |by rewrite Es].
    + intros j Hj. lia.
    + apply orb_true_iff in Estop as [Hne|Hgt].
      * left. rewrite Es. intros [= ->].
        by rewrite Z.eqb_refl in Hne.
      * right. by apply Nat.ltb_lt in Hgt.
  - apply orb_false_iff in Estop as [Heq Hle].
    apply negb_false_iff, Z.eqb_eq in Heq. subst newMtime.
    apply Nat.ltb_ge in Hle.
    destruct (IH (S n)) as (r & -> & Hr); [lia|lia|].
    exists r. split; [done|]. cbv zeta in *.
    destruct Hr as (Hlt & Hmax & Hsame & Hend & Hlast).
    split_and!; [lia|lia| |done|done].
    intros j Hj. destruct (decide (j = S n)) as [->|Hne]; [done|].
    apply Hsame. lia.
Qed.

(** X23.  [readModifiedFile] with a file system that may throw.  The
    call is decided within eleven polls: with enough timers the outcome
    is the following, whatever the file system answers.  A first read that
    throws rejects; a first read that is not empty is returned, with no
    stat made.  After an empty read, a first stat that throws rejects;
    otherwise the wait ends in the first poll that does not see the first
    [mtimeMs] again, in the eleventh at the latest.  If the stat of that
    poll throws, the promise never settles; otherwise the file is read
    again, and that read is returned, or rejects if it throws. *)
Theorem readModifiedFile_outcome (fs : Fs) (fuel : nat) :
  11 ≤ fuel →
  ∃ out, readModifiedFile fs fuel = Some out ∧
    match readFileSync fs 0 with
    | None => out = Rejects
    | Some content =>
        if truthy content then out = Returns content
        else
          match statSync fs 0 with
          | None => out = Rejects
          | Some mtime =>
              ∃ k, last_poll fs mtime k ∧
                match statSync fs k, readFileSync fs 1 with
                | None, _ => out = NeverSettles
                | Some _, None => out = Rejects
                | Some _, Some content' => out = Returns content'
                end
          end
    end.
Proof.
  intros Hfuel. unfold readModifiedFile.
  destruct (readFileSync fs 0) as [content|]; [|by exists Rejects].
  destruct (truthy content); cbn [negb]; [by exists (Returns content)|].
  destruct (statSync fs 0) as [mtime|]; [|by exists Rejects].
  destruct (poll_spec fs mtime fuel 0) as (r & -> & Hr); [lia|lia|].
  cbv zeta in Hr. destruct Hr as (Hlt & Hmax & Hsame & Hend & Hlast).
  destruct r as [k|k].
  - destruct Hlast as [m Hm].
    destruct (readFileSync fs 1) as [content'|] eqn:E1.
    + exists (Returns content'). split; [done|]. exists k.
      rewrite Hm. split; [|done].
      split_and!; [lia|lia| |].
      * intros j Hj. apply Hsame. lia.
      * destruct Hend as [?|?]; [by left|right; lia].
    + exists Rejects. split; [done|]. exists k.
      rewrite Hm. split; [|done].
      split_and!; [lia|lia| |].
      * intros j Hj. apply Hsame. lia.
      * destruct Hend as [?|?]; [by left|right; lia].
  - exists NeverSettles. split; [done|]. exists k.
    rewrite Hlast. split; [|done].
    split_and!; [lia|lia| |].
    + intros j Hj. apply Hsame. lia.
    + destruct Hend as [?|?]; [by left|right; lia].
Qed.

End ReadModified.

(** The file is empty for two polls, then has its content; the third poll
    sees the new [mtimeMs]. *)
Lemma readModifiedFile_outcome_witness :
  let fs := ReadModified.mkFs
              (λ n, Some (if n =? 0 then "" else "<template/>"))
              (λ n, Some (if n <? 3 then 100%Z else 130%Z)) in
  ∃ out, ReadModified.readModifiedFile fs 20 = Some out ∧
         ∃ k, ReadModified.last_poll fs 100%Z k ∧
              out = ReadModified.Returns "<template/>".
Proof.
  cbv zeta.
  destruct (ReadModified.readModifiedFile_outcome
              (ReadModified.mkFs
                 (λ n, Some (if n =? 0 then "" else "<template/>"))
                 (λ n, Some (if n <? 3 then 100%Z else 130%Z))) 20)
    as (out & E & k & Hk & Hout); [lia|].
  exists out. split; [exact E|]. exists k. split; [exact Hk|].
  cbn in Hout. exact Hout.
Defined.

Example readModifiedFile_polls :
  ReadModified.readModifiedFile
    (ReadModified.mkFs
       (λ n, Some (if n =? 0 then "" else "<template/>"))
       (λ n, Some (if n <? 3 then 100%Z else 130%Z))) 20
  = Some (ReadModified.Returns "<template/>").
Proof. vm_compute. reflexivity. Qed.

(** The file is removed while the call waits: the second poll throws and
    the promise stays pending. *)
Example readModifiedFile_hangs :
  ReadModified.readModifiedFile
    (ReadModified.mkFs
       (λ n, if n =? 0 then Some "" else None)
       (λ n, if n <? 2 then Some 100%Z else None)) 20
  = Some ReadModified.NeverSettles.
Proof. vm_compute. reflexivity. Qed.

(** ** The transform middleware: conditional requests *)

Module Middleware.

Section NotModified.
Context {Ext : Type} `{Utils} `{Transform.Host Ext}.
Implicit Type g : ModuleGraph Ext.

(** The early test of the middleware, made before the transform is
    asked for:
    [ifNoneMatch && (await moduleGraph.getModuleByUrl(url, false))
       ?.transformResult?.etag === ifNoneMatch].
    When it fails the request goes on to [transformRequest] and [send],
    which lies outside these files and compares the etag once more. *)
Definition not_modified g (url : string) (ifNoneMatch : option string) : bool :=
  match ifNoneMatch with
  | Some tag =>
      truthy tag &&
      bool_decide
        ((m ← getModuleByUrl g url false;
          r ← ModuleNode.transformResult (node (arena g) m);
          TransformResult.etag r) = Some tag)
  | None => false
  end.

(** X24.  The early 304 test of the middleware only stands in for a
    response that carries the same etag, and never succeeds on a stale
    entry.  When the test succeeds, the transform of the url, had it been
    asked for, would have been answered from the cache, with a result that
    carries the etag the browser sent; that etag is the etag of the cached
    code when the cache is well tagged.  And after [onFileChange(file)]
    the test fails for every url of a module of that file, whatever the
    browser sends, so that such a request goes on to the transform. *)
Theorem not_modified_sound g (url : string) (ifNoneMatch : option string) :
  removeTimestampQuery url = url →
  (not_modified g url ifNoneMatch = true →
   ∃ tag r,
     ifNoneMatch = Some tag ∧ TransformResult.etag r = Some tag ∧
     (TransformFacts.etags_ok g →
      tag = Transform.getEtag (TransformResult.code r)) ∧
     ∀ w html,
       Transform.doTransform url (Transform.mkServer g w)
         (Transform.mkOptions None html)
       = (Transform.Resolved (Some r), Transform.mkServer g w)) ∧
  (∀ file m g',
     graph_wf g → getModuleByUrl g url false = Some m →
     ModuleNode.file (node (arena g) m) = Some file →
     onFileChange g file = Some g' →
     not_modified g' url ifNoneMatch = false).
Proof.
  intros Hurl. split.
  - unfold not_modified. destruct ifNoneMatch as [tag|]; [|done].
    intros [_ Heq%bool_decide_eq_true]%andb_true_iff.
    destruct (getModuleByUrl g url false) as [m|] eqn:Em; [|done].
    cbn [mbind option_bind] in Heq.
    destruct (ModuleNode.transformResult (node (arena g) m)) as [r|] eqn:Er;
      [|done].
    cbn [mbind option_bind] in Heq.
    exists tag, r. split_and!; [done..| |].
    + intros Hok. specialize (Hok m r Er). congruence.
    + intros w html.
      pose proof (TransformFacts.doTransform_cases url (Transform.mkServer g w)
                    (Transform.mkOptions None html)) as Hc.
      cbv zeta in Hc. rewrite Hurl in Hc.
      unfold TransformFacts.cached_result in Hc.
      cbn [Transform.moduleGraph Transform.ssr Transform.is_set default] in Hc.
      change (from_option id false None) with false in Hc.
      rewrite Em in Hc. cbn [mbind option_bind] in Hc. by rewrite Er in Hc.
  - intros file m g' Hwf Em Hfile Hchange.
    unfold not_modified. destruct ifNoneMatch as [tag|]; [|done].
    apply andb_false_iff. right. apply bool_decide_eq_false.
    revert Hchange. unfold onFileChange.
    destruct (getModulesByFile g file) as [mods|] eqn:Emods.
    + destruct (invalidate_modules_graph g mods) as (a' & -> & L & K & _).
      intros [= <-].
      assert (getModuleByUrl (with_arena g a') url false = Some m) as ->.
      { revert Em. unfold getModuleByUrl.
        by rewrite (resolveUrl_with_resolveId g (with_arena g a') url false). }
      cbn [mbind option_bind arena with_arena].
      assert (m ∈ mods) as Hin.
      { unfold getModuleByUrl in Em.
        destruct (resolveUrl g url false) as [[u rid] meta].
        destruct (wf_url _ Hwf _ _ Em) as (Hlive & _).
        destruct (wf_file_all _ Hwf m Hlive) as (f & ms & Hf & Hms & Hm).
        assert (f = file) as -> by congruence.
        unfold getModulesByFile, ref in *. rewrite Hms in Emods.
        by injection Emods as <-. }
      specialize (K m). rewrite decide_True in K by done.
      unfold caches in K.
      assert (ModuleNode.transformResult (node a' m) = None) as -> by congruence.
      done.
    + intros [= <-]. exfalso.
      unfold getModuleByUrl in Em.
      destruct (resolveUrl g url false) as [[u rid] meta].
      destruct (wf_url _ Hwf _ _ Em) as (Hlive & _).
      destruct (wf_file_all _ Hwf m Hlive) as (f & ms & Hf & Hms & Hm).
      assert (f = file) as -> by congruence.
      unfold getModulesByFile, ref in *. by rewrite Hms in Emods.
Qed.

End NotModified.
End Middleware.

(** [/src/main.js] has been served; the browser asks again with the etag
    it was given. *)
Lemma not_modified_sound_witness :
  let server :=
    (Transform.doTransform "/src/main.js" DemoHost.server
       (Transform.mkOptions None None)).2 in
  let g := Transform.moduleGraph server in
  ∃ tag r,
    Some "W/export default 1" = Some tag ∧ TransformResult.etag r = Some tag ∧
    (TransformFacts.etags_ok g →
     tag = Transform.getEtag (TransformResult.code r)) ∧
    ∀ w html,
      Transform.doTransform "/src/main.js" (Transform.mkServer g w)
        (Transform.mkOptions None html)
      = (Transform.Resolved (Some r), Transform.mkServer g w).
Proof.
  cbv zeta.
  destruct (Middleware.not_modified_sound
              (Transform.moduleGraph
                 (Transform.doTransform "/src/main.js" DemoHost.server
                    (Transform.mkOptions None None)).2)
              "/src/main.js" (Some "W/export default 1")) as [Hw _].
  - reflexivity.
  - apply Hw. vm_compute. reflexivity.
Defined.

(** ** One node per url *)

Section UrlIndex.
Context {Ext : Type} `{Utils}.
Implicit Type g : ModuleGraph Ext.

(** X25.  The url index keeps one node per resolved url.  Two calls of
    [ensureEntryFromUrl] in a row return the same node exactly when the
    two raw urls resolve to the same url, whatever their queries, and in
    that case the second call leaves the graph as it was. *)
Theorem ensureEntryFromUrl_same_node g (raw1 raw2 : string) (ssr1 ssr2 : bool) :
  graph_wf g →
  let m1 := (ensureEntryFromUrl g raw1 ssr1).1 in
  let g1 := (ensureEntryFromUrl g raw1 ssr1).2 in
  let m2 := (ensureEntryFromUrl g1 raw2 ssr2).1 in
  let g2 := (ensureEntryFromUrl g1 raw2 ssr2).2 in
  (m1 = m2 ↔ (resolveUrl g raw1 ssr1).1.1 = (resolveUrl g raw2 ssr2).1.1) ∧
  (m1 = m2 → g2 = g1).
Proof.
  intros Hwf. cbv zeta.
  pose proof (ensureEntryFromUrl_wf g raw1 ssr1 Hwf) as Hwf1.
  pose proof (ensureEntryFromUrl_frame g raw1 ssr1) as (_ & Hr1 & _ & Hl1).
  cbv zeta in Hr1, Hl1.
  destruct (ensureEntryFromUrl g raw1 ssr1) as [m1 g1]. cbn [fst snd] in *.
  pose proof (ensureEntryFromUrl_wf g1 raw2 ssr2 Hwf1) as Hwf2.
  pose proof (ensureEntryFromUrl_frame g1 raw2 ssr2) as (_ & _ & Hk2 & Hl2).
  cbv zeta in Hk2, Hl2.
  rewrite (resolveUrl_with_resolveId g g1 raw2 ssr2 Hr1) in Hl2.
  assert (m1 = (ensureEntryFromUrl g1 raw2 ssr2).1 ↔
          (resolveUrl g raw1 ssr1).1.1 = (resolveUrl g raw2 ssr2).1.1) as Hiff.
  { split.
    - intros Heq. apply Hk2 in Hl1.
      destruct (wf_url _ Hwf2 _ _ Hl1) as (_ & <- & _).
      destruct (wf_url _ Hwf2 _ _ Hl2) as (_ & <- & _).
      by rewrite Heq.
    - intros Heq. apply Hk2 in Hl1. rewrite Heq in Hl1. congruence. }
  split; [done|].
  intros Heq%Hiff. unfold ensureEntryFromUrl.
  rewrite (resolveUrl_with_resolveId g g1 raw2 ssr2 Hr1).
  rewrite Heq in Hl1.
  destruct (resolveUrl g raw2 ssr2) as [[u rid] meta]. cbn [fst] in Hl1.
  by rewrite Hl1.
Qed.

End UrlIndex.

Lemma ensureEntryFromUrl_same_node_witness :
  let g := Demo.empty_graph in
  let m1 := (ensureEntryFromUrl g "/a" false).1 in
  let g1 := (ensureEntryFromUrl g "/a" false).2 in
  let m2 := (ensureEntryFromUrl g1 "/b" false).1 in
  let g2 := (ensureEntryFromUrl g1 "/b" false).2 in
  (m1 = m2 ↔ (resolveUrl g "/a" false).1.1 = (resolveUrl g "/b" false).1.1) ∧
  (m1 = m2 → g2 = g1).
Proof.
  apply (ensureEntryFromUrl_same_node Demo.empty_graph "/a" "/b" false false).
  apply graph_wf_new_graph.
Defined.

(** ** [updateModuleInfo] a second time *)

Section UpdateTwice.
Context {Ext : Type} `{Utils}.
Implicit Type g : ModuleGraph Ext.
Implicit Type a : Arena Ext.

Lemma alter_node_id a (f : ModuleNode.t Ext → ModuleNode.t Ext) (r : ref) :
  f (node a r) = node a r → alter f r a = a.
Proof.
  intros Hf. unfold ref in *. apply list_eq. intros i.
  destruct (decide (i = r)) as [->|Hne];
    [|rewrite list_lookup_alter_ne by congruence; reflexivity].
  rewrite list_lookup_alter_eq.
  destruct (a !! r) as [n|] eqn:E; [|done].
  unfold node in Hf. rewrite (list_lookup_total_correct _ _ _ E) in Hf.
  cbn. by rewrite Hf.
Qed.

Lemma with_arena_arena g : with_arena g (arena g) = g.
Proof. by destruct g. Qed.

Lemma set_importers_same (n : ModuleNode.t Ext) :
  ModuleNode.set_importers (ModuleNode.importers n) n = n.
Proof. by destruct n. Qed.

Lemma set_importedModules_same (n : ModuleNode.t Ext) :
  ModuleNode.set_importedModules (ModuleNode.importedModules n) n = n.
Proof. by destruct n. Qed.

Lemma set_acceptedHmrDeps_same (n : ModuleNode.t Ext) :
  ModuleNode.set_acceptedHmrDeps (ModuleNode.acceptedHmrDeps n) n = n.
Proof. by destruct n. Qed.

Lemma set_isSelfAccepting_same (n : ModuleNode.t Ext) :
  ModuleNode.set_isSelfAccepting (ModuleNode.isSelfAccepting n) n = n.
Proof. by destruct n. Qed.

(** The first loop on a graph that already knows every entry and every
    back-edge only rebuilds the set. *)
Lemma add_import_again g (mod_ : ref) ssr : ∀ xs (N : list ref),
  (∀ x, x ∈ xs → ∃ r, denotes g ssr x r ∧
                      mod_ ∈ ModuleNode.importers (node (arena g) r)) →
  foldl (add_import mod_ ssr)
        (with_arena g (alter (ModuleNode.set_importedModules N) mod_ (arena g))) xs
  = with_arena g (alter (ModuleNode.set_importedModules (nodes_of g ssr xs N))
                        mod_ (arena g)).
Proof.
  unfold nodes_of.
  induction xs as [|x xs IH]; intros N Hall; cbn [foldl]; [done|].
  destruct (Hall x) as (r & D & Hr); [left|].
  rewrite (entry_node_known g ssr x r D). cbn [fst].
  rewrite <- IH by (intros x' Hx'; apply Hall; by right). f_equal.
  unfold add_import.
  rewrite (entry_node_known _ ssr x r (denotes_with_arena g _ ssr x r D)).
  cbn [arena with_arena]. unfold with_arena at 1. cbn. unfold with_arena. f_equal.
  rewrite (alter_node_id
             (alter (ModuleNode.set_importedModules N) mod_ (arena g)) _ r).
  - rewrite list_alter_alter_eq. by apply list_alter_ext.
  - rewrite JsSet.add_present; [apply set_importers_same|].
    by rewrite (node_alter_field ModuleNode.importers).
Qed.

Lemma drop_import_again (mod_ : ref) a : ∀ prev nli,
  (∀ d, d ∈ prev → d ∈ ModuleNode.importedModules (node a mod_)) →
  foldl (drop_import mod_) (a, nli) prev = (a, nli).
Proof.
  induction prev as [|d prev IH]; intros nli Hall; cbn [foldl]; [done|].
  assert (drop_import mod_ (a, nli) d = (a, nli)) as ->.
  { unfold drop_import.
    rewrite (proj2 (JsSet.has_true _ d)) by (apply Hall; left). done. }
  apply IH. intros d' Hd'. apply Hall. by right.
Qed.

Lemma add_accepted_again g (mod_ : ref) ssr : ∀ xs (N : list ref),
  (∀ x, x ∈ xs → ∃ r, denotes g ssr x r) →
  foldl (add_accepted mod_ ssr)
        (with_arena g (alter (ModuleNode.set_acceptedHmrDeps N) mod_ (arena g))) xs
  = with_arena g (alter (ModuleNode.set_acceptedHmrDeps (nodes_of g ssr xs N))
                        mod_ (arena g)).
Proof.
  unfold nodes_of.
  induction xs as [|x xs IH]; intros N Hall; cbn [foldl]; [done|].
  destruct (Hall x) as (r & D); [left|].
  rewrite (entry_node_known g ssr x r D). cbn [fst].
  rewrite <- IH by (intros x' Hx'; apply Hall; by right). f_equal.
  unfold add_accepted.
  rewrite (entry_node_known _ ssr x r (denotes_with_arena g _ ssr x r D)).
  cbn [arena with_arena]. unfold with_arena. cbn. f_equal.
  rewrite list_alter_alter_eq. by apply list_alter_ext.
Qed.

(** A graph in which [mod_] already has the flag, the imports with their
    back-edges and the accepted deps that a call asks for is a fixed point
    of that call. *)
Lemma updateModuleInfo_fixed g (mod_ : ref) (I A : list (string + ref)) (s ssr : bool) :
  ModuleNode.isSelfAccepting (node (arena g) mod_) = s →
  ModuleNode.importedModules (node (arena g) mod_) = nodes_of g ssr I [] →
  ModuleNode.acceptedHmrDeps (node (arena g) mod_) = nodes_of g ssr A [] →
  (∀ x, x ∈ I ++ A → ∃ r, denotes g ssr x r) →
  (∀ d, d ∈ ModuleNode.importedModules (node (arena g) mod_) →
        mod_ ∈ ModuleNode.importers (node (arena g) d)) →
  updateModuleInfo g mod_ I A s ssr = (None, g).
Proof.
  intros Hs Hi Ha Hall Hback. unfold updateModuleInfo.
  rewrite (alter_node_id (arena g) (ModuleNode.set_isSelfAccepting s) mod_)
    by (rewrite <- Hs; apply set_isSelfAccepting_same).
  rewrite add_import_again.
  2:{ intros x Hx. destruct (Hall x) as (r & D); [apply elem_of_app; by left|].
      exists r. split; [done|]. apply Hback. rewrite Hi.
      apply elem_of_nodes_of. right. exists x.
      by rewrite (entry_node_known g ssr x r D). }
  rewrite <- Hi.
  rewrite (alter_node_id (arena g)) by apply set_importedModules_same.
  rewrite with_arena_arena.
  rewrite drop_import_again by done.
  rewrite add_accepted_again
    by (intros x Hx; apply Hall, elem_of_app; by right).
  rewrite <- Ha.
  rewrite (alter_node_id (arena g)) by apply set_acceptedHmrDeps_same.
  by rewrite with_arena_arena.
Qed.

(** X26.  [updateModuleInfo] is idempotent.  On a graph whose references
    are live and whose import edges are mirrored, a second call with the
    same arguments, made right after the first, changes nothing at all, not
    even the order of a set, and reports no module as no longer imported. *)
Theorem updateModuleInfo_twice g (mod_ : ref) (I A : list (string + ref))
    (s ssr : bool) :
  graph_wf g → edges_symmetric g → mod_ < length (arena g) →
  (∀ d, inr d ∈ I ++ A → d < length (arena g)) →
  let g' := (updateModuleInfo g mod_ I A s ssr).2 in
  updateModuleInfo g' mod_ I A s ssr = (None, g').
Proof.
  intros Hwf Hsym Hm Hlive. cbv zeta.
  pose proof (updateModuleInfo_inv g mod_ I A s ssr Hwf Hm Hlive)
    as (_ & _ & Hsym').
  pose proof (updateModuleInfo_exact g mod_ I A s ssr Hm) as (Hi & Ha & Hall & _).
  pose proof (updateModuleInfo_post g mod_ I A s ssr Hm) as (_ & _ & Hs & _).
  cbv zeta in *.
  apply updateModuleInfo_fixed; [done..|].
  intros d Hd. by apply (Hsym' Hsym).
Qed.

End UpdateTwice.

Lemma updateModuleInfo_twice_witness :
  let g := (ensureEntryFromUrl Demo.empty_graph "/a" false).2 in
  let g' := (updateModuleInfo g 0 [inl "/b"; inl "/c"; inr 0] [inl "/b"] true false).2 in
  updateModuleInfo g' 0 [inl "/b"; inl "/c"; inr 0] [inl "/b"] true false
  = (None, g').
Proof.
  apply (updateModuleInfo_twice
           (ensureEntryFromUrl Demo.empty_graph "/a" false).2 0
           [inl "/b"; inl "/c"; inr 0] [inl "/b"] true false).
  - apply ensureEntryFromUrl_wf, graph_wf_new_graph.
  - apply (edges_symmetric_edges Demo.empty_graph);
      [apply ensureEntryFromUrl_edges|apply edges_symmetric_new_graph].
  - vm_compute. lia.
  - intros d Hd. vm_compute.
    apply (bool_decide_eq_true_2 _) in Hd.
    destruct d as [|d]; [lia|]. vm_compute in Hd. discriminate.
Defined.
